(** * Workflow graph validation and editing: a shallow embedding

    The development follows the TypeScript sources of the workflow editor:

    - [frontend/app/components/workflow/WorkflowBuilder.tsx]  (module [Builder])
    - [frontend/app/workflow/[id]/page.tsx]                   (module [Page])
    - [ai-agent-orchestration/src/components/workflow-designer.tsx]
                                                              (module [Designer])
    - the [WorkflowCanvas] component with [handleConnectNodes] (module [Canvas])
    - the editing handlers that WorkflowBuilder.tsx and page.tsx share
                                                              (module [Editor])

    Conventions of the embedding.

    - Node and edge ids are JavaScript strings, here [string].
    - A JavaScript [Set] that is only asked [has]/[add]/[delete] is a
      [gset string].
    - The adjacency object [graph] is a plain JavaScript object used as a
      dictionary.  Its enumeration order is observable ([for ... in] in the
      designer), so it is kept as an association list in insertion order and
      [JsObject.keys] computes the enumeration order (array indices
      ascending, then the other keys in insertion order).  The object is
      created by the literal [{}], so that [graph[k]] also finds the
      members inherited from [Object.prototype]: [JsObject.get] tells an
      own property from an inherited member and from [undefined].
    - A call that throws returns no value: functions that can throw a
      [TypeError] have an [option] result, and [None] stands for the
      exception.  The recursive depth-first search is defined by recursion
      on a fuel argument and also yields [None] when the fuel is exhausted;
      [frontend_detectCycle_spec] and [designer_detectCycle_spec] show that
      with the fuel handed over by [detectCycle] the search returns a
      value unless it looks up an id that is an inherited name.
    - React state is passed explicitly.  An event handler is a function of
      the values its closure captured; it returns the new value of the
      state it sets, or the list of effects it performs (toasts, alerts,
      requests). *)

From stdpp Require Import base decidable option list sets gmap strings pretty sorting relations.
From Stdlib Require Import Ascii String NArith Lia.

Local Open Scope string_scope.
#[local] Set Warnings "-clear-no-such-hyp".

Local Open Scope list_scope.

(** ** Data model *)

(** A node as the validators read it: [id], [type] and the display name
    ([data.label] in the frontend, [data.name] in the designer). *)
Record Node := mkNode {
  node_id : string;
  node_type : string;
  label : string
}.

(** An edge: [id], [source], [target] (display attributes are not read by
    any of the functions below). *)
Record Edge := mkEdge {
  edge_id : string;
  source : string;
  target : string
}.

(** [workflow.definition]: the node array and the edge array. *)
Record WorkflowDefinition := mkDefinition {
  nodes : list Node;
  edges : list Edge
}.

Global Instance Node_eq_dec : EqDecision Node.
Proof. solve_decision. Defined.
Global Instance Edge_eq_dec : EqDecision Edge.
Proof. solve_decision. Defined.

(** ** Plain JavaScript objects used as dictionaries *)

Module JsObject.

(** Own properties, in insertion order. *)
Definition t (A : Type) := list (string * A).

Definition empty {A} : t A := [].

(** The own property [k] of [o], when there is one. *)
Fixpoint getOwn {A} (o : t A) (k : string) : option A :=
  match o with
  | [] => None
  | (k', v) :: o' => if decide (k' = k) then Some v else getOwn o' k
  end.

(** The names of the members that an object created by [{}] inherits from
    [Object.prototype]: eleven functions and the accessor [__proto__]. *)
Definition prototypeNames : list string :=
  ["constructor"; "__defineGetter__"; "__defineSetter__"; "hasOwnProperty";
   "__lookupGetter__"; "__lookupSetter__"; "isPrototypeOf";
   "propertyIsEnumerable"; "toString"; "valueOf"; "__proto__";
   "toLocaleString"].

(** What [o[k]] evaluates to: the value of an own property, a member
    inherited from [Object.prototype] (a function, or the prototype object
    itself for [__proto__]: truthy, not iterable, without [push]), or
    [undefined]. *)
Inductive Lookup (A : Type) :=
  | Own (v : A)
  | Inherited
  | Undefined.
Arguments Own {A} v.
Arguments Inherited {A}.
Arguments Undefined {A}.

(** [o[k]] *)
Definition get {A} (o : t A) (k : string) : Lookup A :=
  match getOwn o k with
  | Some v => Own v
  | None => if decide (k ∈ prototypeNames) then Inherited else Undefined
  end.

(** [o[k] = v] for a name [k] that is not inherited: an existing property
    keeps its place. *)
Fixpoint set {A} (o : t A) (k : string) (v : A) : t A :=
  match o with
  | [] => [(k, v)]
  | (k', v') :: o' =>
      if decide (k' = k) then (k, v) :: o' else (k', v') :: set o' k v
  end.

(** In-place update of the value stored under [k] (as [o[k].push(x)]). *)
Fixpoint alter {A} (f : A → A) (o : t A) (k : string) : t A :=
  match o with
  | [] => []
  | (k', v) :: o' =>
      if decide (k' = k) then (k', f v) :: o' else (k', v) :: alter f o' k
  end.

Definition digit_val (c : ascii) : option N :=
  let n := N_of_ascii c in
  if decide (48 ≤ n ∧ n ≤ 57)%N then Some (n - 48)%N else None.

Fixpoint parse_digits (s : string) (acc : N) : option N :=
  match s with
  | EmptyString => Some acc
  | String c s' =>
      match digit_val c with
      | Some d => parse_digits s' (10 * acc + d)%N
      | None => None
      end
  end.

(** A key is an array index when it is the canonical decimal form of an
    integer between 0 and 2^32 - 2. *)
Definition array_index (k : string) : option N :=
  match k with
  | EmptyString => None
  | String c s' =>
      if decide (c = "0"%char) then
        (if decide (s' = EmptyString) then Some 0%N else None)
      else
        match parse_digits k 0 with
        | Some n => if decide (n ≤ 4294967294)%N then Some n else None
        | None => None
        end
  end.

Definition index_le (a b : N * string) : Prop := (a.1 ≤ b.1)%N.
Global Instance index_le_dec : RelDecision index_le.
Proof. intros a b. unfold index_le. apply _. Defined.

(** The keys that are array indices, with their numeric value. *)
Definition index_keys (ks : list string) : list (N * string) :=
  omap (λ k, (λ n, (n, k)) <$> array_index k) ks.

Definition string_keys (ks : list string) : list string :=
  filter (λ k, array_index k = None) ks.

(** Enumeration order of [for (const k in o)]: array indices in ascending
    numeric order, then the remaining keys in insertion order. *)
Definition keys {A} (o : t A) : list string :=
  (snd <$> merge_sort index_le (index_keys (fst <$> o)))
    ++ string_keys (fst <$> o).

End JsObject.

(** ** Depth-first search state *)

(** The two sets shared by all recursive calls of one [detectCycle] run. *)
Record DfsState := mkDfs {
  visited : gset string;
  recStack : gset string
}.

Definition dfs_init : DfsState := mkDfs ∅ ∅.

(** [visited.add(node); recStack.add(node)] *)
Definition enter (node : string) (st : DfsState) : DfsState :=
  mkDfs ({[node]} ∪ visited st) ({[node]} ∪ recStack st).

(** [recStack.delete(node)] *)
Definition leave (node : string) (st : DfsState) : DfsState :=
  mkDfs (visited st) (recStack st ∖ {[node]}).

(** The result of a call: the returned boolean and the sets after it, or
    [None] when the call throws (or the fuel ran out). *)
Definition DfsResult := option (bool * DfsState).

(** The array that [for (const neighbor of graph[node] || [])] iterates:
    the stored array, or [[]] when [graph[node]] is [undefined].  For an
    inherited name [graph[node]] is truthy and not iterable, and the loop
    throws a [TypeError]. *)
Definition neighborsOf (graph : JsObject.t (list string)) (node : string) : option (list string) :=
  match JsObject.get graph node with
  | JsObject.Own targets => Some targets
  | JsObject.Undefined => Some []
  | JsObject.Inherited => None
  end.

(** The adjacency object built from the edge array:
<<
    edges.forEach(edge => {
      if (!graph[edge.source]) graph[edge.source] = [];
      graph[edge.source].push(edge.target);
    });
>>
    One step of the loop: when [edge.source] is an inherited name,
    [graph[edge.source]] is truthy, no array is stored, and the member
    found has no [push]: the call throws a [TypeError]. *)
Definition addAdjacency (graph : JsObject.t (list string)) (edge : Edge) : option (JsObject.t (list string)) :=
  match JsObject.get graph (source edge) with
  | JsObject.Undefined =>
      Some (JsObject.alter (λ targets, targets ++ [target edge])
              (JsObject.set graph (source edge) []) (source edge))
  | JsObject.Own _ =>
      Some (JsObject.alter (λ targets, targets ++ [target edge]) graph (source edge))
  | JsObject.Inherited => None
  end.

Definition buildAdjacency (edges : list Edge) : option (JsObject.t (list string)) :=
  foldl (λ built edge, graph ← built; addAdjacency graph edge)
    (Some JsObject.empty) edges.

(** The loop over the neighbours of [node], shared by the three copies of
    the search; [rec] is the recursive call.
<<
    for (const neighbor of neighbors) {
      if (!visited.has(neighbor) && hasCycle(neighbor)) {
        return true;
      } else if (recStack.has(neighbor)) {
        return true;
      }
    }
    recStack.delete(node);
    return false;
>> *)
Fixpoint forNeighbors (rec : string → DfsState → DfsResult)
    (node : string) (neighbors : list string) (st : DfsState) : DfsResult :=
  match neighbors with
  | [] => Some (false, leave node st)
  | neighbor :: rest =>
      if decide (neighbor ∈ visited st) then
        if decide (neighbor ∈ recStack st) then Some (true, st)
        else forNeighbors rec node rest st
      else
        match rec neighbor st with
        | None => None
        | Some (true, st') => Some (true, st')
        | Some (false, st') =>
            if decide (neighbor ∈ recStack st') then Some (true, st')
            else forNeighbors rec node rest st'
        end
  end.

(** Fuel handed to the search: one more than the number of ids in the node
    array plus the number of edge targets; every call marks one of these
    ids as visited. *)
Definition dfsFuel (ids : list string) (edges : list Edge) : nat :=
  S (List.length ids + List.length edges).

(** ** The frontend validators (WorkflowBuilder.tsx and workflow/[id]/page.tsx) *)

Module Frontend.

(** [function hasCycle(node)] inside [detectCycle]; the text is the same
    in WorkflowBuilder.tsx (l.125-141) and page.tsx (l.156-172). *)
Fixpoint hasCycle (graph : JsObject.t (list string)) (fuel : nat)
    (node : string) (st : DfsState) : DfsResult :=
  match fuel with
  | O => None
  | S fuel' =>
      if decide (node ∈ visited st) then Some (false, leave node st)
      else
        match neighborsOf graph node with
        | None => None
        | Some neighbors =>
            forNeighbors (hasCycle graph fuel') node neighbors (enter node st)
        end
  end.

(** [for (const node of nodes) { if (hasCycle(node.id)) return true; } return false;] *)
Fixpoint forNodes (graph : JsObject.t (list string)) (fuel : nat)
    (ns : list Node) (st : DfsState) : option bool :=
  match ns with
  | [] => Some false
  | node :: rest =>
      match hasCycle graph fuel (node_id node) st with
      | None => None
      | Some (true, _) => Some true
      | Some (false, st') => forNodes graph fuel rest st'
      end
  end.

(** [detectCycle(nodes, edges)] *)
Definition detectCycle (nodes : list Node) (edges : list Edge) : option bool :=
  graph ← buildAdjacency edges;
  forNodes graph (dfsFuel (node_id <$> nodes) edges) nodes dfs_init.

End Frontend.

(** ** Error messages *)

(** [\n] *)
Definition nl : string := String (ascii_of_nat 10) EmptyString.

(** [arr.join(sep)] *)
Definition join (sep : string) (l : list string) : string := String.concat sep l.

(** [str.charAt(0).toUpperCase() + str.slice(1)] for a text whose first
    character is ASCII ([asciiHead]): [toUpperCase] maps [a]..[z] to
    [A]..[Z] and leaves the other ASCII characters as they are.  A
    non-ASCII first character, which [toUpperCase] may change, is outside
    this model: its bytes are left as they are. *)
Definition upper_char (c : ascii) : ascii :=
  let n := nat_of_ascii c in
  if decide (97 ≤ n ∧ n ≤ 122)%nat then ascii_of_nat (n - 32) else c.

Definition capitalize (s : string) : string :=
  match s with
  | EmptyString => EmptyString
  | String c s' => String (upper_char c) s'
  end.

(** The text is empty or starts with an ASCII character. *)
Definition asciiHead (s : string) : Prop :=
  match s with
  | EmptyString => True
  | String c _ => (nat_of_ascii c < 128)%nat
  end.

Module Msg.

(** WorkflowBuilder.tsx l.86, page.tsx l.108 *)
Definition cycle : string :=
  "Workflow contains a cycle - this will cause infinite loops!".

(** WorkflowBuilder.tsx l.99, page.tsx l.121, workflow-designer.tsx l.323 *)
Definition disconnected (ns : list Node) : string :=
  "Found " +:+ pretty (List.length ns) +:+ " disconnected node(s): "
    +:+ join ", " (label <$> ns).

(** WorkflowBuilder.tsx l.107, page.tsx l.129 *)
Definition start_nodes (count : nat) : string :=
  "Found " +:+ pretty count
    +:+ " start nodes. Workflows should have exactly one entry point.".

(** page.tsx l.137 *)
Definition end_nodes (count : nat) : string :=
  "Found " +:+ pretty count
    +:+ " end nodes. Consider using a single end node for clarity.".

(** workflow-designer.tsx l.305, l.311, l.338 *)
Definition no_input : string :=
  "Workflow must have an input node as the starting point".
Definition no_output : string :=
  "Workflow must have an output node as the ending point".
Definition designer_cycle : string := "Workflow contains a cycle/loop".

(** Toasts and alerts of the run handlers. *)
Definition cannot_run : string :=
  "Cannot run workflow - validation errors found!".
Definition not_implemented : string :=
  "Workflow execution not yet implemented!".
Definition validation_errors (errors : list string) : string :=
  "Workflow validation errors:" +:+ nl +:+ join nl errors.
Definition preview_done : string :=
  "Workflow executed successfully!" +:+ nl +:+ nl +:+ "Preview results:"
    +:+ nl +:+ "- Input processed" +:+ nl +:+ "- Agent executed"
    +:+ nl +:+ "- Action completed" +:+ nl +:+ "- Output generated".

(** WorkflowCanvas, [handleConnectNodes] *)
Definition self_connection : string := "Cannot connect a node to itself".
Definition connection_exists : string := "Connection already exists".

End Msg.

(** ** Structural queries shared by the validators *)

(** [connectedNodes]: the set filled by
    [edges.forEach(edge => { s.add(edge.source); s.add(edge.target); })]. *)
Definition connectedNodes (edges : list Edge) : gset string :=
  foldl (λ s edge, {[target edge]} ∪ ({[source edge]} ∪ s)) ∅ edges.

(** [nodes.filter(node => !connectedNodes.has(node.id))] *)
Definition disconnectedNodes (def : WorkflowDefinition) : list Node :=
  filter (λ node, node_id node ∉ connectedNodes (edges def)) (nodes def).

(** [nodes.filter(node => !edges.find(edge => edge.target === node.id))] *)
Definition startNodes (def : WorkflowDefinition) : list Node :=
  filter (λ node,
    List.find (λ edge, bool_decide (target edge = node_id node)) (edges def) = None)
    (nodes def).

(** [nodes.filter(node => !edges.find(edge => edge.source === node.id))] *)
Definition endNodes (def : WorkflowDefinition) : list Node :=
  filter (λ node,
    List.find (λ edge, bool_decide (source edge = node_id node)) (edges def) = None)
    (nodes def).

(** [errors.push(msg)] under a condition. *)
Definition pushIf (cond : bool) (msg : string) (errors : list string) : list string :=
  if cond then errors ++ [msg] else errors.

(** The two pieces of React state written by the frontend validators:
    [setIsWorkflowValid(errors.length === 0); setValidationErrors(errors)]. *)
Record ValidationState := mkValidation {
  isWorkflowValid : bool;
  validationErrors : list string
}.

Definition setValidation (errors : list string) : ValidationState :=
  mkValidation (bool_decide (List.length errors = 0%nat)) errors.


(** Effects performed by the event handlers. *)
Inductive Effect :=
  | ToastError (msg : string)
  | ToastInfo (msg : string)
  | ToastSuccess (msg : string)
  | Alert (msg : string)
  | FetchPost (url : string)
  | RouterPush (url : string)
  | SetLoading (b : bool)
  | LogRunPreview (ns : list Node) (es : list Edge)
  | SetTimeoutAlert (msg : string) (ms : nat).

(** What [fetch] followed by [response.json()] can deliver to [handleRun]. *)
Inductive RunResponse :=
  | ResponseOk (run_id : string)
  | ResponseNotOk (message : string)
  | FetchThrows (message : string).

(** An execution step: the POST that creates a run on the backend, or the
    simulated run of the preview and the display of its results. *)
Definition startsExecution (e : Effect) : Prop :=
  match e with
  | FetchPost _ | LogRunPreview _ _ | SetTimeoutAlert _ _ => True
  | _ => False
  end.

(** The text an effect shows to the user. *)
Definition effectText (e : Effect) : string :=
  match e with
  | ToastError msg | ToastInfo msg | ToastSuccess msg | Alert msg
  | SetTimeoutAlert msg _ => msg
  | _ => ""
  end.

Module Builder.

(** The error list computed by [validateWorkflow(definition)],
    WorkflowBuilder.tsx l.80-112. *)
Definition validationErrorsOf (definition : WorkflowDefinition) : option (list string) :=
  hasCycle ← Frontend.detectCycle (nodes definition) (edges definition);
  let errors := pushIf hasCycle Msg.cycle [] in
  let disconnected := disconnectedNodes definition in
  let errors :=
    pushIf (bool_decide (0 < List.length disconnected)%nat)
      (Msg.disconnected disconnected) errors in
  let starts := startNodes definition in
  let errors :=
    pushIf (bool_decide (1 < List.length starts)%nat)
      (Msg.start_nodes (List.length starts)) errors in
  Some errors.

Definition validateWorkflow (definition : WorkflowDefinition) : option ValidationState :=
  setValidation <$> validationErrorsOf definition.

(** [handleRun], l.176-184; [isWorkflowValid] is the value captured by
    the callback. *)
Definition handleRun (isWorkflowValid : bool) : list Effect :=
  if negb isWorkflowValid then [ToastError Msg.cannot_run]
  else [ToastInfo Msg.not_implemented].

End Builder.

Module Page.

(** The error list computed by [validateWorkflow(definition)],
    page.tsx l.102-142. *)
Definition validationErrorsOf (definition : WorkflowDefinition) : option (list string) :=
  hasCycle ← Frontend.detectCycle (nodes definition) (edges definition);
  let errors := pushIf hasCycle Msg.cycle [] in
  let disconnected := disconnectedNodes definition in
  let errors :=
    pushIf (bool_decide (0 < List.length disconnected)%nat)
      (Msg.disconnected disconnected) errors in
  let starts := startNodes definition in
  let errors :=
    pushIf (bool_decide (1 < List.length starts)%nat)
      (Msg.start_nodes (List.length starts)) errors in
  let ends := endNodes definition in
  let errors :=
    pushIf (bool_decide (1 < List.length ends)%nat)
      (Msg.end_nodes (List.length ends)) errors in
  Some errors.

Definition validateWorkflow (definition : WorkflowDefinition) : option ValidationState :=
  setValidation <$> validationErrorsOf definition.

(** [handleRun], l.234-262; [isWorkflowValid] is the value that the
    callback closed over, [response] what the backend answers to the POST.
    The dependency list of [useCallback] is [[workflow.id, toast, router]],
    so the value closed over need not be the current state (see
    [PageComponent]). *)
Definition handleRun (isWorkflowValid : bool) (workflow_id : string)
    (response : RunResponse) : list Effect :=
  if negb isWorkflowValid then [ToastError Msg.cannot_run]
  else
    FetchPost ("/api/v1/workflows/" +:+ workflow_id +:+ "/run") ::
    match response with
    | ResponseOk run_id =>
        [ToastSuccess ("Workflow started successfully! Run ID: " +:+ run_id);
         RouterPush ("/workflow-runs/" +:+ run_id)]
    | ResponseNotOk message =>
        [ToastError ("Failed to run workflow: " +:+ message)]
    | FetchThrows message =>
        [ToastError ("Failed to run workflow: " +:+ message)]
    end.

End Page.

(** ** The memoised [handleRun] of page.tsx *)

Module PageComponent.

(** The part of a component instance that running a workflow reads: the
    states [isWorkflowValid] and [validationErrors], and the value of
    [isWorkflowValid] that [handleRun] closed over when [useCallback]
    created it. *)
Record Instance := mkInstance {
  validation : ValidationState;
  handleRun_isWorkflowValid : bool
}.





End PageComponent.

(** ** The designer (workflow-designer.tsx) *)

Module Designer.

(** [const dfs = (node) => ...] inside [detectCycle], l.349-364. *)
Fixpoint dfs (graph : JsObject.t (list string)) (fuel : nat)
    (node : string) (st : DfsState) : DfsResult :=
  match fuel with
  | O => None
  | S fuel' =>
      if decide (node ∈ recStack st) then Some (false, leave node st)
      else
        match neighborsOf graph node with
        | None => None
        | Some neighbors =>
            forNeighbors (dfs graph fuel') node neighbors (enter node st)
        end
  end.

(** [for (const node in graph) { if (!visited.has(node) && dfs(node)) return true }] *)
Fixpoint forKeys (graph : JsObject.t (list string)) (fuel : nat)
    (ks : list string) (st : DfsState) : option bool :=
  match ks with
  | [] => Some false
  | node :: rest =>
      if decide (node ∈ visited st) then forKeys graph fuel rest st
      else
        match dfs graph fuel node st with
        | None => None
        | Some (true, _) => Some true
        | Some (false, st') => forKeys graph fuel rest st'
        end
  end.

(** One more than the number of keys plus the number of stored targets. *)
Definition graphFuel (graph : JsObject.t (list string)) : nat :=
  S (List.length graph + List.length (mjoin (snd <$> graph))).

(** [detectCycle(graph)], l.345-373. *)
Definition detectCycle (graph : JsObject.t (list string)) : option bool :=
  forKeys graph (graphFuel graph) (JsObject.keys graph) dfs_init.

(** [validateWorkflow()], l.299-342, on the component's [nodes] and
    [edges]. *)
Definition validateWorkflow (nodes : list Node) (edges : list Edge) : option (list string) :=
  let hasStartNode := existsb (λ node, bool_decide (node_type node = "input")) nodes in
  let errors := pushIf (negb hasStartNode) Msg.no_input [] in
  let hasEndNode := existsb (λ node, bool_decide (node_type node = "output")) nodes in
  let errors := pushIf (negb hasEndNode) Msg.no_output errors in
  let disconnected := disconnectedNodes (mkDefinition nodes edges) in
  let errors :=
    pushIf (bool_decide (0 < List.length disconnected)%nat)
      (Msg.disconnected disconnected) errors in
  adjacencyList ← buildAdjacency edges;
  hasCycle ← detectCycle adjacencyList;
  Some (pushIf hasCycle Msg.designer_cycle errors).

(** [handleRunPreview], l.376-401. *)
Definition handleRunPreview (nodes : list Node) (edges : list Edge) : option (list Effect) :=
  errors ← validateWorkflow nodes edges;
  if bool_decide (0 < List.length errors)%nat then
    Some [Alert (Msg.validation_errors errors)]
  else
    Some [SetLoading true; LogRunPreview nodes edges;
          SetTimeoutAlert Msg.preview_done 1000; SetLoading false].

(** The part of the component state touched by node deletion. *)
Record State := mkState {
  st_nodes : list Node;
  st_edges : list Edge;
  selectedNode : option Node;
  showPropertiesPanel : bool
}.

(** [handleDeleteNode], l.239-246. *)
Definition handleDeleteNode (st : State) : State :=
  match selectedNode st with
  | Some selected =>
      mkState
        (filter (λ node, node_id node ≠ node_id selected) (st_nodes st))
        (filter (λ edge, source edge ≠ node_id selected ∧ target edge ≠ node_id selected)
           (st_edges st))
        None false
  | None => st
  end.



(** [handleDeleteEdge], l.249-251. *)
Definition handleDeleteEdge (edgeId : string) (st : State) : State :=
  mkState (st_nodes st) (filter (λ edge, edge_id edge ≠ edgeId) (st_edges st))
    (selectedNode st) (showPropertiesPanel st).

End Designer.

(** ** The canvas and the editing handlers of the frontend *)

Module Canvas.

(** What [handleConnectNodes] does: a toast, or [onEdgeAdded(newEdge)]. *)
Inductive Outcome :=
  | Rejected (toast : string)
  | EdgeAdded (newEdge : Edge).

(** [handleConnectNodes(sourceId, targetId)] with the [edges] prop. *)
Definition handleConnectNodes (edges : list Edge) (sourceId targetId : string) : Outcome :=
  if decide (sourceId = targetId) then Rejected Msg.self_connection
  else
    match List.find
            (λ edge, bool_decide (source edge = sourceId) && bool_decide (target edge = targetId))
            edges with
    | Some existingEdge => Rejected Msg.connection_exists
    | None =>
        EdgeAdded (mkEdge ("edge_" +:+ sourceId +:+ "_" +:+ targetId) sourceId targetId)
    end.

End Canvas.

(** The handlers below have the same text in WorkflowBuilder.tsx and in
    page.tsx.  Each computes [updatedDefinition], which it hands to
    [handleWorkflowChange]; that function stores the definition and
    validates it.  None of them checks its argument. *)
Module Editor.

(** [handleNodeUpdated(updatedNode)] *)
Definition handleNodeUpdated (updatedNode : Node) (definition : WorkflowDefinition) : WorkflowDefinition :=
  mkDefinition
    ((λ node, if decide (node_id node = node_id updatedNode) then updatedNode else node)
       <$> nodes definition)
    (edges definition).

(** [handleNodeDeleted(nodeId)] *)
Definition handleNodeDeleted (nodeId : string) (definition : WorkflowDefinition) : WorkflowDefinition :=
  mkDefinition
    (filter (λ node, node_id node ≠ nodeId) (nodes definition))
    (filter (λ edge, source edge ≠ nodeId ∧ target edge ≠ nodeId) (edges definition)).

(** [handleEdgeAdded(edge)]: the edge is appended as it is.  The canvas
    calls it from [handleConnectNodes] and also registers it as
    ReactFlow's [onEdgesChange] (part_018 l.363). *)
Definition handleEdgeAdded (edge : Edge) (definition : WorkflowDefinition) : WorkflowDefinition :=
  mkDefinition (nodes definition) (edges definition ++ [edge]).

(** [handleEdgeRemoved(edge)] *)
Definition handleEdgeRemoved (edge : Edge) (definition : WorkflowDefinition) : WorkflowDefinition :=
  mkDefinition (nodes definition)
    (filter (λ e, edge_id e ≠ edge_id edge) (edges definition)).

(** [handleNewNode(nodeType, position)]; [now1] and [now2] are the two
    readings of [Date.now()]. *)
Definition handleNewNode (nodeType : string) (now1 now2 : N) (definition : WorkflowDefinition) : WorkflowDefinition :=
  let newNode :=
    mkNode ("node_" +:+ pretty now1) nodeType
      (capitalize nodeType +:+ " " +:+ pretty now2) in
  mkDefinition (nodes definition ++ [newNode]) (edges definition).

(** A connection gesture, [onConnect] of the canvas (part_018 l.364):
    [handleConnectNodes] calls [onEdgeAdded] when it accepts the
    connection, and nothing otherwise. *)
Definition connectNodes (sourceId targetId : string) (definition : WorkflowDefinition) : WorkflowDefinition :=
  match Canvas.handleConnectNodes (edges definition) sourceId targetId with
  | Canvas.EdgeAdded newEdge => handleEdgeAdded newEdge definition
  | Canvas.Rejected _ => definition
  end.

(** The editing gestures served by [handleNewNode], [handleNodeUpdated],
    [handleNodeDeleted], [handleConnectNodes] and [handleEdgeRemoved].
    What ReactFlow itself reports through [onNodesChange] and
    [onEdgesChange], which the canvas forwards to [handleWorkflowChange]
    and to [handleEdgeAdded] (part_018 l.362-363), is not among them. *)
Inductive Op :=
  | NewNode (nodeType : string) (now1 now2 : N)
  | NodeUpdated (updatedNode : Node)
  | NodeDeleted (nodeId : string)
  | Connect (sourceId targetId : string)
  | EdgeRemoved (edge : Edge).

Definition step (definition : WorkflowDefinition) (op : Op) : WorkflowDefinition :=
  match op with
  | NewNode nodeType now1 now2 => handleNewNode nodeType now1 now2 definition
  | NodeUpdated updatedNode => handleNodeUpdated updatedNode definition
  | NodeDeleted nodeId => handleNodeDeleted nodeId definition
  | Connect sourceId targetId => connectNodes sourceId targetId definition
  | EdgeRemoved edge => handleEdgeRemoved edge definition
  end.

(** [definition: workflowData?.definition || { nodes: [], edges: [] }]
    for a workflow that is not loaded from the backend. *)
Definition emptyDefinition : WorkflowDefinition := mkDefinition [] [].

Definition run (ops : list Op) : WorkflowDefinition := foldl step emptyDefinition ops.

(** Every [Connect] gesture of [ops] joins two nodes that are on the
    canvas when it is made. *)
Fixpoint connectsExisting (definition : WorkflowDefinition) (ops : list Op) : Prop :=
  match ops with
  | [] => True
  | op :: rest =>
      match op with
      | Connect sourceId targetId =>
          sourceId ∈ node_id <$> nodes definition ∧
          targetId ∈ node_id <$> nodes definition
      | _ => True
      end ∧ connectsExisting (step definition op) rest
  end.

End Editor.

(** ** Graph-theoretic vocabulary of the specification *)

(** There is an edge from [u] to [v]. *)
Definition edgeRel (es : list Edge) (u v : string) : Prop :=
  ∃ e, e ∈ es ∧ source e = u ∧ target e = v.

(** [c] lies on a directed cycle. *)
Definition onCycle (es : list Edge) (c : string) : Prop := tc (edgeRel es) c c.

(** Entry nodes have in-degree 0, terminal nodes out-degree 0. *)
Definition isEntry (def : WorkflowDefinition) (node : Node) : Prop :=
  node ∈ nodes def ∧ ∀ e, e ∈ edges def → target e ≠ node_id node.

Definition isTerminal (def : WorkflowDefinition) (node : Node) : Prop :=
  node ∈ nodes def ∧ ∀ e, e ∈ edges def → source e ≠ node_id node.

(** [v] is reached by a forward traversal from an entry node. *)
Definition reachableFromEntry (def : WorkflowDefinition) (v : string) : Prop :=
  ∃ entry, isEntry def entry ∧ rtc (edgeRel (edges def)) (node_id entry) v.


Definition endpointsExist (def : WorkflowDefinition) : Prop :=
  ∀ e, e ∈ edges def →
    source e ∈ node_id <$> nodes def ∧ target e ∈ node_id <$> nodes def.

(** No two edges join the same source to the same target. *)
Definition noParallelEdges (es : list Edge) : Prop :=
  NoDup ((λ e, (source e, target e)) <$> es).

(** ** Invariants of the depth-first search *)

(** The array stored under [u], empty when there is none. *)
Definition storedNeighbors (graph : JsObject.t (list string)) (u : string) : list string :=
  default [] (JsObject.getOwn graph u).

(** [v] is a stored neighbour of [u]. *)
Definition succRel (graph : JsObject.t (list string)) (u v : string) : Prop :=
  v ∈ storedNeighbors graph u.

(** Looking [x] up in [graph] finds a member of [Object.prototype]. *)
Definition inheritedIn (graph : JsObject.t (list string)) (x : string) : Prop :=
  JsObject.get graph x = JsObject.Inherited.

(** Some id of [U] is a name that [graph] inherits. *)
Definition inheritedAmong (graph : JsObject.t (list string)) (U : gset string) : Prop :=
  ∃ x, x ∈ U ∧ inheritedIn graph x.

Arguments succRel graph u v /.

(** Finished nodes: visited and no longer on the recursion stack. *)
Definition finished (st : DfsState) (u : string) : Prop :=
  u ∈ visited st ∧ u ∉ recStack st.

(** The stack is part of the visited set; the finished nodes are closed
    under successors and none of them lies on a cycle. *)
Definition dfsInv (graph : JsObject.t (list string)) (st : DfsState) : Prop :=
  recStack st ⊆ visited st ∧
  ∀ u, finished st u →
    (∀ v, succRel graph u v → finished st v) ∧ ¬ tc (succRel graph) u u.

(** Every node on the stack reaches the node under examination. *)
Definition onPath (graph : JsObject.t (list string)) (st : DfsState) (n : string) : Prop :=
  ∀ r, r ∈ recStack st → rtc (succRel graph) r n.

(** [n] reaches a node that lies on a cycle. *)
Definition cycleFrom (graph : JsObject.t (list string)) (n : string) : Prop :=
  ∃ c, rtc (succRel graph) n c ∧ tc (succRel graph) c c.

(** What a call on [n] guarantees. *)
Definition callPost (graph : JsObject.t (list string))
    (n : string) (st : DfsState) (b : bool) (st' : DfsState) : Prop :=
  visited st ⊆ visited st' ∧
  if b then cycleFrom graph n
  else recStack st' ≡ recStack st ∧ n ∈ visited st' ∧ dfsInv graph st'.

(** [rec] behaves as a call of the search on every unvisited node of [U],
    as long as at most [k] ids of [U] are unvisited: it returns, with the
    guarantees of [callPost], unless it throws, and it throws only when
    some id of [U] is an inherited name. *)
Definition goodCall (graph : JsObject.t (list string)) (U : gset string)
    (k : nat) (rec : string → DfsState → DfsResult) : Prop :=
  ∀ n st,
    n ∈ U → n ∉ visited st → (size (U ∖ visited st) ≤ k)%nat →
    dfsInv graph st → onPath graph st n →
    (∃ b st', rec n st = Some (b, st') ∧ callPost graph n st b st') ∨
    (rec n st = None ∧ inheritedAmong graph U).

(** ** Ids that are not inherited names *)

(** [x] is not the name of a member of [Object.prototype]. *)
Definition safeId (x : string) : Prop := x ∉ JsObject.prototypeNames.

(** Neither end of an edge is an inherited name. *)
Definition safeEdges (es : list Edge) : Prop :=
  Forall (λ e, safeId (source e) ∧ safeId (target e)) es.

(** No node id and no end of an edge is an inherited name. *)
Definition safeIds (def : WorkflowDefinition) : Prop :=
  Forall (λ n, safeId (node_id n)) (nodes def) ∧ safeEdges (edges def).

Global Instance safeId_dec x : Decision (safeId x).
Proof. unfold safeId. apply _. Defined.
Global Instance safeEdges_dec es : Decision (safeEdges es).
Proof. unfold safeEdges. apply _. Defined.
Global Instance safeIds_dec def : Decision (safeIds def).
Proof. unfold safeIds. apply _. Defined.

(** ** Vocabulary about texts *)

(** No character of [s] is a space. *)
Fixpoint noSpace (s : string) : Prop :=
  match s with
  | EmptyString => True
  | String c s' => c ≠ " "%char ∧ noSpace s'
  end.

(** The messages that do not depend on the graph. *)
Definition fixedMessages : list string :=
  [Msg.cycle; Msg.designer_cycle; Msg.no_input; Msg.no_output].

(** [needle] occurs in the text [hay]. *)
Definition occursIn (needle hay : string) : Prop :=
  ∃ pre post, hay = pre +:+ needle +:+ post.

(** The handler shows [err] to the user. *)
Definition reportsError (effects : list Effect) (err : string) : Prop :=
  ∃ e, e ∈ effects ∧ occursIn err (effectText e).

(** Being an execution step is decidable. *)
Global Instance startsExecution_dec e : Decision (startsExecution e).
Proof. destruct e; simpl; apply _. Defined.

(** ** Example graphs *)

Module Examples.
Local Open Scope string_scope.

Definition nodeA : Node := mkNode "A" "agent" "A".
Definition nodeB : Node := mkNode "B" "agent" "B".
Definition nodeC : Node := mkNode "C" "action" "C".
Definition nodeS : Node := mkNode "S" "input" "S".

(** Scenario B of the specification: [A -> B], [B -> A]. *)
Definition twoCycle : WorkflowDefinition :=
  mkDefinition [nodeA; nodeB] [mkEdge "e1" "A" "B"; mkEdge "e2" "B" "A"].

(** An entry node in front of the two-cycle: [S -> A -> B -> A]. *)
Definition entryThenCycle : WorkflowDefinition :=
  mkDefinition [nodeS; nodeA; nodeB]
    [mkEdge "e0" "S" "A"; mkEdge "e1" "A" "B"; mkEdge "e2" "B" "A"].

(** A single node without edges. *)
Definition singleNode : WorkflowDefinition := mkDefinition [nodeA] [].

(** [A -> B] and [A -> C]: one entry node, two end nodes. *)
Definition fork : WorkflowDefinition :=
  mkDefinition [nodeA; nodeB; nodeC] [mkEdge "e1" "A" "B"; mkEdge "e2" "A" "C"].

(** [S -> A] next to the detached cycle [B -> C -> B]. *)
Definition detachedCycle : WorkflowDefinition :=
  mkDefinition [nodeS; nodeA; nodeB; nodeC]
    [mkEdge "e0" "S" "A"; mkEdge "e1" "B" "C"; mkEdge "e2" "C" "B"].

(** The workflow of [loadWorkflow] in workflow-designer.tsx:
    input [1] -> agent [2] -> action [3] -> output [4]. *)
Definition mockWorkflow : WorkflowDefinition :=
  mkDefinition
    [mkNode "1" "input" "Input"; mkNode "2" "agent" "Content Writer";
     mkNode "3" "action" "Publish Content"; mkNode "4" "output" "Output"]
    [mkEdge "e1-2" "1" "2"; mkEdge "e2-3" "2" "3"; mkEdge "e3-4" "3" "4"].

(** [A -> B], both nodes of type [agent]. *)
Definition chain : WorkflowDefinition :=
  mkDefinition [nodeA; nodeB] [mkEdge "e1" "A" "B"].

(** A node with an edge to itself. *)
Definition selfLoop : WorkflowDefinition :=
  mkDefinition [nodeA] [mkEdge "e1" "A" "A"].

(** Two nodes are dropped on the canvas and then connected. *)
Definition twoNodesConnected : list Editor.Op :=
  [Editor.NewNode "agent" 1 1; Editor.NewNode "action" 2 2;
   Editor.Connect "node_1" "node_2"].


(** [A -> B] and an edge from [B] to an id [Z] that no node has. *)
Definition danglingEdge : WorkflowDefinition :=
  mkDefinition [nodeA; nodeB]
    [mkEdge "e1" "A" "B"; mkEdge "e2" "B" "Z"].


(** A single node whose id is the name of a member of [Object.prototype]. *)
Definition inheritedNode : WorkflowDefinition :=
  mkDefinition [mkNode "constructor" "agent" "Constructor"] [].

(** [__proto__ -> A]. *)
Definition inheritedSource : WorkflowDefinition :=
  mkDefinition [mkNode "__proto__" "agent" "Proto"; nodeA]
    [mkEdge "e1" "__proto__" "A"].

End Examples.

(** ** Further handlers of the designer *)

Module DesignerEdit.
Local Open Scope string_scope.

(** [handleNodeClick(event, node)], workflow-designer.tsx l.224-228. *)
Definition handleNodeClick (node : Node) (st : Designer.State) : Designer.State :=
  Designer.mkState (Designer.st_nodes st) (Designer.st_edges st) (Some node) true.

(** [handleAddNode(type)], l.404-425; [now] is the reading of [Date.now()]
    that goes into the id of the node. *)
Definition handleAddNode (type : string) (now : N) (st : Designer.State) : Designer.State :=
  let newNode := mkNode ("node-" +:+ pretty now) type (capitalize type) in
  Designer.mkState (Designer.st_nodes st ++ [newNode]) (Designer.st_edges st)
    (Some newNode) true.

(** [handleNodeTypeChange(newType)], l.254-269: the selected node, with
    its type replaced, is written over every node that carries its id. *)
Definition handleNodeTypeChange (newType : string) (st : Designer.State) : Designer.State :=
  match Designer.selectedNode st with
  | Some selected =>
      let newNode := mkNode (node_id selected) newType (label selected) in
      Designer.mkState
        ((λ node, if decide (node_id node = node_id selected) then newNode else node)
           <$> Designer.st_nodes st)
        (Designer.st_edges st) (Some newNode) (Designer.showPropertiesPanel st)
  | None => st
  end.

(** [validateWorkflow()] reads the [nodes] and [edges] of the component. *)
Definition validate (st : Designer.State) : option (list string) :=
  Designer.validateWorkflow (Designer.st_nodes st) (Designer.st_edges st).

End DesignerEdit.

(** ** Further vocabulary *)

(** No directed cycle at all. *)
Definition acyclic (es : list Edge) : Prop := ∀ c, ¬ onCycle es c.

(** Some edge leaves or enters [x]. *)
Definition touched (es : list Edge) (x : string) : Prop :=
  ∃ e, e ∈ es ∧ (source e = x ∨ target e = x).

(** An id as [handleNewNode] makes it: [node_] followed by a number. *)
Definition generatedId (x : string) : Prop :=
  ∃ n : N, x = ("node_" +:+ pretty n)%string.

(** An edge as [handleConnectNodes] makes it. *)
Definition canonicalEdge (e : Edge) : Prop :=
  edge_id e = ("edge_" +:+ source e +:+ "_" +:+ target e)%string ∧
  generatedId (source e) ∧ generatedId (target e).

(** No character of [s] is an underscore. *)
Fixpoint noUnderscore (s : string) : Prop :=
  match s with
  | EmptyString => True
  | String c s' => c ≠ "_"%char ∧ noUnderscore s'
  end.

(** * Properties *)

Local Close Scope string_scope.

(** ** Dictionary lemmas *)

Section JsObjectFacts.
Context {A : Type}.
Implicit Types (o : JsObject.t A) (k : string).

Lemma get_set_eq o k v : JsObject.getOwn (JsObject.set o k v) k = Some v.
Proof.
  induction o as [|[k' v'] o IH]; simpl.
  - by rewrite decide_True.
  - destruct (decide (k' = k)) as [->|Hne]; simpl.
    + by rewrite decide_True.
    + by rewrite decide_False.
Qed.

Lemma get_set_ne o k k' v :
  k ≠ k' → JsObject.getOwn (JsObject.set o k v) k' = JsObject.getOwn o k'.
Proof.
  intros Hne. induction o as [|[k0 v0] o IH]; simpl.
  - by rewrite decide_False.
  - destruct (decide (k0 = k)) as [->|Hk]; simpl.
    + by rewrite !decide_False.
    + by rewrite IH.
Qed.

Lemma get_alter_eq f o k :
  JsObject.getOwn (JsObject.alter f o k) k = f <$> JsObject.getOwn o k.
Proof.
  induction o as [|[k' v'] o IH]; simpl; [done|].
  destruct (decide (k' = k)) as [->|Hne]; simpl.
  - by rewrite decide_True.
  - by rewrite decide_False.
Qed.

Lemma get_alter_ne f o k k' :
  k ≠ k' → JsObject.getOwn (JsObject.alter f o k) k' = JsObject.getOwn o k'.
Proof.
  intros Hne. induction o as [|[k0 v0] o IH]; simpl; [done|].
  destruct (decide (k0 = k)) as [->|Hk]; simpl.
  - by rewrite !decide_False.
  - by rewrite IH.
Qed.

Lemma get_is_Some o k : is_Some (JsObject.getOwn o k) ↔ k ∈ fst <$> o.
Proof.
  induction o as [|[k' v'] o IH]; simpl.
  - split; [by intros [? ?]|by intros ?%elem_of_nil].
  - rewrite elem_of_cons. destruct (decide (k' = k)) as [->|Hne].
    + split; [by left|by eauto].
    + rewrite IH. naive_solver.
Qed.

Lemma get_Some_elem o k v : JsObject.getOwn o k = Some v → (k, v) ∈ o.
Proof.
  induction o as [|[k' v'] o IH]; simpl; [done|].
  destruct (decide (k' = k)) as [->|Hne].
  - intros [= ->]. by left.
  - intros ?. right. auto.
Qed.

(** [for ... in] enumerates exactly the own keys. *)
Lemma elem_of_keys o k : k ∈ JsObject.keys o ↔ is_Some (JsObject.getOwn o k).
Proof.
  rewrite get_is_Some. unfold JsObject.keys.
  rewrite elem_of_app, merge_sort_Permutation.
  unfold JsObject.index_keys, JsObject.string_keys.
  rewrite list_elem_of_fmap, list_elem_of_filter. split.
  - intros [([n k'] & -> & Hin)|[_ ?]]; [|done].
    apply list_elem_of_omap in Hin as (k0 & Hk0 & Heq).
    destruct (JsObject.array_index k0); simplify_eq/=. done.
  - intros Hin. destruct (JsObject.array_index k) as [n|] eqn:Hidx.
    + left. exists (n, k). split; [done|].
      apply list_elem_of_omap. exists k. by rewrite Hidx.
    + by right.
Qed.
End JsObjectFacts.

(** ** Property lookup *)

Lemma get_Own {A} (o : JsObject.t A) k v :
  JsObject.get o k = JsObject.Own v ↔ JsObject.getOwn o k = Some v.
Proof.
  unfold JsObject.get. destruct (JsObject.getOwn o k); [naive_solver|].
  by case_decide.
Qed.

Lemma get_Inherited {A} (o : JsObject.t A) k :
  JsObject.get o k = JsObject.Inherited ↔
  JsObject.getOwn o k = None ∧ k ∈ JsObject.prototypeNames.
Proof.
  unfold JsObject.get. destruct (JsObject.getOwn o k); [naive_solver|].
  case_decide; naive_solver.
Qed.

Lemma get_Undefined {A} (o : JsObject.t A) k :
  JsObject.get o k = JsObject.Undefined ↔
  JsObject.getOwn o k = None ∧ k ∉ JsObject.prototypeNames.
Proof.
  unfold JsObject.get. destruct (JsObject.getOwn o k); [naive_solver|].
  case_decide; naive_solver.
Qed.

(** A name that is not inherited is looked up among the own properties. *)
Lemma get_safe {A} (o : JsObject.t A) k :
  safeId k →
  JsObject.get o k =
    match JsObject.getOwn o k with
    | Some v => JsObject.Own v
    | None => JsObject.Undefined
    end.
Proof.
  intros Hk. unfold JsObject.get. destruct (JsObject.getOwn o k); [done|].
  by rewrite decide_False.
Qed.

(** The loop over the neighbours throws exactly on an inherited name, and
    otherwise runs over the stored array. *)
Lemma neighborsOf_None graph n : neighborsOf graph n = None ↔ inheritedIn graph n.
Proof.
  unfold neighborsOf, inheritedIn.
  destruct (JsObject.get graph n); naive_solver.
Qed.

Lemma neighborsOf_Some graph n ns :
  neighborsOf graph n = Some ns → ns = storedNeighbors graph n.
Proof.
  unfold neighborsOf, storedNeighbors.
  destruct (JsObject.get graph n) as [v| |] eqn:Hget; [|done|].
  - apply get_Own in Hget. rewrite Hget. by intros [= ->].
  - apply get_Undefined in Hget as [-> _]. by intros [= ->].
Qed.

Lemma neighborsOf_cases graph n :
  (neighborsOf graph n = Some (storedNeighbors graph n) ∧ ¬ inheritedIn graph n) ∨
  (neighborsOf graph n = None ∧ inheritedIn graph n).
Proof.
  destruct (neighborsOf graph n) as [ns|] eqn:Hn.
  - left. rewrite (neighborsOf_Some _ _ _ Hn). split; [done|].
    intros Hi%neighborsOf_None. congruence.
  - right. split; [done|]. by apply neighborsOf_None.
Qed.

(** ** The adjacency object represents the edge relation *)

Lemma addAdjacency_None graph edge :
  addAdjacency graph edge = None ↔ inheritedIn graph (source edge).
Proof.
  unfold addAdjacency, inheritedIn.
  destruct (JsObject.get graph (source edge)); naive_solver.
Qed.

Lemma addAdjacency_get graph edge graph' n :
  addAdjacency graph edge = Some graph' →
  JsObject.getOwn graph' n =
    if decide (source edge = n)
    then Some (storedNeighbors graph n ++ [target edge])
    else JsObject.getOwn graph n.
Proof.
  unfold addAdjacency, storedNeighbors.
  destruct (JsObject.get graph (source edge)) as [v| |] eqn:Hget; [|done|];
    intros [= <-]; destruct (decide (source edge = n)) as [<-|Hne].
  - apply get_Own in Hget. by rewrite get_alter_eq, Hget.
  - by rewrite get_alter_ne.
  - apply get_Undefined in Hget as [Hget _].
    by rewrite get_alter_eq, get_set_eq, Hget.
  - by rewrite get_alter_ne, get_set_ne.
Qed.

Lemma buildAdjacency_snoc es e :
  buildAdjacency (es ++ [e]) = graph ← buildAdjacency es; addAdjacency graph e.
Proof. unfold buildAdjacency. by rewrite foldl_app. Qed.

Lemma buildAdjacency_snoc_Some es e graph :
  buildAdjacency (es ++ [e]) = Some graph →
  ∃ graph0, buildAdjacency es = Some graph0 ∧ addAdjacency graph0 e = Some graph.
Proof.
  rewrite buildAdjacency_snoc.
  destruct (buildAdjacency es) as [graph0|]; [|done]. simpl. eauto.
Qed.

Lemma buildAdjacency_get es graph n :
  buildAdjacency es = Some graph →
  JsObject.getOwn graph n =
    match filter (λ e, source e = n) es with
    | [] => None
    | out => Some (target <$> out)
    end.
Proof.
  revert graph. induction es as [|e es IH] using rev_ind; intros graph Hb.
  - by injection Hb as <-.
  - apply buildAdjacency_snoc_Some in Hb as (graph0 & Hb0 & Hadd).
    rewrite (addAdjacency_get _ _ _ n Hadd), filter_app.
    unfold storedNeighbors. rewrite (IH _ Hb0).
    rewrite filter_cons, filter_nil.
    destruct (decide (source e = n)) as [Heq|Hne]; simpl.
    + destruct (filter _ es) as [|e0 out]; simpl; [done|].
      by rewrite fmap_app.
    + by rewrite app_nil_r.
Qed.

Lemma storedNeighbors_build es graph n :
  buildAdjacency es = Some graph →
  storedNeighbors graph n = target <$> filter (λ e, source e = n) es.
Proof.
  intros Hb. unfold storedNeighbors. rewrite (buildAdjacency_get _ _ n Hb).
  by destruct (filter _ es).
Qed.

Lemma elem_of_storedNeighbors_build es graph u v :
  buildAdjacency es = Some graph →
  v ∈ storedNeighbors graph u ↔ edgeRel es u v.
Proof.
  intros Hb. rewrite (storedNeighbors_build _ _ _ Hb), list_elem_of_fmap.
  unfold edgeRel. setoid_rewrite list_elem_of_filter. naive_solver.
Qed.

(** The keys of the adjacency object are the sources of the edges. *)
Lemma buildAdjacency_is_key es graph k :
  buildAdjacency es = Some graph →
  is_Some (JsObject.getOwn graph k) ↔ ∃ e, e ∈ es ∧ source e = k.
Proof.
  intros Hb. rewrite (buildAdjacency_get _ _ k Hb). split.
  - destruct (filter _ es) as [|e out] eqn:Hf; [by intros [? ?]|].
    intros _. exists e.
    assert (e ∈ filter (λ e, source e = k) es) as Hin by (rewrite Hf; left).
    by apply list_elem_of_filter in Hin as [? ?].
  - intros (e & Hin & Hs).
    assert (e ∈ filter (λ e, source e = k) es) as Hin'
      by (by apply list_elem_of_filter).
    destruct (filter _ es); [by apply elem_of_nil in Hin'|eauto].
Qed.

(** The object is only built when no source is an inherited name ... *)
Lemma buildAdjacency_sources es graph :
  buildAdjacency es = Some graph → ∀ e, e ∈ es → safeId (source e).
Proof.
  revert graph. induction es as [|e es IH] using rev_ind; intros graph Hb.
  - by intros e ?%elem_of_nil.
  - apply buildAdjacency_snoc_Some in Hb as (graph0 & Hb0 & Hadd).
    intros e' [He'| ->%list_elem_of_singleton]%elem_of_app; [by eapply IH|].
    intros Hname.
    assert (addAdjacency graph0 e = None); [|congruence].
    apply addAdjacency_None, get_Inherited. split; [|done].
    apply eq_None_not_Some.
    intros (e0 & He0 & Hs)%(buildAdjacency_is_key _ _ _ Hb0).
    apply (IH _ Hb0 e0 He0). by rewrite Hs.
Qed.

(** ... so that the names it inherits are never shadowed. *)
Lemma inheritedIn_build es graph x :
  buildAdjacency es = Some graph →
  inheritedIn graph x ↔ x ∈ JsObject.prototypeNames.
Proof.
  intros Hb. unfold inheritedIn. rewrite get_Inherited. split; [by intros [_ ?]|].
  intros Hx. split; [|done]. apply eq_None_not_Some.
  intros (e & He & Hs)%(buildAdjacency_is_key _ _ _ Hb).
  apply (buildAdjacency_sources _ _ Hb e He). by rewrite Hs.
Qed.

(** ... and it is built whenever no source is one. *)
Lemma buildAdjacency_Some es :
  (∀ e, e ∈ es → safeId (source e)) → ∃ graph, buildAdjacency es = Some graph.
Proof.
  induction es as [|e es IH] using rev_ind; intros Hsafe; [by eexists|].
  destruct IH as [graph0 Hb0].
  { intros e' He'. apply Hsafe, elem_of_app. by left. }
  rewrite buildAdjacency_snoc, Hb0. simpl.
  destruct (addAdjacency graph0 e) as [graph|] eqn:Hadd; [by eexists|].
  apply addAdjacency_None, (inheritedIn_build _ _ _ Hb0) in Hadd.
  destruct (Hsafe e); [|done]. apply elem_of_app. right. by left.
Qed.

Lemma buildAdjacency_None es :
  buildAdjacency es = None ↔ ∃ e, e ∈ es ∧ source e ∈ JsObject.prototypeNames.
Proof.
  split.
  - intros Hnone.
    destruct (decide (Exists (λ e, source e ∈ JsObject.prototypeNames) es))
      as [Hex|Hno]; [by apply Exists_exists in Hex|].
    destruct (buildAdjacency_Some es) as [graph Hb]; [|congruence].
    intros e He Hname. apply Hno, Exists_exists. eauto.
  - intros (e & He & Hname).
    destruct (buildAdjacency es) as [graph|] eqn:Hb; [|done].
    by destruct (buildAdjacency_sources _ _ Hb e He).
Qed.

Lemma fst_alter {A} (f : A → A) (o : JsObject.t A) k :
  fst <$> JsObject.alter f o k = fst <$> o.
Proof.
  induction o as [|[k' v] o IH]; [done|].
  cbn [JsObject.alter]. destruct (decide (k' = k)); [done|].
  rewrite !fmap_cons. by rewrite IH.
Qed.

Lemma fst_set {A} (o : JsObject.t A) k v :
  fst <$> JsObject.set o k v =
    if decide (k ∈ fst <$> o) then fst <$> o else (fst <$> o) ++ [k].
Proof.
  induction o as [|[k' v'] o IH]; cbn [JsObject.set].
  - rewrite decide_False; [done|]. by intros ?%elem_of_nil.
  - rewrite (fmap_cons fst (k', v') o). cbn [fst].
    destruct (decide (k' = k)) as [->|Hne].
    + rewrite decide_True; [done|]. by left.
    + rewrite fmap_cons, IH. cbn [fst].
      destruct (decide (k ∈ fst <$> o)) as [Hin|Hnin].
      * rewrite decide_True; [done|]. by right.
      * rewrite decide_False; [done|].
        intros [?|?]%elem_of_cons; [congruence|done].
Qed.

Lemma fst_addAdjacency graph e graph' :
  addAdjacency graph e = Some graph' →
  fst <$> graph' =
    if decide (source e ∈ fst <$> graph) then fst <$> graph
    else (fst <$> graph) ++ [source e].
Proof.
  unfold addAdjacency.
  destruct (JsObject.get graph (source e)) as [v| |] eqn:Hget; [|done|];
    intros [= <-]; rewrite fst_alter.
  - apply get_Own in Hget. rewrite decide_True; [done|].
    apply get_is_Some. by rewrite Hget.
  - by rewrite fst_set.
Qed.

(** No key is stored twice. *)
Lemma buildAdjacency_keys_NoDup es graph :
  buildAdjacency es = Some graph → NoDup (fst <$> graph).
Proof.
  revert graph. induction es as [|e es IH] using rev_ind; intros graph Hb.
  - injection Hb as <-. apply NoDup_nil_2.
  - apply buildAdjacency_snoc_Some in Hb as (graph0 & Hb0 & Hadd).
    rewrite (fst_addAdjacency _ _ _ Hadd).
    destruct (decide (source e ∈ fst <$> graph0)) as [Hin|Hnin]; [by eapply IH|].
    apply NoDup_app. split_and!; [by eapply IH| |apply NoDup_singleton].
    intros x Hx ->%list_elem_of_singleton. done.
Qed.

Lemma getOwn_of_elem {A} (o : JsObject.t A) k v :
  NoDup (fst <$> o) → (k, v) ∈ o → JsObject.getOwn o k = Some v.
Proof.
  induction o as [|[k' v'] o IH]; [by intros _ ?%elem_of_nil|].
  rewrite fmap_cons, NoDup_cons. cbn [fst JsObject.getOwn].
  intros [Hnot Hnd] [[= -> ->]|Hin]%elem_of_cons.
  - by rewrite decide_True.
  - rewrite decide_False; [by apply IH|].
    intros ->. apply Hnot. by apply (list_elem_of_fmap_2 fst _ (k, v)).
Qed.

(** Every target stored in the object is the target of an edge. *)
Lemma stored_targets_build es graph x :
  buildAdjacency es = Some graph →
  x ∈ mjoin (snd <$> graph) → ∃ e, e ∈ es ∧ target e = x.
Proof.
  intros Hb (vs & Hx & Hvs)%list_elem_of_join.
  apply list_elem_of_fmap in Hvs as ([u vs'] & -> & Huvs). simpl in Hx.
  assert (succRel graph u x) as Hux.
  { simpl. unfold storedNeighbors.
    by rewrite (getOwn_of_elem _ _ _ (buildAdjacency_keys_NoDup _ _ Hb) Huvs). }
  apply (elem_of_storedNeighbors_build _ _ _ _ Hb) in Hux as (e & He & _ & <-).
  eauto.
Qed.

Lemma safeEdges_sources es e : safeEdges es → e ∈ es → safeId (source e).
Proof. intros Hsafe He. by apply (proj1 (Forall_forall _ _) Hsafe e He). Qed.

Lemma safeEdges_targets es e : safeEdges es → e ∈ es → safeId (target e).
Proof. intros Hsafe He. by apply (proj1 (Forall_forall _ _) Hsafe e He). Qed.

Lemma safeIds_nodes def n : safeIds def → n ∈ nodes def → safeId (node_id n).
Proof. intros [Hsafe _] Hn. by apply (proj1 (Forall_forall _ _) Hsafe n Hn). Qed.

(** ** Correctness of the depth-first search *)

Section Dfs.
Variable graph : JsObject.t (list string).

(** A finite set that holds every id the search can be called on. *)
Variable U : gset string.
Hypothesis U_closed : ∀ u v, succRel graph u v → v ∈ U.

Lemma finished_closed st u v :
  dfsInv graph st → finished st u → rtc (succRel graph) u v → finished st v.
Proof.
  intros [_ Hinv] Hu Hreach. induction Hreach as [|x y z Hxy _ IH]; [done|].
  apply IH. by apply (Hinv x).
Qed.

Lemma finished_mono st st' u :
  visited st ⊆ visited st' → recStack st' ≡ recStack st →
  finished st u → finished st' u.
Proof. unfold finished. set_solver. Qed.

Lemma dfsInv_enter n st :
  n ∉ visited st → dfsInv graph st → dfsInv graph (enter n st).
Proof.
  intros Hn [Hsub Hinv]. split; [simpl; set_solver|].
  intros u [Hu1 Hu2]. simpl in *.
  assert (finished st u) as Hu by (unfold finished; set_solver).
  destruct (Hinv u Hu) as [Hsucc Hacyc]. split; [|done].
  intros v Hv. destruct (Hsucc v Hv) as [Hv1 Hv2].
  unfold finished; simpl. set_solver.
Qed.

Lemma dfsInv_leave u st :
  u ∈ recStack st → dfsInv graph st →
  (∀ v, succRel graph u v → finished st v) →
  dfsInv graph (leave u st).
Proof.
  intros Hu [Hsub Hinv] Hsucc. split; [simpl; set_solver|].
  assert (∀ w, finished st w → finished (leave u st) w) as Hmono.
  { unfold finished; simpl. set_solver. }
  intros w [Hw1 Hw2]. simpl in *.
  destruct (decide (w = u)) as [->|Hne].
  - split; [intros v Hv; by apply Hmono, Hsucc|].
    intros Hcyc. inversion Hcyc as [? ? Huv|? v ? Huv Hvu]; subst.
    + destruct (Hsucc u Huv) as [_ ?]. done.
    + assert (finished st u) as [_ ?]; [|done].
      eapply finished_closed; [by split|by apply Hsucc|by apply tc_rtc].
  - assert (finished st w) as Hw by (unfold finished; set_solver).
    destruct (Hinv w Hw) as [Hs Hacyc]. split; [|done].
    intros v Hv. by apply Hmono, Hs.
Qed.

(** The loop over the neighbours of [u]. *)
Lemma forNeighbors_spec k rec u :
  goodCall graph U k rec →
  ∀ ns st,
    u ∈ recStack st → size (U ∖ visited st) ≤ k →
    dfsInv graph st → onPath graph st u →
    (∀ v, v ∈ ns → succRel graph u v) →
    (∀ v, succRel graph u v → v ∈ ns ∨ finished st v) →
    (∃ b st', forNeighbors rec u ns st = Some (b, st') ∧
       visited st ⊆ visited st' ∧
       if b then cycleFrom graph u
       else recStack st' ≡ recStack st ∖ {[u]} ∧ dfsInv graph st') ∨
    (forNeighbors rec u ns st = None ∧ inheritedAmong graph U).
Proof.
  intros Hrec ns. induction ns as [|n rest IH]; intros st Hu Hsize Hinv Hpath Hns Hdone.
  - left. exists false, (leave u st). simpl. split_and!; [done..|].
    apply dfsInv_leave; [done..|].
    intros v Hv. destruct (Hdone v Hv) as [?%elem_of_nil|?]; done.
  - simpl. assert (succRel graph u n) as Hun by (apply Hns; left).
    destruct (decide (n ∈ visited st)) as [Hvis|Hvis].
    + destruct (decide (n ∈ recStack st)) as [Hrs|Hrs].
      * left. exists true, st. split_and!; [done..|].
        exists n. split; [by apply rtc_once|].
        eapply tc_rtc_l; [by apply Hpath|by apply tc_once].
      * apply IH; [done..| |].
        { intros v Hv. apply Hns. by right. }
        intros v Hv. destruct (Hdone v Hv) as [[->|?]%elem_of_cons|?]; auto.
        by right.
    + assert (onPath graph st n) as Hpath'.
      { intros r Hr. eapply rtc_r; [by apply Hpath|done]. }
      assert (n ∈ U) as HnU by eauto.
      destruct (Hrec n st HnU Hvis Hsize Hinv Hpath')
        as [(b & st' & -> & Hmono & Hpost)|[-> Hthrow]]; [|by right].
      destruct b.
      * left. exists true, st'. split_and!; [done..|].
        destruct Hpost as (c & Hnc & Hcc). exists c. split; [|done].
        by eapply rtc_l.
      * destruct Hpost as (Hrs & Hnv & Hinv').
        destruct Hinv as [Hsub Hinv].
        rewrite decide_False by set_solver.
        destruct (IH st') as [(b & st'' & Heq & Hmono' & Hpost')|[Heq Hthrow]].
        { set_solver. }
        { etrans; [apply subseteq_size|done]. set_solver. }
        { done. }
        { intros r Hr. apply Hpath. set_solver. }
        { intros v Hv. apply Hns. by right. }
        { intros v Hv. destruct (Hdone v Hv) as [[->|?]%elem_of_cons|Hfin].
          - right. split; set_solver.
          - by left.
          - right. by eapply finished_mono. }
        -- left. exists b, st''. split_and!; [done|set_solver|].
           destruct b; [done|]. destruct Hpost' as [? ?]. split; [set_solver|done].
        -- by right.
Qed.

(** A recursive function whose body, on an unvisited node, enters the
    node and runs the neighbour loop, which throws on an inherited name. *)
Variable F : nat → string → DfsState → DfsResult.
Hypothesis F_step : ∀ fuel n st,
  n ∉ visited st → recStack st ⊆ visited st →
  F (S fuel) n st =
    match neighborsOf graph n with
    | None => None
    | Some neighbors => forNeighbors (F fuel) n neighbors (enter n st)
    end.

Lemma call_spec fuel : ∀ k, k < fuel → goodCall graph U k (F fuel).
Proof.
  induction fuel as [|fuel IH]; intros k Hk; [lia|].
  intros n st HnU Hn Hsize Hinv Hpath.
  rewrite F_step by (done || apply Hinv).
  destruct (neighborsOf_cases graph n) as [[-> _]|[-> Hinh]];
    [|right; split; [done|by exists n]].
  assert (size (U ∖ visited (enter n st)) < size (U ∖ visited st)) as Hlt.
  { apply subset_size. simpl. set_solver. }
  destruct (forNeighbors_spec (k - 1) (F fuel) n) with
    (ns := storedNeighbors graph n) (st := enter n st)
    as [(b & st' & Heq & Hmono & Hpost)|[Heq Hthrow]].
  - apply IH. lia.
  - simpl. set_solver.
  - lia.
  - by apply dfsInv_enter.
  - intros r Hr. simpl in Hr.
    apply elem_of_union in Hr as [->%elem_of_singleton|Hr]; [done|by apply Hpath].
  - done.
  - intros v Hv. by left.
  - left. exists b, st'. split; [done|]. split; [simpl in *; set_solver|].
    destruct b; [done|]. destruct Hpost as [Hrs Hinv'].
    destruct Hinv as [Hsub _]. simpl in *. split_and!; [set_solver|set_solver|done].
  - by right.
Qed.
End Dfs.

Lemma size_list_to_set_le (l : list string) :
  size (list_to_set l : gset string) ≤ List.length l.
Proof.
  induction l as [|x l IH].
  - rewrite list_to_set_nil, size_empty. simpl. lia.
  - rewrite list_to_set_cons, size_union_alt, size_singleton. simpl.
    assert (size (list_to_set l ∖ {[x]} : gset string) ≤ size (list_to_set l : gset string))
      by (apply subseteq_size; set_solver).
    lia.
Qed.

Lemma dfsInv_init graph : dfsInv graph dfs_init.
Proof. split; [done|]. intros u [Hu _]. simpl in Hu. set_solver. Qed.

(** Once the stack is empty, no visited node reaches a cycle. *)
Lemma visited_no_cycle graph st n :
  dfsInv graph st → recStack st ≡ ∅ → n ∈ visited st → ¬ cycleFrom graph n.
Proof.
  intros Hinv Hrs Hn (c & Hnc & Hcc).
  assert (finished st c) as Hc.
  { eapply finished_closed; [done| |done]. split; set_solver. }
  destruct Hinv as [_ Hinv]. by destruct (Hinv c Hc).
Qed.

(** *** WorkflowBuilder.tsx and page.tsx *)

Lemma hasCycle_step graph fuel n st :
  n ∉ visited st → recStack st ⊆ visited st →
  Frontend.hasCycle graph (S fuel) n st =
    match neighborsOf graph n with
    | None => None
    | Some neighbors =>
        forNeighbors (Frontend.hasCycle graph fuel) n neighbors (enter n st)
    end.
Proof. intros Hn _. simpl. by rewrite decide_False. Qed.

Lemma forNodes_spec graph (U : gset string) fuel :
  (∀ u v, succRel graph u v → v ∈ U) →
  size U < fuel →
  ∀ ns st,
    (∀ n, n ∈ ns → node_id n ∈ U) →
    recStack st ≡ ∅ → dfsInv graph st →
    (∃ b, Frontend.forNodes graph fuel ns st = Some b ∧
       if b then ∃ n, n ∈ ns ∧ cycleFrom graph (node_id n)
       else ∃ st', visited st ⊆ visited st' ∧
                   (∀ n, n ∈ ns → node_id n ∈ visited st') ∧
                   recStack st' ≡ ∅ ∧ dfsInv graph st') ∨
    (Frontend.forNodes graph fuel ns st = None ∧ inheritedAmong graph U).
Proof.
  intros Hclosed Hfuel ns. induction ns as [|node rest IH]; intros st HU Hrs Hinv.
  - left. exists false. split; [done|]. exists st. split_and!; [done| |done..].
    by intros n ?%elem_of_nil.
  - simpl. destruct fuel as [|fuel]; [lia|].
    destruct (decide (node_id node ∈ visited st)) as [Hvis|Hvis].
    + (* already visited: the call only deletes it from the empty stack *)
      simpl. rewrite decide_True by done.
      destruct (IH (leave (node_id node) st)) as [(b & Heq & Hpost)|[Heq Hthrow]].
      { intros n Hn. apply HU. by right. }
      { simpl. set_solver. }
      { destruct Hinv as [Hsub Hinv]. split; [simpl; set_solver|].
        intros u [Hu1 Hu2]. simpl in *.
        assert (finished st u) as Hu by (split; set_solver).
        destruct (Hinv u Hu) as [Hs Hacyc]. split; [|done].
        intros v Hv. destruct (Hs v Hv). split; simpl; set_solver. }
      * left. exists b. split; [done|]. destruct b.
        -- destruct Hpost as (n & Hn & Hcyc). exists n. split; [by right|done].
        -- destruct Hpost as (st' & Hmono & Hall & Hrs' & Hinv').
           exists st'. simpl in *. split_and!; [done| |done..].
           intros n [->|Hn]%elem_of_cons; [set_solver|by apply Hall].
      * by right.
    + destruct (call_spec graph U Hclosed (Frontend.hasCycle graph)
                  (hasCycle_step graph) (S fuel) (size U) Hfuel (node_id node) st)
        as [(b & st1 & Heq & Hmono & Hpost)|[Heq Hthrow]].
      { apply HU. by left. }
      { done. }
      { apply subseteq_size. set_solver. }
      { done. }
      { intros r Hr. set_solver. }
      2: { right. by rewrite Heq. }
      rewrite Heq. destruct b.
      * left. exists true. split; [done|]. exists node. split; [by left|done].
      * destruct Hpost as (Hrs1 & Hn1 & Hinv1).
        destruct (IH st1) as [(b & Heq' & Hpost')|[Heq' Hthrow]].
        { intros n Hn. apply HU. by right. }
        { set_solver. }
        { done. }
        2: { by right. }
        left. exists b. split; [done|]. destruct b.
        -- destruct Hpost' as (n & Hn & Hcyc). exists n. split; [by right|done].
        -- destruct Hpost' as (st' & Hmono' & Hall & Hrs' & Hinv').
           exists st'. split_and!; [set_solver| |done..].
           intros n [->|Hn]%elem_of_cons; [set_solver|by apply Hall].
Qed.

Lemma succRel_build_rtc es graph u v :
  buildAdjacency es = Some graph →
  rtc (succRel graph) u v ↔ rtc (edgeRel es) u v.
Proof.
  intros Hb. split; induction 1 as [|x y z Hxy _ IH]; try done;
    (eapply rtc_l; [|exact IH]); by apply (elem_of_storedNeighbors_build _ _ _ _ Hb).
Qed.

Lemma succRel_build_tc es graph u v :
  buildAdjacency es = Some graph →
  tc (succRel graph) u v ↔ tc (edgeRel es) u v.
Proof.
  intros Hb. split; induction 1 as [x y Hxy|x y z Hxy _ IH];
    try (apply tc_once; by apply (elem_of_storedNeighbors_build _ _ _ _ Hb));
    (eapply tc_l; [|exact IH]); by apply (elem_of_storedNeighbors_build _ _ _ _ Hb).
Qed.

Lemma cycleFrom_build es graph n :
  buildAdjacency es = Some graph →
  cycleFrom graph n ↔ ∃ c, rtc (edgeRel es) n c ∧ onCycle es c.
Proof.
  intros Hb. unfold cycleFrom, onCycle.
  setoid_rewrite (succRel_build_rtc _ _ _ _ Hb).
  by setoid_rewrite (succRel_build_tc _ _ _ _ Hb).
Qed.

(** [detectCycle(nodes, edges)] returns unless it meets an id that is an
    inherited name, and it returns [true] exactly when some node of the
    array reaches a directed cycle. *)
Lemma frontend_detectCycle_spec ns es :
  (∃ b, Frontend.detectCycle ns es = Some b ∧
     (b = true ↔
      ∃ n c, n ∈ ns ∧ rtc (edgeRel es) (node_id n) c ∧ onCycle es c)) ∨
  (Frontend.detectCycle ns es = None ∧ ¬ safeIds (mkDefinition ns es)).
Proof.
  unfold Frontend.detectCycle.
  destruct (buildAdjacency es) as [graph|] eqn:Hb; simpl.
  2: { right. split; [done|]. apply buildAdjacency_None in Hb as (e & He & Hname).
       intros [_ Hsafe]. by destruct (safeEdges_sources _ _ Hsafe He). }
  set (U := list_to_set ((node_id <$> ns) ++ (target <$> es)) : gset string).
  destruct (forNodes_spec graph U (dfsFuel (node_id <$> ns) es))
    with (ns := ns) (st := dfs_init) as [(b & Heq & Hpost)|[Heq Hthrow]].
  - intros u v Huv.
    apply (elem_of_storedNeighbors_build _ _ _ _ Hb) in Huv as (e & He & _ & <-).
    subst U. rewrite elem_of_list_to_set, elem_of_app. right.
    by apply list_elem_of_fmap_2.
  - unfold dfsFuel. pose proof (size_list_to_set_le ((node_id <$> ns) ++ (target <$> es))) as Hle.
    rewrite length_app, !length_fmap in Hle. rewrite length_fmap. subst U. lia.
  - intros n Hn. subst U. rewrite elem_of_list_to_set, elem_of_app. left.
    by apply list_elem_of_fmap_2.
  - done.
  - apply dfsInv_init.
  - left. exists b. split; [done|]. destruct b.
    + split; [|done]. intros _. destruct Hpost as (n & Hn & Hcyc).
      apply (cycleFrom_build _ _ _ Hb) in Hcyc as (c & ? & ?). eauto.
    + split; [done|]. intros (n & c & Hn & Hnc & Hcc). exfalso.
      destruct Hpost as (st' & _ & Hall & Hrs & Hinv).
      eapply visited_no_cycle; [done..|by apply Hall|].
      apply (cycleFrom_build _ _ _ Hb). eauto.
  - right. split; [done|]. destruct Hthrow as (x & Hx & Hinh).
    apply (inheritedIn_build _ _ _ Hb) in Hinh. intros [Hnodes Hedges].
    subst U. apply elem_of_list_to_set, elem_of_app in Hx
      as [(n & -> & Hn)%list_elem_of_fmap|(e & -> & He)%list_elem_of_fmap].
    + by apply (proj1 (Forall_forall _ _) Hnodes n Hn).
    + by destruct (safeEdges_targets _ _ Hedges He).
Qed.

(** With ids that are not inherited names the search returns. *)
Lemma frontend_detectCycle_safe ns es :
  safeIds (mkDefinition ns es) →
  ∃ b, Frontend.detectCycle ns es = Some b ∧
    (b = true ↔
     ∃ n c, n ∈ ns ∧ rtc (edgeRel es) (node_id n) c ∧ onCycle es c).
Proof.
  intros Hsafe. by destruct (frontend_detectCycle_spec ns es) as [?|[_ ?]].
Qed.

(** What the search returns is right, whatever the ids. *)
Lemma frontend_detectCycle_sound ns es b :
  Frontend.detectCycle ns es = Some b →
  (b = true ↔
   ∃ n c, n ∈ ns ∧ rtc (edgeRel es) (node_id n) c ∧ onCycle es c).
Proof.
  intros Heq.
  destruct (frontend_detectCycle_spec ns es) as [(b' & Heq' & Hb')|[Hnone _]];
    [|congruence].
  rewrite Heq in Heq'. by injection Heq' as <-.
Qed.

(** *** workflow-designer.tsx *)

Lemma dfs_step graph fuel n st :
  n ∉ visited st → recStack st ⊆ visited st →
  Designer.dfs graph (S fuel) n st =
    match neighborsOf graph n with
    | None => None
    | Some neighbors =>
        forNeighbors (Designer.dfs graph fuel) n neighbors (enter n st)
    end.
Proof. intros Hn Hsub. simpl. rewrite decide_False; [done|set_solver]. Qed.

Lemma forKeys_spec graph (U : gset string) fuel :
  (∀ u v, succRel graph u v → v ∈ U) →
  size U < fuel →
  ∀ ks st,
    (∀ k, k ∈ ks → k ∈ U) →
    recStack st ≡ ∅ → dfsInv graph st →
    (∃ b, Designer.forKeys graph fuel ks st = Some b ∧
       if b then ∃ k, k ∈ ks ∧ cycleFrom graph k
       else ∃ st', visited st ⊆ visited st' ∧
                   (∀ k, k ∈ ks → k ∈ visited st') ∧
                   recStack st' ≡ ∅ ∧ dfsInv graph st') ∨
    (Designer.forKeys graph fuel ks st = None ∧ inheritedAmong graph U).
Proof.
  intros Hclosed Hfuel ks. induction ks as [|key rest IH]; intros st HU Hrs Hinv.
  - left. exists false. split; [done|]. exists st. split_and!; [done| |done..].
    by intros n ?%elem_of_nil.
  - simpl. destruct (decide (key ∈ visited st)) as [Hvis|Hvis].
    + destruct (IH st) as [(b & Heq & Hpost)|[Heq Hthrow]]; [|done..| |].
      { intros k Hk. apply HU. by right. }
      * left. exists b. split; [done|]. destruct b.
        -- destruct Hpost as (k & Hk & Hcyc). exists k. split; [by right|done].
        -- destruct Hpost as (st' & Hmono & Hall & Hrs' & Hinv').
           exists st'. split_and!; [done| |done..].
           intros k [->|Hk]%elem_of_cons; [set_solver|by apply Hall].
      * by right.
    + destruct (call_spec graph U Hclosed (Designer.dfs graph)
                  (dfs_step graph) fuel (size U) Hfuel key st)
        as [(b & st1 & Heq & Hmono & Hpost)|[Heq Hthrow]].
      { apply HU. by left. }
      { done. }
      { apply subseteq_size. set_solver. }
      { done. }
      { intros r Hr. set_solver. }
      2: { right. by rewrite Heq. }
      rewrite Heq. destruct b.
      * left. exists true. split; [done|]. exists key. split; [by left|done].
      * destruct Hpost as (Hrs1 & Hn1 & Hinv1).
        destruct (IH st1) as [(b & Heq' & Hpost')|[Heq' Hthrow]].
        { intros k Hk. apply HU. by right. }
        { set_solver. }
        { done. }
        2: { by right. }
        left. exists b. split; [done|]. destruct b.
        -- destruct Hpost' as (k & Hk & Hcyc). exists k. split; [by right|done].
        -- destruct Hpost' as (st' & Hmono' & Hall & Hrs' & Hinv').
           exists st'. split_and!; [set_solver| |done..].
           intros k [->|Hk]%elem_of_cons; [set_solver|by apply Hall].
Qed.

(** The ids that the search of the designer can look up in [graph]: its
    keys and the targets stored in it. *)
Lemma succRel_stored graph u v :
  succRel graph u v → v ∈ mjoin (snd <$> graph).
Proof.
  intros Huv. simpl in Huv. unfold storedNeighbors in Huv.
  destruct (JsObject.getOwn graph u) as [vs|] eqn:Hget; simpl in Huv;
    [|by apply elem_of_nil in Huv].
  apply list_elem_of_join. exists vs. split; [done|].
  apply list_elem_of_fmap. exists (u, vs). split; [done|].
  by apply get_Some_elem.
Qed.

(** The outer loop of [detectCycle(graph)], run over any list [ks] of keys
    of the object: it returns unless a stored target is an inherited name,
    and then it returns [true] exactly when a key of [ks] reaches a
    directed cycle of the stored adjacency. *)
Lemma forKeys_graph_spec graph ks :
  (∀ k, k ∈ ks → is_Some (JsObject.getOwn graph k)) →
  (∃ b, Designer.forKeys graph (Designer.graphFuel graph) ks dfs_init = Some b ∧
     if b then ∃ k, k ∈ ks ∧ cycleFrom graph k
     else ∀ k, k ∈ ks → ¬ cycleFrom graph k) ∨
  (Designer.forKeys graph (Designer.graphFuel graph) ks dfs_init = None ∧
   ∃ x, x ∈ mjoin (snd <$> graph) ∧ inheritedIn graph x).
Proof.
  intros Hks.
  set (U := list_to_set ((fst <$> graph) ++ mjoin (snd <$> graph)) : gset string).
  destruct (forKeys_spec graph U (Designer.graphFuel graph))
    with (ks := ks) (st := dfs_init) as [(b & Heq & Hpost)|[Heq Hthrow]].
  - intros u v Huv%succRel_stored.
    subst U. rewrite elem_of_list_to_set, elem_of_app. by right.
  - unfold Designer.graphFuel.
    pose proof (size_list_to_set_le ((fst <$> graph) ++ mjoin (snd <$> graph))) as Hle.
    rewrite length_app, length_fmap in Hle. subst U. lia.
  - intros k Hk%Hks%get_is_Some. subst U.
    rewrite elem_of_list_to_set, elem_of_app. by left.
  - done.
  - apply dfsInv_init.
  - left. exists b. split; [done|]. destruct b; [done|].
    destruct Hpost as (st' & _ & Hall & Hrs & Hinv).
    intros k Hk. eapply visited_no_cycle; [done..|by apply Hall].
  - right. split; [done|]. destruct Hthrow as (x & Hx & Hinh).
    exists x. split; [|done]. subst U.
    apply elem_of_list_to_set, elem_of_app in Hx as [Hx%get_is_Some|Hx]; [|done].
    apply get_Inherited in Hinh as [Hnone _]. rewrite Hnone in Hx.
    by destruct Hx.
Qed.

Lemma cycle_through_key graph c :
  tc (succRel graph) c c → is_Some (JsObject.getOwn graph c).
Proof.
  intros Hcc.
  inversion Hcc as [? ? Hcv|? v ? Hcv _]; subst; simpl in Hcv;
    unfold storedNeighbors in Hcv;
    (destruct (JsObject.getOwn graph c); [by eauto|by apply elem_of_nil in Hcv]).
Qed.

(** [detectCycle(graph)] returns unless a stored target is an inherited
    name, and it returns [true] exactly when the stored adjacency has a
    directed cycle. *)
Lemma designer_detectCycle_graph_spec graph :
  (∃ b, Designer.detectCycle graph = Some b ∧
     (b = true ↔ ∃ c, tc (succRel graph) c c)) ∨
  (Designer.detectCycle graph = None ∧
   ∃ x, x ∈ mjoin (snd <$> graph) ∧ inheritedIn graph x).
Proof.
  unfold Designer.detectCycle.
  destruct (forKeys_graph_spec graph (JsObject.keys graph))
    as [(b & Heq & Hpost)|?]; [by intros k ?%elem_of_keys| |by right].
  left. exists b. split; [done|]. destruct b.
  - split; [|done]. intros _. destruct Hpost as (k & _ & c & _ & Hcc). eauto.
  - split; [done|]. intros (c & Hcc). exfalso.
    apply (Hpost c); [by apply elem_of_keys, cycle_through_key|by exists c].
Qed.

(** The cycle check of the designer's [validateWorkflow]: the adjacency
    list is built and searched. *)
Lemma designer_detectCycle_spec es :
  (∃ b, buildAdjacency es ≫= Designer.detectCycle = Some b ∧
     (b = true ↔ ∃ c, onCycle es c)) ∨
  (buildAdjacency es ≫= Designer.detectCycle = None ∧ ¬ safeEdges es).
Proof.
  destruct (buildAdjacency es) as [graph|] eqn:Hb; simpl.
  2: { right. split; [done|]. apply buildAdjacency_None in Hb as (e & He & Hname).
       intros Hsafe. by destruct (safeEdges_sources _ _ Hsafe He). }
  destruct (designer_detectCycle_graph_spec graph)
    as [(b & Heq & Hcyc)|[Heq (x & Hx & Hinh)]].
  - left. exists b. split; [done|]. rewrite Hcyc. unfold onCycle.
    by setoid_rewrite (succRel_build_tc _ _ _ _ Hb).
  - right. split; [done|]. intros Hsafe.
    apply (inheritedIn_build _ _ _ Hb) in Hinh.
    apply (stored_targets_build _ _ _ Hb) in Hx as (e & He & <-).
    by destruct (safeEdges_targets _ _ Hsafe He).
Qed.

Lemma designer_detectCycle_safe es :
  safeEdges es →
  ∃ b, buildAdjacency es ≫= Designer.detectCycle = Some b ∧
    (b = true ↔ ∃ c, onCycle es c).
Proof.
  intros Hsafe. by destruct (designer_detectCycle_spec es) as [?|[_ ?]].
Qed.

Lemma designer_detectCycle_sound es b :
  buildAdjacency es ≫= Designer.detectCycle = Some b →
  (b = true ↔ ∃ c, onCycle es c).
Proof.
  intros Heq.
  destruct (designer_detectCycle_spec es) as [(b' & Heq' & Hb')|[Hnone _]];
    [|congruence].
  rewrite Heq in Heq'. by injection Heq' as <-.
Qed.

(** ** The error messages are pairwise distinct *)

Lemma pretty_N_char_no_space x : pretty_N_char x ≠ " "%char.
Proof. unfold pretty_N_char. by repeat case_match. Qed.

Lemma pretty_N_go_noSpace x s : noSpace s → noSpace (pretty_N_go x s).
Proof.
  revert s. induction (N.lt_wf_0 x) as [x _ IH]; intros s Hs.
  assert (x = 0 ∨ 0 < x)%N as [->|Hx] by lia.
  - by rewrite pretty_N_go_0.
  - rewrite pretty_N_go_step by done. apply IH.
    + by apply N.div_lt.
    + split; [apply pretty_N_char_no_space|done].
Qed.

Lemma pretty_nat_noSpace (n : nat) : noSpace (pretty n).
Proof.
  unfold pretty, pretty_nat, pretty, pretty_N.
  case_decide; [by split|]. by apply pretty_N_go_noSpace.
Qed.

Lemma string_app_cons c s r : String c s +:+ r = String c (s +:+ r).
Proof. reflexivity. Qed.

Lemma string_app_nil_l r : EmptyString +:+ r = r.
Proof. reflexivity. Qed.

Lemma string_app_assoc s1 s2 s3 : (s1 +:+ s2) +:+ s3 = s1 +:+ (s2 +:+ s3).
Proof.
  induction s1 as [|c s1 IH]; [done|].
  by rewrite !string_app_cons, IH.
Qed.


(** A number followed by a space determines the number and the rest. *)
Lemma number_space_split d1 d2 r1 r2 :
  noSpace d1 → noSpace d2 →
  d1 +:+ String " " r1 = d2 +:+ String " " r2 → d1 = d2 ∧ r1 = r2.
Proof.
  revert d2. induction d1 as [|c1 d1 IH]; intros [|c2 d2] H1 H2;
    rewrite ?string_app_cons, ?string_app_nil_l; intros Heq.
  - by simplify_eq.
  - simplify_eq. by destruct H2.
  - simplify_eq. by destruct H1.
  - injection Heq as -> Heq. destruct H1 as [_ H1], H2 as [_ H2].
    destruct (IH d2 H1 H2 Heq) as [-> ->]. done.
Qed.

Lemma found_split (k1 k2 : nat) r1 r2 :
  "Found " +:+ pretty k1 +:+ String " " r1 =
  "Found " +:+ pretty k2 +:+ String " " r2 →
  k1 = k2 ∧ r1 = r2.
Proof.
  intros Heq%(inj (String.app _)).
  apply number_space_split in Heq as [Hk ->]; [|apply pretty_nat_noSpace..].
  split; [|done]. by apply (inj pretty).
Qed.

Lemma start_nodes_inj k1 k2 : Msg.start_nodes k1 = Msg.start_nodes k2 → k1 = k2.
Proof. intros Heq. by apply found_split in Heq as [? _]. Qed.

Lemma end_nodes_inj k1 k2 : Msg.end_nodes k1 = Msg.end_nodes k2 → k1 = k2.
Proof. intros Heq. by apply found_split in Heq as [? _]. Qed.

Lemma start_ne_disconnected k ns : Msg.start_nodes k ≠ Msg.disconnected ns.
Proof. intros Heq. by apply found_split in Heq as [_ ?]. Qed.

Lemma start_ne_end k1 k2 : Msg.start_nodes k1 ≠ Msg.end_nodes k2.
Proof. intros Heq. by apply found_split in Heq as [_ ?]. Qed.

Lemma end_ne_disconnected k ns : Msg.end_nodes k ≠ Msg.disconnected ns.
Proof. intros Heq. by apply found_split in Heq as [_ ?]. Qed.

Lemma found_first s : "Found " +:+ s = String "F" ("ound " +:+ s).
Proof. reflexivity. Qed.

(** The fixed messages start with a [W], the counting ones with an [F]. *)
Lemma fixed_ne_found m s :
  m ∈ [Msg.cycle; Msg.designer_cycle; Msg.no_input; Msg.no_output] →
  m ≠ "Found " +:+ s.
Proof.
  rewrite found_first. intros Hm Heq. subst m.
  repeat (apply elem_of_cons in Hm as [Hm|Hm]; [discriminate Hm|]).
  by apply elem_of_nil in Hm.
Qed.

Lemma fixed_ne_start m k : m ∈ fixedMessages → m ≠ Msg.start_nodes k.
Proof. apply fixed_ne_found. Qed.
Lemma fixed_ne_end m k : m ∈ fixedMessages → m ≠ Msg.end_nodes k.
Proof. apply fixed_ne_found. Qed.
Lemma fixed_ne_disconnected m ns : m ∈ fixedMessages → m ≠ Msg.disconnected ns.
Proof. apply fixed_ne_found. Qed.

Lemma cycle_fixed : Msg.cycle ∈ fixedMessages.
Proof. unfold fixedMessages. set_solver. Qed.
Lemma designer_cycle_fixed : Msg.designer_cycle ∈ fixedMessages.
Proof. unfold fixedMessages. set_solver. Qed.
Lemma no_input_fixed : Msg.no_input ∈ fixedMessages.
Proof. unfold fixedMessages. set_solver. Qed.
Lemma no_output_fixed : Msg.no_output ∈ fixedMessages.
Proof. unfold fixedMessages. set_solver. Qed.

Lemma cycle_ne_start k : Msg.cycle ≠ Msg.start_nodes k.
Proof. apply fixed_ne_start, cycle_fixed. Qed.
Lemma cycle_ne_end k : Msg.cycle ≠ Msg.end_nodes k.
Proof. apply fixed_ne_end, cycle_fixed. Qed.
Lemma cycle_ne_disconnected ns : Msg.cycle ≠ Msg.disconnected ns.
Proof. apply fixed_ne_disconnected, cycle_fixed. Qed.

Create HintDb fixed_msg.
#[local] Hint Resolve cycle_fixed designer_cycle_fixed no_input_fixed
  no_output_fixed : fixed_msg.

(** Closes a goal from an equation between a fixed and a counting message. *)
Ltac fixed_absurd H :=
  exfalso;
  first
    [ eapply fixed_ne_start; [|exact H]
    | eapply fixed_ne_end; [|exact H]
    | eapply fixed_ne_disconnected; [|exact H]
    | symmetry in H;
      first
        [ eapply fixed_ne_start; [|exact H]
        | eapply fixed_ne_end; [|exact H]
        | eapply fixed_ne_disconnected; [|exact H] ] ];
  eauto with fixed_msg.

(** ** Membership in the error lists *)

Lemma elem_of_pushIf m cond msg errors :
  m ∈ pushIf cond msg errors ↔ m ∈ errors ∨ (cond = true ∧ m = msg).
Proof.
  unfold pushIf. destruct cond.
  - rewrite elem_of_app, list_elem_of_singleton. naive_solver.
  - naive_solver.
Qed.

(** The error list of WorkflowBuilder.tsx, once the cycle search has
    returned. *)
Lemma builder_errors_of def hasCycle :
  Frontend.detectCycle (nodes def) (edges def) = Some hasCycle →
  ∃ errs,
    Builder.validationErrorsOf def = Some errs ∧
    ∀ m, m ∈ errs ↔
      (hasCycle = true ∧ m = Msg.cycle) ∨
      (disconnectedNodes def ≠ [] ∧ m = Msg.disconnected (disconnectedNodes def)) ∨
      (1 < List.length (startNodes def) ∧
       m = Msg.start_nodes (List.length (startNodes def))).
Proof.
  intros Heq. eexists. unfold Builder.validationErrorsOf.
  rewrite Heq. simpl. split; [done|]. intros m.
  rewrite !elem_of_pushIf, !bool_decide_eq_true, elem_of_nil.
  destruct (disconnectedNodes def); simpl; [|naive_solver lia].
  naive_solver lia.
Qed.

Lemma builder_errors_spec def :
  safeIds def →
  ∃ hasCycle errs,
    Frontend.detectCycle (nodes def) (edges def) = Some hasCycle ∧
    Builder.validationErrorsOf def = Some errs ∧
    ∀ m, m ∈ errs ↔
      (hasCycle = true ∧ m = Msg.cycle) ∨
      (disconnectedNodes def ≠ [] ∧ m = Msg.disconnected (disconnectedNodes def)) ∨
      (1 < List.length (startNodes def) ∧
       m = Msg.start_nodes (List.length (startNodes def))).
Proof.
  intros Hsafe.
  destruct (frontend_detectCycle_safe (nodes def) (edges def) Hsafe) as (b & Heq & _).
  destruct (builder_errors_of def b Heq) as (errs & Herrs & Hmem). eauto.
Qed.

(** Whatever the ids: an error list that is returned is this one. *)
Lemma builder_errors_sound def errs :
  Builder.validationErrorsOf def = Some errs →
  ∃ hasCycle,
    Frontend.detectCycle (nodes def) (edges def) = Some hasCycle ∧
    ∀ m, m ∈ errs ↔
      (hasCycle = true ∧ m = Msg.cycle) ∨
      (disconnectedNodes def ≠ [] ∧ m = Msg.disconnected (disconnectedNodes def)) ∨
      (1 < List.length (startNodes def) ∧
       m = Msg.start_nodes (List.length (startNodes def))).
Proof.
  intros Herrs.
  destruct (Frontend.detectCycle (nodes def) (edges def)) as [b|] eqn:Heq.
  - destruct (builder_errors_of def b Heq) as (errs' & Herrs' & Hmem).
    exists b. split; [done|]. rewrite Herrs in Herrs'. by injection Herrs' as <-.
  - unfold Builder.validationErrorsOf in Herrs. by rewrite Heq in Herrs.
Qed.

Lemma page_errors_of def hasCycle :
  Frontend.detectCycle (nodes def) (edges def) = Some hasCycle →
  ∃ errs,
    Page.validationErrorsOf def = Some errs ∧
    ∀ m, m ∈ errs ↔
      (hasCycle = true ∧ m = Msg.cycle) ∨
      (disconnectedNodes def ≠ [] ∧ m = Msg.disconnected (disconnectedNodes def)) ∨
      (1 < List.length (startNodes def) ∧
       m = Msg.start_nodes (List.length (startNodes def))) ∨
      (1 < List.length (endNodes def) ∧
       m = Msg.end_nodes (List.length (endNodes def))).
Proof.
  intros Heq. eexists. unfold Page.validationErrorsOf.
  rewrite Heq. simpl. split; [done|]. intros m.
  rewrite !elem_of_pushIf, !bool_decide_eq_true, elem_of_nil.
  destruct (disconnectedNodes def); simpl; [|naive_solver lia].
  naive_solver lia.
Qed.

Lemma page_errors_spec def :
  safeIds def →
  ∃ hasCycle errs,
    Frontend.detectCycle (nodes def) (edges def) = Some hasCycle ∧
    Page.validationErrorsOf def = Some errs ∧
    ∀ m, m ∈ errs ↔
      (hasCycle = true ∧ m = Msg.cycle) ∨
      (disconnectedNodes def ≠ [] ∧ m = Msg.disconnected (disconnectedNodes def)) ∨
      (1 < List.length (startNodes def) ∧
       m = Msg.start_nodes (List.length (startNodes def))) ∨
      (1 < List.length (endNodes def) ∧
       m = Msg.end_nodes (List.length (endNodes def))).
Proof.
  intros Hsafe.
  destruct (frontend_detectCycle_safe (nodes def) (edges def) Hsafe) as (b & Heq & _).
  destruct (page_errors_of def b Heq) as (errs & Herrs & Hmem). eauto.
Qed.

Lemma page_errors_sound def errs :
  Page.validationErrorsOf def = Some errs →
  ∃ hasCycle,
    Frontend.detectCycle (nodes def) (edges def) = Some hasCycle ∧
    ∀ m, m ∈ errs ↔
      (hasCycle = true ∧ m = Msg.cycle) ∨
      (disconnectedNodes def ≠ [] ∧ m = Msg.disconnected (disconnectedNodes def)) ∨
      (1 < List.length (startNodes def) ∧
       m = Msg.start_nodes (List.length (startNodes def))) ∨
      (1 < List.length (endNodes def) ∧
       m = Msg.end_nodes (List.length (endNodes def))).
Proof.
  intros Herrs.
  destruct (Frontend.detectCycle (nodes def) (edges def)) as [b|] eqn:Heq.
  - destruct (page_errors_of def b Heq) as (errs' & Herrs' & Hmem).
    exists b. split; [done|]. rewrite Herrs in Herrs'. by injection Herrs' as <-.
  - unfold Page.validationErrorsOf in Herrs. by rewrite Heq in Herrs.
Qed.

Lemma designer_errors_of ns es hasCycle :
  buildAdjacency es ≫= Designer.detectCycle = Some hasCycle →
  ∃ errs,
    Designer.validateWorkflow ns es = Some errs ∧
    ∀ m, m ∈ errs ↔
      ((¬ ∃ n, n ∈ ns ∧ node_type n = "input"%string) ∧ m = Msg.no_input) ∨
      ((¬ ∃ n, n ∈ ns ∧ node_type n = "output"%string) ∧ m = Msg.no_output) ∨
      (disconnectedNodes (mkDefinition ns es) ≠ [] ∧
       m = Msg.disconnected (disconnectedNodes (mkDefinition ns es))) ∨
      (hasCycle = true ∧ m = Msg.designer_cycle).
Proof.
  intros Heq. eexists. unfold Designer.validateWorkflow.
  destruct (buildAdjacency es) as [graph|]; [|done]. simpl in *.
  rewrite Heq. simpl. split; [done|]. intros m.
  rewrite !elem_of_pushIf, !bool_decide_eq_true, elem_of_nil, !negb_true_iff.
  assert (∀ ty, existsb (λ node, bool_decide (node_type node = ty)) ns = false ↔
                ¬ ∃ n, n ∈ ns ∧ node_type n = ty) as Hex.
  { intros ty. rewrite <-not_true_iff_false, existsb_exists.
    setoid_rewrite bool_decide_eq_true. by setoid_rewrite list_elem_of_In. }
  rewrite !Hex.
  destruct (disconnectedNodes _); simpl; [|naive_solver lia].
  naive_solver lia.
Qed.

Lemma designer_errors_spec ns es :
  safeEdges es →
  ∃ hasCycle errs,
    buildAdjacency es ≫= Designer.detectCycle = Some hasCycle ∧
    Designer.validateWorkflow ns es = Some errs ∧
    ∀ m, m ∈ errs ↔
      ((¬ ∃ n, n ∈ ns ∧ node_type n = "input"%string) ∧ m = Msg.no_input) ∨
      ((¬ ∃ n, n ∈ ns ∧ node_type n = "output"%string) ∧ m = Msg.no_output) ∨
      (disconnectedNodes (mkDefinition ns es) ≠ [] ∧
       m = Msg.disconnected (disconnectedNodes (mkDefinition ns es))) ∨
      (hasCycle = true ∧ m = Msg.designer_cycle).
Proof.
  intros Hsafe.
  destruct (designer_detectCycle_safe es Hsafe) as (b & Heq & _).
  destruct (designer_errors_of ns es b Heq) as (errs & Herrs & Hmem). eauto.
Qed.

Lemma designer_errors_sound ns es errs :
  Designer.validateWorkflow ns es = Some errs →
  ∃ hasCycle,
    buildAdjacency es ≫= Designer.detectCycle = Some hasCycle ∧
    ∀ m, m ∈ errs ↔
      ((¬ ∃ n, n ∈ ns ∧ node_type n = "input"%string) ∧ m = Msg.no_input) ∨
      ((¬ ∃ n, n ∈ ns ∧ node_type n = "output"%string) ∧ m = Msg.no_output) ∨
      (disconnectedNodes (mkDefinition ns es) ≠ [] ∧
       m = Msg.disconnected (disconnectedNodes (mkDefinition ns es))) ∨
      (hasCycle = true ∧ m = Msg.designer_cycle).
Proof.
  intros Herrs.
  destruct (buildAdjacency es ≫= Designer.detectCycle) as [b|] eqn:Heq.
  - destruct (designer_errors_of ns es b Heq) as (errs' & Herrs' & Hmem).
    exists b. split; [done|]. rewrite Herrs in Herrs'. by injection Herrs' as <-.
  - unfold Designer.validateWorkflow in Herrs.
    destruct (buildAdjacency es) as [graph|]; [|done]. simpl in *.
    by rewrite Heq in Herrs.
Qed.

(** ** The structural queries *)

Lemma elem_of_connectedNodes es x :
  x ∈ connectedNodes es ↔ ∃ e, e ∈ es ∧ (source e = x ∨ target e = x).
Proof.
  unfold connectedNodes.
  induction es as [|e es IH] using rev_ind.
  - simpl. split; [set_solver|]. intros (e & He & _). by apply elem_of_nil in He.
  - rewrite foldl_app. simpl. rewrite !elem_of_union, !elem_of_singleton, IH.
    setoid_rewrite elem_of_app. setoid_rewrite list_elem_of_singleton.
    naive_solver.
Qed.

Lemma find_None_iff {A} (f : A → bool) (l : list A) :
  List.find f l = None ↔ ∀ x, x ∈ l → f x = false.
Proof.
  induction l as [|a l IH]; simpl.
  - split; [by intros _ x ?%elem_of_nil|done].
  - destruct (f a) eqn:Hfa.
    + split; [done|]. intros H. rewrite H in Hfa; [done|by left].
    + rewrite IH. split.
      * intros H x [->|?]%elem_of_cons; auto.
      * intros H x ?. apply H. by right.
Qed.

(** A node is listed as disconnected exactly when no edge touches it. *)
Lemma elem_of_disconnectedNodes def node :
  node ∈ disconnectedNodes def ↔
  node ∈ nodes def ∧
  ∀ e, e ∈ edges def → source e ≠ node_id node ∧ target e ≠ node_id node.
Proof.
  unfold disconnectedNodes.
  rewrite list_elem_of_filter, elem_of_connectedNodes. split.
  - intros [Hnot Hin]. split; [done|].
    intros e He. split; intros Heq; apply Hnot; exists e; auto.
  - intros [Hin Hfree]. split; [|done].
    intros (e & He & [Hs|Ht]); destruct (Hfree e He); done.
Qed.

(** [startNodes] are the nodes of in-degree 0, [endNodes] those of
    out-degree 0. *)
Lemma elem_of_startNodes def node : node ∈ startNodes def ↔ isEntry def node.
Proof.
  unfold startNodes, isEntry. rewrite list_elem_of_filter, find_None_iff.
  setoid_rewrite bool_decide_eq_false. naive_solver.
Qed.

Lemma elem_of_endNodes def node : node ∈ endNodes def ↔ isTerminal def node.
Proof.
  unfold endNodes, isTerminal. rewrite list_elem_of_filter, find_None_iff.
  setoid_rewrite bool_decide_eq_false. naive_solver.
Qed.

Lemma occursIn_app_r needle pre hay : occursIn needle hay → occursIn needle (pre +:+ hay).
Proof.
  intros (p & q & ->). exists (pre +:+ p), q. by rewrite string_app_assoc.
Qed.

Lemma occursIn_join sep x l : x ∈ l → occursIn x (join sep l).
Proof.
  unfold join. induction l as [|y l IH]; [by intros ?%elem_of_nil|].
  intros [->|Hx]%elem_of_cons.
  - destruct l as [|z l]; simpl.
    + exists EmptyString, EmptyString. rewrite string_app_nil_l.
      clear. induction y as [|c y IHy]; [done|]. by rewrite string_app_cons, <-IHy.
    + by exists EmptyString, (sep +:+ String.concat sep (z :: l)).
  - destruct l as [|z l]; [by apply elem_of_nil in Hx|].
    change (String.concat sep (y :: z :: l))
      with (y +:+ sep +:+ String.concat sep (z :: l)).
    by apply occursIn_app_r, occursIn_app_r, IH.
Qed.


(** The disconnected-nodes message carries the label of every listed node. *)
Lemma disconnected_names ns node :
  node ∈ ns → occursIn (label node) (Msg.disconnected ns).
Proof.
  intros Hn. unfold Msg.disconnected.
  do 3 apply occursIn_app_r. apply occursIn_join. by apply list_elem_of_fmap_2.
Qed.


(** ** The examples, evaluated *)

Module ExampleFacts.
Import Examples.

Example builder_twoCycle :
  Builder.validationErrorsOf twoCycle = Some [Msg.cycle].
Proof. vm_compute. reflexivity. Qed.

Example page_fork :
  Page.validationErrorsOf fork =
    Some ["Found 2 end nodes. Consider using a single end node for clarity."].
Proof. vm_compute. reflexivity. Qed.

Example builder_fork : Builder.validationErrorsOf fork = Some [].
Proof. vm_compute. reflexivity. Qed.

Example designer_twoCycle :
  Designer.validateWorkflow (nodes twoCycle) (edges twoCycle) =
    Some [Msg.no_input; Msg.no_output; Msg.designer_cycle].
Proof. vm_compute. reflexivity. Qed.

Example builder_detachedCycle :
  Builder.validationErrorsOf detachedCycle = Some [Msg.cycle].
Proof. vm_compute. reflexivity. Qed.

Example mockWorkflow_valid :
  Designer.validateWorkflow (nodes mockWorkflow) (edges mockWorkflow) = Some [] ∧
  Builder.validateWorkflow mockWorkflow = Some (mkValidation true []) ∧
  Page.validateWorkflow mockWorkflow = Some (mkValidation true []).
Proof. by vm_compute. Qed.

Example mockWorkflow_preview :
  Designer.handleRunPreview (nodes mockWorkflow) (edges mockWorkflow) =
    Some [SetLoading true; LogRunPreview (nodes mockWorkflow) (edges mockWorkflow);
          SetTimeoutAlert Msg.preview_done 1000; SetLoading false].
Proof. by vm_compute. Qed.

Example selfLoop_detected :
  Frontend.detectCycle (nodes selfLoop) (edges selfLoop) = Some true ∧
  buildAdjacency (edges selfLoop) ≫= Designer.detectCycle = Some true.
Proof. by vm_compute. Qed.

Example fork_acyclic :
  Frontend.detectCycle (nodes fork) (edges fork) = Some false ∧
  buildAdjacency (edges fork) ≫= Designer.detectCycle = Some false.
Proof. by vm_compute. Qed.

(** A cycle that no node of the array reaches escapes the frontend search
    and is found by the designer, which starts from the keys. *)
Example cycle_outside_nodes :
  Frontend.detectCycle [] (edges twoCycle) = Some false ∧
  buildAdjacency (edges twoCycle) ≫= Designer.detectCycle = Some true.
Proof. by vm_compute. Qed.

(** The designer enumerates the keys ["9"], ["10"] before ["b"], ["a"]. *)
Example keys_order :
  JsObject.keys <$> buildAdjacency
    [mkEdge "e1" "b" "x"; mkEdge "e2" "10" "x"; mkEdge "e3" "9" "x";
     mkEdge "e4" "a" "x"; mkEdge "e5" "09" "x"; mkEdge "e6" "b" "y"]
  = Some ["9"; "10"; "b"; "a"; "09"].
Proof. vm_compute. reflexivity. Qed.

(** A node called [constructor]: the search iterates the inherited
    function and throws, and no verdict is written. *)
Example inherited_node_throws :
  Frontend.detectCycle (nodes inheritedNode) (edges inheritedNode) = None ∧
  Builder.validateWorkflow inheritedNode = None ∧
  Page.validateWorkflow inheritedNode = None.
Proof. by vm_compute. Qed.

(** An edge that leaves [__proto__]: building the adjacency object throws
    in all three validators. *)
Example inherited_source_throws :
  buildAdjacency (edges inheritedSource) = None ∧
  Builder.validateWorkflow inheritedSource = None ∧
  Page.validateWorkflow inheritedSource = None ∧
  Designer.validateWorkflow (nodes inheritedSource) (edges inheritedSource) = None.
Proof. by vm_compute. Qed.

(** Whether the search throws depends on the order of the nodes: the
    cycle [A -> B -> A] is found before [constructor] is looked up, or
    after. *)
Example inherited_node_order :
  Frontend.detectCycle (nodes twoCycle ++ nodes inheritedNode) (edges twoCycle)
    = Some true ∧
  Frontend.detectCycle (nodes inheritedNode ++ nodes twoCycle) (edges twoCycle)
    = None.
Proof. by vm_compute. Qed.

End ExampleFacts.

(** ** The validators' verdicts *)

Lemma setValidation_invalid errs m :
  m ∈ errs → setValidation errs = mkValidation false errs.
Proof.
  intros Hm. unfold setValidation. rewrite bool_decide_eq_false_2; [done|].
  destruct errs; [by apply elem_of_nil in Hm|done].
Qed.


Lemma safeIds_edges def : safeIds def → safeEdges (edges def).
Proof. by intros [_ ?]. Qed.

(** Whether the ids of a concrete graph are inherited names is settled by
    evaluation. *)
Ltac solve_safe := apply (bool_decide_unpack _); by vm_compute.




(** C2 (as stated, refuted).  The empty graph and the two-cycle have no
    entry node, yet the frontend validators raise no entry-point error: the
    empty graph is even reported valid. *)
Lemma C2_counterexample :
  startNodes Editor.emptyDefinition = [] ∧
  Builder.validateWorkflow Editor.emptyDefinition = Some (mkValidation true []) ∧
  Page.validateWorkflow Editor.emptyDefinition = Some (mkValidation true []) ∧
  startNodes Examples.twoCycle = [] ∧
  Builder.validationErrorsOf Examples.twoCycle = Some [Msg.cycle] ∧
  Page.validationErrorsOf Examples.twoCycle = Some [Msg.cycle] ∧
  ¬ (List.length (startNodes Editor.emptyDefinition) ≠ 1 →
     ∃ v, Builder.validateWorkflow Editor.emptyDefinition = Some v ∧
          isWorkflowValid v = false).
Proof.
  split_and!; [by vm_compute..|].
  intros Hclaim. destruct Hclaim as (v & Hv & Hinvalid); [by vm_compute|].
  vm_compute in Hv. injection Hv as <-. done.
Qed.

(** C2 (amended).  WorkflowBuilder.tsx and page.tsx compute the start
    nodes, which are the nodes of in-degree 0, and report an entry-point
    error exactly when there is more than one; the error carries the count.
    With zero or one start node no entry-point error is raised.  The
    designer does not count entry nodes: it reports the missing-input error
    exactly when no node has type [input].  This holds for every graph
    whose ids are not names inherited from [Object.prototype]; validation
    throws on those. *)
Theorem C2_start_nodes_error def :
  safeIds def →
  (∀ node, node ∈ startNodes def ↔ isEntry def node) ∧
  (∃ errs, Builder.validationErrorsOf def = Some errs ∧
     ∀ k, Msg.start_nodes k ∈ errs ↔
          k = List.length (startNodes def) ∧ 1 < k) ∧
  (∃ errs, Page.validationErrorsOf def = Some errs ∧
     ∀ k, Msg.start_nodes k ∈ errs ↔
          k = List.length (startNodes def) ∧ 1 < k) ∧
  (∃ errs, Designer.validateWorkflow (nodes def) (edges def) = Some errs ∧
     (∀ k, Msg.start_nodes k ∉ errs) ∧
     (Msg.no_input ∈ errs ↔
      ¬ ∃ node, node ∈ nodes def ∧ node_type node = "input"%string)).
Proof.
  intros Hsafe. split_and!.
  - apply elem_of_startNodes.
  - destruct (builder_errors_spec def Hsafe) as (b & errs & _ & Herrs & Hmem).
    exists errs. split; [done|]. intros k. rewrite Hmem. split.
    + intros [[_ Heq]|[[_ Heq]|[Hlt Heq]]].
      * by destruct (cycle_ne_start k).
      * by destruct (start_ne_disconnected k (disconnectedNodes def)).
      * apply start_nodes_inj in Heq as ->. done.
    + intros [-> Hlt]. by do 2 right.
  - destruct (page_errors_spec def Hsafe) as (b & errs & _ & Herrs & Hmem).
    exists errs. split; [done|]. intros k. rewrite Hmem. split.
    + intros [[_ Heq]|[[_ Heq]|[[Hlt Heq]|[_ Heq]]]].
      * by destruct (cycle_ne_start k).
      * by destruct (start_ne_disconnected k (disconnectedNodes def)).
      * apply start_nodes_inj in Heq as ->. done.
      * by destruct (start_ne_end k (List.length (endNodes def))).
    + intros [-> Hlt]. right. right. by left.
  - destruct (designer_errors_spec (nodes def) (edges def) (safeIds_edges def Hsafe))
      as (b & errs & _ & Herrs & Hmem).
    exists errs. split; [done|]. split.
    + intros k. rewrite Hmem. intros [[_ Heq]|[[_ Heq]|[[_ Heq]|[_ Heq]]]].
      * fixed_absurd Heq.
      * fixed_absurd Heq.
      * by eapply start_ne_disconnected.
      * fixed_absurd Heq.
    + rewrite Hmem. split.
      * intros [[Hno _]|[[_ Heq]|[[_ Heq]|[_ Heq]]]]; [done|done| |done].
        fixed_absurd Heq.
      * intros Hno. by left.
Qed.

Lemma C2_witness :
  ∃ errs, Page.validationErrorsOf Examples.fork = Some errs ∧
    ∀ k, Msg.start_nodes k ∈ errs ↔
         k = List.length (startNodes Examples.fork) ∧ 1 < k.
Proof. apply (C2_start_nodes_error Examples.fork). solve_safe. Defined.

(** C3 (as stated, refuted).  A lone node is its own entry node, hence
    reached by the traversal, and is reported as disconnected; and in
    [S -> A], [B -> C -> B] the node [B] is not reached from the entry node
    [S], yet it is not reported. *)
Lemma C3_counterexample :
  Builder.validationErrorsOf Examples.singleNode
    = Some ["Found 1 disconnected node(s): A"%string] ∧
  reachableFromEntry Examples.singleNode "A"%string ∧
  disconnectedNodes Examples.detachedCycle = [] ∧
  ¬ reachableFromEntry Examples.detachedCycle "B"%string.
Proof.
  split_and!.
  - vm_compute. reflexivity.
  - exists Examples.nodeA. split; [|done].
    apply elem_of_startNodes. vm_compute. left.
  - vm_compute. reflexivity.
  - intros (entry & Hentry%elem_of_startNodes & Hreach).
    vm_compute in Hentry. apply list_elem_of_singleton in Hentry as ->.
    simpl in Hreach.
    apply rtc_inv in Hreach as [?|(y & (e & He & Hs & <-) & Hreach)]; [done|].
    simpl in He. set_unfold in He.
    destruct He as [->|[->|[->|[]]]]; simpl in *; try done.
    clear Hs.
    apply rtc_inv in Hreach as [?|(y & (e & He & Hs & <-) & _)]; [done|].
    simpl in He. set_unfold in He.
    destruct He as [->|[->|[->|[]]]]; simpl in *; done.
Qed.

(** C3 (amended).  A node is reported as disconnected exactly when its id
    is neither the source nor the target of any edge.  Each validator
    reports the disconnected nodes, when there are some, in one message
    that carries their count and the label of each of them.  This holds
    for every graph whose ids are not names inherited from
    [Object.prototype]; validation throws on those. *)
Theorem C3_disconnected_nodes def :
  safeIds def →
  (∀ node, node ∈ disconnectedNodes def ↔
     node ∈ nodes def ∧
     ∀ e, e ∈ edges def → source e ≠ node_id node ∧ target e ≠ node_id node) ∧
  (∀ node, node ∈ disconnectedNodes def →
     occursIn (label node) (Msg.disconnected (disconnectedNodes def))) ∧
  (∃ errs, Builder.validationErrorsOf def = Some errs ∧
     ∀ ns, Msg.disconnected ns ∈ errs ↔
       disconnectedNodes def ≠ [] ∧
       Msg.disconnected ns = Msg.disconnected (disconnectedNodes def)) ∧
  (∃ errs, Page.validationErrorsOf def = Some errs ∧
     ∀ ns, Msg.disconnected ns ∈ errs ↔
       disconnectedNodes def ≠ [] ∧
       Msg.disconnected ns = Msg.disconnected (disconnectedNodes def)) ∧
  (∃ errs, Designer.validateWorkflow (nodes def) (edges def) = Some errs ∧
     ∀ ns, Msg.disconnected ns ∈ errs ↔
       disconnectedNodes def ≠ [] ∧
       Msg.disconnected ns = Msg.disconnected (disconnectedNodes def)).
Proof.
  intros Hsafe. split_and!.
  - apply elem_of_disconnectedNodes.
  - intros node. apply disconnected_names.
  - destruct (builder_errors_spec def Hsafe) as (b & errs & _ & Herrs & Hmem).
    exists errs. split; [done|]. intros ns. rewrite Hmem. split.
    + intros [[_ Heq]|[?|[_ Heq]]]; [|done|].
      * fixed_absurd Heq.
      * symmetry in Heq. by apply start_ne_disconnected in Heq.
    + intros ?. right. by left.
  - destruct (page_errors_spec def Hsafe) as (b & errs & _ & Herrs & Hmem).
    exists errs. split; [done|]. intros ns. rewrite Hmem. split.
    + intros [[_ Heq]|[?|[[_ Heq]|[_ Heq]]]]; [|done| |].
      * fixed_absurd Heq.
      * symmetry in Heq. by apply start_ne_disconnected in Heq.
      * symmetry in Heq. by apply end_ne_disconnected in Heq.
    + intros ?. right. by left.
  - destruct (designer_errors_spec (nodes def) (edges def) (safeIds_edges def Hsafe))
      as (b & errs & _ & Herrs & Hmem).
    destruct def as [ns0 es0]. simpl in *.
    exists errs. split; [done|]. intros ns. rewrite Hmem. split.
    + intros [[_ Heq]|[[_ Heq]|[?|[_ Heq]]]]; [| |done|];
        fixed_absurd Heq.
    + intros ?. right. right. by left.
Qed.

Lemma C3_witness :
  ∃ errs, Builder.validationErrorsOf Examples.singleNode = Some errs ∧
    ∀ ns, Msg.disconnected ns ∈ errs ↔
      disconnectedNodes Examples.singleNode ≠ [] ∧
      Msg.disconnected ns = Msg.disconnected (disconnectedNodes Examples.singleNode).
Proof. apply (C3_disconnected_nodes Examples.singleNode). solve_safe. Defined.

(** C4 (as stated, refuted).  The two-cycle has no end node, and neither
    frontend validator reports a missing terminal node; page.tsx instead
    objects to the fork, which has two end nodes; and the designer demands
    an [output] node of a lone node, whose out-degree is 0. *)
Lemma C4_counterexample :
  endNodes Examples.twoCycle = [] ∧
  Builder.validationErrorsOf Examples.twoCycle = Some [Msg.cycle] ∧
  Page.validationErrorsOf Examples.twoCycle = Some [Msg.cycle] ∧
  endNodes Examples.fork = [Examples.nodeB; Examples.nodeC] ∧
  Page.validationErrorsOf Examples.fork = Some [Msg.end_nodes 2] ∧
  endNodes Examples.singleNode = [Examples.nodeA] ∧
  Designer.validateWorkflow (nodes Examples.singleNode) (edges Examples.singleNode)
    = Some [Msg.no_input; Msg.no_output; Msg.disconnected [Examples.nodeA]].
Proof. vm_compute. done. Qed.

(** C4 (amended).  page.tsx computes the end nodes, which are the nodes of
    out-degree 0, and reports an end-node error, with the count, exactly
    when there is more than one; zero or one end node raises no end-node
    error.  WorkflowBuilder.tsx has no end-node check.  The designer
    reports the missing-output error exactly when no node has type
    [output].  This holds for every graph whose ids are not names
    inherited from [Object.prototype]; validation throws on those. *)
Theorem C4_end_nodes_error def :
  safeIds def →
  (∀ node, node ∈ endNodes def ↔ isTerminal def node) ∧
  (∃ errs, Page.validationErrorsOf def = Some errs ∧
     ∀ k, Msg.end_nodes k ∈ errs ↔ k = List.length (endNodes def) ∧ 1 < k) ∧
  (∃ errs, Builder.validationErrorsOf def = Some errs ∧
     ∀ k, Msg.end_nodes k ∉ errs) ∧
  (∃ errs, Designer.validateWorkflow (nodes def) (edges def) = Some errs ∧
     (∀ k, Msg.end_nodes k ∉ errs) ∧
     (Msg.no_output ∈ errs ↔
      ¬ ∃ node, node ∈ nodes def ∧ node_type node = "output"%string)).
Proof.
  intros Hsafe. split_and!.
  - apply elem_of_endNodes.
  - destruct (page_errors_spec def Hsafe) as (b & errs & _ & Herrs & Hmem).
    exists errs. split; [done|]. intros k. rewrite Hmem. split.
    + intros [[_ Heq]|[[_ Heq]|[[_ Heq]|[Hlt Heq]]]].
      * fixed_absurd Heq.
      * by apply end_ne_disconnected in Heq.
      * symmetry in Heq. by apply start_ne_end in Heq.
      * apply end_nodes_inj in Heq as ->. done.
    + intros [-> Hlt]. by do 3 right.
  - destruct (builder_errors_spec def Hsafe) as (b & errs & _ & Herrs & Hmem).
    exists errs. split; [done|]. intros k. rewrite Hmem.
    intros [[_ Heq]|[[_ Heq]|[_ Heq]]].
    + fixed_absurd Heq.
    + by apply end_ne_disconnected in Heq.
    + symmetry in Heq. by apply start_ne_end in Heq.
  - destruct (designer_errors_spec (nodes def) (edges def) (safeIds_edges def Hsafe))
      as (b & errs & _ & Herrs & Hmem).
    exists errs. split; [done|]. split.
    + intros k. rewrite Hmem. intros [[_ Heq]|[[_ Heq]|[[_ Heq]|[_ Heq]]]].
      * fixed_absurd Heq.
      * fixed_absurd Heq.
      * by apply end_ne_disconnected in Heq.
      * fixed_absurd Heq.
    + rewrite Hmem. split.
      * intros [[_ Heq]|[[Hno _]|[[_ Heq]|[_ Heq]]]]; [done|done| |done].
        fixed_absurd Heq.
      * intros Hno. right. by left.
Qed.

Lemma C4_witness :
  ∃ errs, Page.validationErrorsOf Examples.fork = Some errs ∧
    ∀ k, Msg.end_nodes k ∈ errs ↔
         k = List.length (endNodes Examples.fork) ∧ 1 < k.
Proof. apply (C4_end_nodes_error Examples.fork). solve_safe. Defined.

(** A one-character text occurs only in texts that hold the character. *)
Lemma occursIn_char c hay :
  occursIn (String c EmptyString) hay →
  existsb (Ascii.eqb c) (list_ascii_of_string hay) = true.
Proof.
  intros (pre & post & ->). induction pre as [|a pre IH].
  - rewrite string_app_nil_l, string_app_cons. simpl. by rewrite Ascii.eqb_refl.
  - rewrite string_app_cons. simpl. rewrite IH. by destruct (Ascii.eqb c a).
Qed.

(** C5 (as stated, refuted).  On the graph [A -> B], [B -> A] every
    validator fails with its cycle error, and no reported message holds
    the letter [A] or the letter [B]. *)
Lemma C5_counterexample :
  Builder.validationErrorsOf Examples.twoCycle = Some [Msg.cycle] ∧
  Page.validationErrorsOf Examples.twoCycle = Some [Msg.cycle] ∧
  Designer.validateWorkflow (nodes Examples.twoCycle) (edges Examples.twoCycle)
    = Some [Msg.no_input; Msg.no_output; Msg.designer_cycle] ∧
  ∀ m, m ∈ [Msg.cycle; Msg.no_input; Msg.no_output; Msg.designer_cycle] →
    ¬ occursIn "A" m ∧ ¬ occursIn "B" m.
Proof.
  split_and!; [by vm_compute..|].
  intros m Hm.
  assert (existsb (Ascii.eqb "A") (list_ascii_of_string m) = false ∧
          existsb (Ascii.eqb "B") (list_ascii_of_string m) = false) as [HA HB].
  { repeat (apply elem_of_cons in Hm as [->|Hm]; [by vm_compute|]).
    by apply elem_of_nil in Hm. }
  split; intros Hocc%occursIn_char; congruence.
Qed.

(** C5 (amended).  The cycle error is a fixed text, the same for every
    graph: it is in the error list exactly when [detectCycle] returned
    [true], and for the graph [A -> B], [B -> A] it is the error that makes
    validation fail.  The error list exists for every graph whose ids are
    not names inherited from [Object.prototype]; validation throws on
    those. *)
Theorem C5_cycle_error_is_fixed def :
  safeIds def →
  (∃ errs, Builder.validationErrorsOf def = Some errs ∧
     (Msg.cycle ∈ errs ↔
      Frontend.detectCycle (nodes def) (edges def) = Some true)) ∧
  (∃ errs, Page.validationErrorsOf def = Some errs ∧
     (Msg.cycle ∈ errs ↔
      Frontend.detectCycle (nodes def) (edges def) = Some true)) ∧
  (∃ errs, Designer.validateWorkflow (nodes def) (edges def) = Some errs ∧
     (Msg.designer_cycle ∈ errs ↔
      buildAdjacency (edges def) ≫= Designer.detectCycle = Some true)) ∧
  Builder.validateWorkflow Examples.twoCycle
    = Some (mkValidation false [Msg.cycle]) ∧
  Page.validateWorkflow Examples.twoCycle
    = Some (mkValidation false [Msg.cycle]) ∧
  Designer.validateWorkflow (nodes Examples.twoCycle) (edges Examples.twoCycle)
    = Some [Msg.no_input; Msg.no_output; Msg.designer_cycle].
Proof.
  intros Hsafe. split_and!; [| | |by vm_compute..].
  - destruct (builder_errors_spec def Hsafe) as (b & errs & Hb & Herrs & Hmem).
    exists errs. split; [done|]. rewrite Hmem, Hb. split.
    + intros [[-> _]|[[_ Heq]|[_ Heq]]]; [done| |]; fixed_absurd Heq.
    + intros [= ->]. by left.
  - destruct (page_errors_spec def Hsafe) as (b & errs & Hb & Herrs & Hmem).
    exists errs. split; [done|]. rewrite Hmem, Hb. split.
    + intros [[-> _]|[[_ Heq]|[[_ Heq]|[_ Heq]]]]; [done| | |]; fixed_absurd Heq.
    + intros [= ->]. by left.
  - destruct (designer_errors_spec (nodes def) (edges def) (safeIds_edges def Hsafe))
      as (b & errs & Hb & Herrs & Hmem).
    exists errs. split; [done|]. rewrite Hmem, Hb. split.
    + intros [[_ Heq]|[[_ Heq]|[[_ Heq]|[-> _]]]]; [done|done| |done].
      fixed_absurd Heq.
    + intros [= ->]. by do 3 right.
Qed.

Lemma C5_witness :
  ∃ errs, Builder.validationErrorsOf Examples.entryThenCycle = Some errs ∧
    (Msg.cycle ∈ errs ↔
     Frontend.detectCycle (nodes Examples.entryThenCycle)
       (edges Examples.entryThenCycle) = Some true).
Proof. apply (C5_cycle_error_is_fixed Examples.entryThenCycle). solve_safe. Defined.

(** ** Running a workflow *)

Lemma validation_errors_reports errs err :
  err ∈ errs → reportsError [Alert (Msg.validation_errors errs)] err.
Proof.
  intros Herr. exists (Alert (Msg.validation_errors errs)). split; [by left|].
  simpl. unfold Msg.validation_errors.
  do 2 apply occursIn_app_r. by apply occursIn_join.
Qed.

(** [handleRunPreview] of the designer validates when it is called: with
    a non-empty error list it only raises an alert that holds every error
    of the list, and it performs an execution step exactly when the list
    is empty. *)
Lemma handleRunPreview_spec ns es errs :
  Designer.validateWorkflow ns es = Some errs →
  ∃ effects,
    Designer.handleRunPreview ns es = Some effects ∧
    (errs ≠ [] →
       effects = [Alert (Msg.validation_errors errs)] ∧
       ∀ err, err ∈ errs → reportsError effects err) ∧
    (Exists startsExecution effects ↔ errs = []).
Proof.
  intros Herrs. unfold Designer.handleRunPreview. rewrite Herrs. simpl.
  destruct errs as [|err errs]; simpl.
  - eexists. split_and!; [done..|].
    split; [done|]. intros _. apply Exists_cons. right.
    apply Exists_cons. by left.
  - eexists. split_and!; [done| |].
    + intros _. split; [done|]. apply validation_errors_reports.
    + split; [|done]. intros Hex. apply Exists_cons in Hex as [[]|Hex].
      by apply Exists_nil in Hex.
Qed.

(** [handleRun] of page.tsx looks at nothing but the [isWorkflowValid] it
    closed over: with [false] it raises the fixed toast, with [true] it
    posts the run. *)
Lemma page_handleRun_spec isWorkflowValid workflow_id response :
  (isWorkflowValid = false →
     Page.handleRun isWorkflowValid workflow_id response
       = [ToastError Msg.cannot_run]) ∧
  (Exists startsExecution (Page.handleRun isWorkflowValid workflow_id response)
   ↔ isWorkflowValid = true).
Proof.
  unfold Page.handleRun. destruct isWorkflowValid; simpl.
  - split; [done|]. split; [done|]. intros _. apply Exists_cons. by left.
  - split; [done|]. split; [|done]. intros Hex.
    apply Exists_cons in Hex as [[]|Hex]. by apply Exists_nil in Hex.
Qed.


(** ** Comparing the three validators *)

(** C8 (as stated, refuted).  The fork [A -> B], [A -> C] is valid for
    WorkflowBuilder.tsx and invalid for page.tsx and for the designer; the
    chain [A -> B] of two agents is valid for WorkflowBuilder.tsx and for
    page.tsx and invalid for the designer. *)
Lemma C8_counterexample :
  Builder.validateWorkflow Examples.fork = Some (mkValidation true []) ∧
  Page.validateWorkflow Examples.fork
    = Some (mkValidation false [Msg.end_nodes 2]) ∧
  Designer.validateWorkflow (nodes Examples.fork) (edges Examples.fork)
    = Some [Msg.no_input; Msg.no_output] ∧
  Builder.validateWorkflow Examples.chain = Some (mkValidation true []) ∧
  Page.validateWorkflow Examples.chain = Some (mkValidation true []) ∧
  Designer.validateWorkflow (nodes Examples.chain) (edges Examples.chain)
    = Some [Msg.no_input; Msg.no_output].
Proof. by vm_compute. Qed.

(** An empty error list of the designer means that the graph has an
    [input] node and an [output] node. *)
Lemma designer_valid_types ns es :
  Designer.validateWorkflow ns es = Some [] →
  (∃ n, n ∈ ns ∧ node_type n = "input"%string) ∧
  (∃ n, n ∈ ns ∧ node_type n = "output"%string).
Proof.
  intros Hvalid.
  destruct (designer_errors_sound ns es [] Hvalid) as (b & _ & Hmem).
  split.
  - destruct (decide (Exists (λ n, node_type n = "input"%string) ns)) as [Hex|Hno].
    + by apply Exists_exists in Hex.
    + exfalso. apply (not_elem_of_nil Msg.no_input), Hmem. left. split; [|done].
      intros Hex. by apply Hno, Exists_exists.
  - destruct (decide (Exists (λ n, node_type n = "output"%string) ns)) as [Hex|Hno].
    + by apply Exists_exists in Hex.
    + exfalso. apply (not_elem_of_nil Msg.no_output), Hmem. right. left.
      split; [|done]. intros Hex. by apply Hno, Exists_exists.
Qed.

Lemma onCycle_source es c : onCycle es c → ∃ e, e ∈ es ∧ source e = c.
Proof.
  intros Hc. inversion Hc as [? ? (e & ? & ? & _)|? ? ? (e & ? & ? & _) _];
    subst; eauto.
Qed.

(** When every edge leaves a node of the array, and no id is an inherited
    name, the frontend and the designer agree on the presence of a cycle. *)
Lemma detectCycle_agree def :
  safeIds def →
  (∀ e, e ∈ edges def → source e ∈ node_id <$> nodes def) →
  Frontend.detectCycle (nodes def) (edges def)
    = buildAdjacency (edges def) ≫= Designer.detectCycle.
Proof.
  intros Hsafe Hsrc.
  destruct (frontend_detectCycle_safe (nodes def) (edges def) Hsafe)
    as (b1 & -> & H1).
  destruct (designer_detectCycle_safe (edges def) (safeIds_edges def Hsafe))
    as (b2 & -> & H2).
  f_equal. apply eq_true_iff_eq. rewrite H1, H2. split.
  - intros (n & c & _ & _ & Hc). eauto.
  - intros (c & Hc). destruct (onCycle_source _ _ Hc) as (e & He & <-).
    apply Hsrc, list_elem_of_fmap in He as (n & Hid & Hn).
    exists n, (source e). rewrite <-Hid. done.
Qed.

(** C8 (amended).  The error list of page.tsx is the error list of
    WorkflowBuilder.tsx followed, when more than one node has no outgoing
    edge, by the end-node error.  Hence a graph that page.tsx accepts is
    accepted by WorkflowBuilder.tsx, and the two verdicts coincide on graphs
    with at most one end node.  The designer accepts a graph only if it
    has a node of type [input] and a node of type [output]; on graphs whose
    edges all leave nodes of the graph its cycle check gives the result of
    the frontend's.  This holds for every graph whose ids are not names
    inherited from [Object.prototype]; validation throws on those. *)
Theorem C8_validators_compared def :
  safeIds def →
  (∃ errs,
     Builder.validationErrorsOf def = Some errs ∧
     Page.validationErrorsOf def =
       Some (pushIf (bool_decide (1 < List.length (endNodes def)))
               (Msg.end_nodes (List.length (endNodes def))) errs)) ∧
  (∃ vb vp,
     Builder.validateWorkflow def = Some vb ∧
     Page.validateWorkflow def = Some vp ∧
     (isWorkflowValid vp = true → isWorkflowValid vb = true) ∧
     (List.length (endNodes def) ≤ 1 → vp = vb)) ∧
  (Designer.validateWorkflow (nodes def) (edges def) = Some [] →
   (∃ n, n ∈ nodes def ∧ node_type n = "input"%string) ∧
   (∃ n, n ∈ nodes def ∧ node_type n = "output"%string)) ∧
  ((∀ e, e ∈ edges def → source e ∈ node_id <$> nodes def) →
   Frontend.detectCycle (nodes def) (edges def)
     = buildAdjacency (edges def) ≫= Designer.detectCycle).
Proof.
  intros Hsafe.
  destruct (frontend_detectCycle_safe (nodes def) (edges def) Hsafe) as (b & Hb & _).
  split_and!; [| |apply designer_valid_types|].
  - eexists. unfold Builder.validationErrorsOf, Page.validationErrorsOf.
    rewrite Hb. simpl. done.
  - unfold Builder.validateWorkflow, Page.validateWorkflow,
      Builder.validationErrorsOf, Page.validationErrorsOf.
    rewrite Hb. simpl. do 2 eexists. split_and!; [done..| |].
    + unfold setValidation; simpl. rewrite !bool_decide_eq_true.
      unfold pushIf at 1. case_bool_decide; [|done].
      rewrite length_app. simpl. lia.
    + intros Hle. rewrite (bool_decide_eq_false_2 (1 < _)) by lia. done.
  - by apply detectCycle_agree.
Qed.

Lemma C8_witness :
  Frontend.detectCycle (nodes Examples.twoCycle) (edges Examples.twoCycle)
    = buildAdjacency (edges Examples.twoCycle) ≫= Designer.detectCycle ∧
  (∃ n, n ∈ nodes Examples.mockWorkflow ∧ node_type n = "input"%string) ∧
  (∃ n, n ∈ nodes Examples.mockWorkflow ∧ node_type n = "output"%string).
Proof.
  split.
  - apply (C8_validators_compared Examples.twoCycle); [solve_safe|].
    intros e He. vm_compute in He. vm_compute.
    set_unfold in He. destruct He as [->|[->|[]]]; simpl; set_solver.
  - apply (C8_validators_compared Examples.mockWorkflow); [solve_safe|].
    by vm_compute.
Defined.

(** ** Editing the graph *)


Lemma handleConnectNodes_added es s t e :
  Canvas.handleConnectNodes es s t = Canvas.EdgeAdded e →
  source e = s ∧ target e = t ∧ s ≠ t ∧
  ∀ e', e' ∈ es → ¬ (source e' = s ∧ target e' = t).
Proof.
  unfold Canvas.handleConnectNodes.
  destruct (decide (s = t)) as [|Hne]; [done|].
  destruct (List.find _ es) eqn:Hfind; [done|]. intros [= <-].
  split_and!; [done..|]. intros e' He' [Hs Ht].
  rewrite find_None_iff in Hfind. specialize (Hfind e' He').
  rewrite andb_false_iff, !bool_decide_eq_false in Hfind. tauto.
Qed.

Lemma handleConnectNodes_existing es s t :
  (∃ e, e ∈ es ∧ source e = s ∧ target e = t) →
  ∃ toast, Canvas.handleConnectNodes es s t = Canvas.Rejected toast.
Proof.
  intros (e & He & Hs & Ht).
  destruct (Canvas.handleConnectNodes es s t) as [toast|e'] eqn:Hc; [by eexists|].
  apply handleConnectNodes_added in Hc as (_ & _ & _ & Hfree).
  by destruct (Hfree e He).
Qed.

Lemma connectNodes_edges s t def :
  edges (Editor.connectNodes s t def) = edges def ∨
  ∃ e, Canvas.handleConnectNodes (edges def) s t = Canvas.EdgeAdded e ∧
       edges (Editor.connectNodes s t def) = edges def ++ [e].
Proof.
  unfold Editor.connectNodes.
  destruct (Canvas.handleConnectNodes (edges def) s t) eqn:Hc; [by left|].
  right. eauto.
Qed.

Lemma connectNodes_nodes s t def :
  nodes (Editor.connectNodes s t def) = nodes def.
Proof.
  unfold Editor.connectNodes.
  by destruct (Canvas.handleConnectNodes (edges def) s t).
Qed.

Lemma handleNodeUpdated_ids u def :
  node_id <$> nodes (Editor.handleNodeUpdated u def) = node_id <$> nodes def.
Proof.
  simpl. rewrite <-list_fmap_compose. apply list_fmap_ext.
  intros _ node _. simpl. by case_decide.
Qed.


(** Each gesture keeps the graph free of parallel edges. *)
Lemma step_noParallelEdges def op :
  noParallelEdges (edges def) → noParallelEdges (edges (Editor.step def op)).
Proof.
  unfold noParallelEdges. intros Hinv.
  destruct op as [ty n1 n2|u|nodeId|s t|edge]; simpl; try done.
  - eapply sublist_NoDup; [done|]. apply fmap_sublist, sublist_filter.
  - destruct (connectNodes_edges s t def) as [Heq|(e' & Hc & Heq)];
      rewrite Heq; [done|].
    apply handleConnectNodes_added in Hc as (Hs & Ht & _ & Hfree).
    rewrite fmap_app. apply NoDup_app. split_and!; [done| |apply NoDup_singleton].
    intros st (e & -> & He)%list_elem_of_fmap Hst. simpl in Hst.
    apply list_elem_of_singleton in Hst. rewrite Hs, Ht in Hst.
    apply (Hfree e He). by simplify_eq.
  - eapply sublist_NoDup; [done|]. apply fmap_sublist, sublist_filter.
Qed.

(** Each gesture keeps both ends of every edge among the nodes, provided a
    connection is only asked between nodes of the graph. *)
Lemma step_endpointsExist def op :
  match op with
  | Editor.Connect s t => s ∈ node_id <$> nodes def ∧ t ∈ node_id <$> nodes def
  | _ => True
  end →
  endpointsExist def → endpointsExist (Editor.step def op).
Proof.
  intros Hop Hinv. destruct op as [ty n1 n2|u|nodeId|s t|edge].
  - intros e He. simpl in *. destruct (Hinv e He) as [Hs Ht].
    rewrite fmap_app, !elem_of_app. auto.
  - intros e He. simpl Editor.step. rewrite handleNodeUpdated_ids. by apply Hinv.
  - intros e He. simpl in He. apply list_elem_of_filter in He as [[Hs Ht] He].
    simpl.
    destruct (Hinv e He) as [(n1 & Hn1 & ?)%list_elem_of_fmap
                             (n2 & Hn2 & ?)%list_elem_of_fmap].
    split; apply list_elem_of_fmap; [exists n1|exists n2];
      (split; [done|]); apply list_elem_of_filter; (split; [congruence|done]).
  - intros e He. simpl in *. rewrite connectNodes_nodes.
    destruct (connectNodes_edges s t def) as [Heq|(e' & Hc & Heq)];
      rewrite Heq in He; [by apply Hinv|].
    apply elem_of_app in He as [He| ->%list_elem_of_singleton]; [by apply Hinv|].
    apply handleConnectNodes_added in Hc as (-> & -> & _). done.
  - intros e He. simpl in He. apply list_elem_of_filter in He as [_ He].
    by apply Hinv.
Qed.

Lemma run_snoc ops op : Editor.run (ops ++ [op]) = Editor.step (Editor.run ops) op.
Proof. unfold Editor.run. by rewrite foldl_app. Qed.


Lemma run_noParallelEdges ops : noParallelEdges (edges (Editor.run ops)).
Proof.
  induction ops as [|op ops IH] using rev_ind.
  - apply NoDup_nil_2.
  - rewrite run_snoc. by apply step_noParallelEdges.
Qed.




Module EditFacts.
Import Examples.

Example run_twoNodesConnected :
  Editor.run twoNodesConnected =
    mkDefinition
      [mkNode "node_1" "agent" "Agent 1"; mkNode "node_2" "action" "Action 2"]
      [mkEdge "edge_node_1_node_2" "node_1" "node_2"].
Proof. vm_compute. reflexivity. Qed.

Lemma twoNodesConnected_existing :
  Editor.connectsExisting Editor.emptyDefinition twoNodesConnected.
Proof. vm_compute. split_and!; try done; set_solver. Defined.

Lemma fork_endpointsExist : endpointsExist Examples.fork.
Proof.
  intros e He. vm_compute in He. set_unfold in He.
  destruct He as [->|[->|[]]]; vm_compute; set_solver.
Defined.

Lemma twoCycle_has_A_B :
  ∃ e, e ∈ edges Examples.twoCycle ∧ source e = "A" ∧ target e = "B".
Proof. exists (mkEdge "e1" "A" "B"). split; [|done]. simpl. set_solver. Defined.

Lemma twoCycle_noParallel : noParallelEdges (edges Examples.twoCycle).
Proof.
  unfold noParallelEdges. simpl. apply NoDup_cons. split; [set_solver|].
  apply NoDup_singleton.
Defined.
End EditFacts.





(** C9 (as stated, refuted).  In [A -> B], [B -> Z], a graph that the
    validator of WorkflowBuilder.tsx accepts, no node has the id [Z];
    deleting [A] leaves the edge [B -> Z] in place, which references a node
    that is not in the node set. *)
Lemma C9_counterexample :
  Builder.validateWorkflow Examples.danglingEdge = Some (mkValidation true []) ∧
  Editor.handleNodeDeleted "A" Examples.danglingEdge
    = mkDefinition [Examples.nodeB] [mkEdge "e2" "B" "Z"] ∧
  ¬ endpointsExist (Editor.handleNodeDeleted "A" Examples.danglingEdge).
Proof.
  split_and!; [by vm_compute..|].
  intros Hinv. destruct (Hinv (mkEdge "e2" "B" "Z")) as [_ Ht].
  - vm_compute. left.
  - vm_compute in Ht. set_unfold in Ht. naive_solver.
Qed.

(** C9 (amended).  Deleting a node removes exactly the edges that leave or
    enter it and the nodes that carry its id; the other nodes and edges
    stay, in their order.  No remaining edge mentions the deleted id, a
    remaining edge whose end was a node still ends at a node, and therefore
    a graph whose edges all join nodes keeps that property.  The designer's
    [handleDeleteNode] does the same for the selected node. *)
Theorem C9_node_deletion nodeId def :
  let def' := Editor.handleNodeDeleted nodeId def in
  (∀ e, e ∈ edges def' ↔ e ∈ edges def ∧ source e ≠ nodeId ∧ target e ≠ nodeId) ∧
  (∀ n, n ∈ nodes def' ↔ n ∈ nodes def ∧ node_id n ≠ nodeId) ∧
  edges def' `sublist_of` edges def ∧
  nodes def' `sublist_of` nodes def ∧
  (∀ e x, e ∈ edges def' → x = source e ∨ x = target e →
     x ≠ nodeId ∧ (x ∈ node_id <$> nodes def → x ∈ node_id <$> nodes def')) ∧
  (∀ st selected, Designer.selectedNode st = Some selected →
     nodeId = node_id selected →
     def = mkDefinition (Designer.st_nodes st) (Designer.st_edges st) →
     mkDefinition (Designer.st_nodes (Designer.handleDeleteNode st))
                  (Designer.st_edges (Designer.handleDeleteNode st)) = def') ∧
  (endpointsExist def → endpointsExist def').
Proof.
  simpl. split_and!.
  - intros e. rewrite list_elem_of_filter. tauto.
  - intros n. rewrite list_elem_of_filter. tauto.
  - apply sublist_filter.
  - apply sublist_filter.
  - intros e x [[Hs Ht] _]%list_elem_of_filter Hx.
    assert (x ≠ nodeId) as Hne by (by destruct Hx as [->| ->]).
    split; [done|]. intros (n & -> & Hn)%list_elem_of_fmap.
    apply list_elem_of_fmap. exists n. split; [done|].
    by apply list_elem_of_filter.
  - intros st selected Hsel -> ->. unfold Designer.handleDeleteNode.
    by rewrite Hsel.
  - intros Hinv. by apply (step_endpointsExist def (Editor.NodeDeleted nodeId)).
Qed.

Lemma C9_witness :
  endpointsExist (Editor.handleNodeDeleted "B" Examples.fork).
Proof.
  apply (C9_node_deletion "B" Examples.fork).
  exact EditFacts.fork_endpointsExist.
Defined.

(** C10.  When an edge with the same source and the same target exists,
    [handleConnectNodes] rejects the connection and the graph is left as it
    was; connecting never creates a second edge between the same ordered
    pair, so a graph built with the editing handlers never holds two edges
    with the same source and target. *)
Theorem C10_no_duplicate_connection :
  (∀ def s t,
     (∃ e, e ∈ edges def ∧ source e = s ∧ target e = t) →
     (∃ toast, Canvas.handleConnectNodes (edges def) s t = Canvas.Rejected toast) ∧
     Editor.connectNodes s t def = def) ∧
  (∀ def s t, s ≠ t →
     (∃ e, e ∈ edges def ∧ source e = s ∧ target e = t) →
     Canvas.handleConnectNodes (edges def) s t
       = Canvas.Rejected Msg.connection_exists) ∧
  (∀ def s t,
     noParallelEdges (edges def) →
     noParallelEdges (edges (Editor.connectNodes s t def))) ∧
  (∀ ops, noParallelEdges (edges (Editor.run ops))).
Proof.
  split_and!.
  - intros def s t Hex.
    destruct (handleConnectNodes_existing _ _ _ Hex) as [toast Hc].
    split; [by eexists|]. unfold Editor.connectNodes. by rewrite Hc.
  - intros def s t Hne Hex.
    destruct (handleConnectNodes_existing _ _ _ Hex) as [toast Hc].
    rewrite Hc. revert Hc. unfold Canvas.handleConnectNodes.
    rewrite decide_False by done. destruct (List.find _ _); [|done].
    by intros [= <-].
  - intros def s t Hinv.
    by apply (step_noParallelEdges def (Editor.Connect s t)).
  - apply run_noParallelEdges.
Qed.

Lemma C10_witness :
  Editor.connectNodes "A" "B" Examples.twoCycle = Examples.twoCycle ∧
  Canvas.handleConnectNodes (edges Examples.twoCycle) "A" "B"
    = Canvas.Rejected Msg.connection_exists ∧
  noParallelEdges (edges (Editor.connectNodes "B" "A" Examples.twoCycle)).
Proof.
  destruct C10_no_duplicate_connection as (Hrej & Hmsg & Hkeep & _).
  split_and!.
  - apply Hrej, EditFacts.twoCycle_has_A_B.
  - apply Hmsg; [done|]. apply EditFacts.twoCycle_has_A_B.
  - apply Hkeep, EditFacts.twoCycle_noParallel.
Defined.

(** * Further properties of the code *)

(** ** The cycle search *)

Lemma edgeRel_rtc_mono es es' u v :
  (∀ a b, edgeRel es a b → edgeRel es' a b) →
  rtc (edgeRel es) u v → rtc (edgeRel es') u v.
Proof. intros Hsub. by apply rtc_subrel. Qed.

Lemma edgeRel_tc_mono es es' u v :
  (∀ a b, edgeRel es a b → edgeRel es' a b) →
  tc (edgeRel es) u v → tc (edgeRel es') u v.
Proof.
  intros Hsub. induction 1 as [x y Hxy|x y z Hxy _ IH].
  - apply tc_once. by apply Hsub.
  - eapply tc_l; [by apply Hsub|done].
Qed.

(** More nodes and more edges can only add cycles to be found. *)
Lemma frontend_detectCycle_mono ns ns' es es' b' :
  (∀ x, x ∈ node_id <$> ns → x ∈ node_id <$> ns') →
  (∀ a b, edgeRel es a b → edgeRel es' a b) →
  Frontend.detectCycle ns es = Some true →
  Frontend.detectCycle ns' es' = Some b' →
  b' = true.
Proof.
  intros Hns Hes Htrue Heq'.
  apply (frontend_detectCycle_sound _ _ _ Heq').
  destruct (proj1 (frontend_detectCycle_sound _ _ _ Htrue))
    as (n & c & Hn & Hreach & Hcyc); [done|].
  assert (node_id n ∈ node_id <$> ns') as (n' & Hid & Hn')%list_elem_of_fmap.
  { apply Hns. by apply list_elem_of_fmap_2. }
  exists n', c. rewrite <-Hid. split_and!; [done| |].
  - by eapply edgeRel_rtc_mono.
  - by eapply edgeRel_tc_mono.
Qed.

Lemma safeIds_ext ns ns' es es' :
  (∀ x, x ∈ node_id <$> ns ↔ x ∈ node_id <$> ns') →
  (∀ p, p ∈ (λ e, (source e, target e)) <$> es ↔
        p ∈ (λ e, (source e, target e)) <$> es') →
  safeIds (mkDefinition ns es) → safeIds (mkDefinition ns' es').
Proof.
  intros Hns Hes [Hnodes Hedges]. simpl in *. split; simpl.
  - apply Forall_forall. intros n' Hn'.
    assert (node_id n' ∈ node_id <$> ns) as (n & -> & Hn)%list_elem_of_fmap.
    { apply Hns. by apply list_elem_of_fmap_2. }
    by apply (proj1 (Forall_forall _ _) Hnodes n Hn).
  - apply Forall_forall. intros e' He'.
    assert ((source e', target e') ∈ (λ e, (source e, target e)) <$> es)
      as (e & [= -> ->] & He)%list_elem_of_fmap.
    { apply Hes. by apply (list_elem_of_fmap_2 (λ e, (source e, target e))). }
    by apply (proj1 (Forall_forall _ _) Hedges e He).
Qed.

Lemma edgeRel_pairs es es' :
  (∀ p, p ∈ (λ e, (source e, target e)) <$> es →
        p ∈ (λ e, (source e, target e)) <$> es') →
  ∀ a b, edgeRel es a b → edgeRel es' a b.
Proof.
  intros Hes a b (e & He & <- & <-).
  destruct (proj1 (list_elem_of_fmap _ _ _)
              (Hes _ (list_elem_of_fmap_2 (λ e, (source e, target e)) _ _ He)))
    as (e' & [= Hs Ht] & He').
  by exists e'.
Qed.

(** X1.  [detectCycle(nodes, edges)] of WorkflowBuilder.tsx and page.tsx
    returns whenever no node id and no end of an edge is a name inherited
    from [Object.prototype]; it then returns [true] exactly when some node
    of the array reaches a directed cycle, and [false] exactly when none
    does. *)
Theorem frontend_detectCycle_exact ns es :
  safeIds (mkDefinition ns es) →
  (∃ b, Frontend.detectCycle ns es = Some b) ∧
  (Frontend.detectCycle ns es = Some true ↔
   ∃ n c, n ∈ ns ∧ rtc (edgeRel es) (node_id n) c ∧ onCycle es c) ∧
  (Frontend.detectCycle ns es = Some false ↔
   ∀ n c, n ∈ ns → rtc (edgeRel es) (node_id n) c → ¬ onCycle es c).
Proof.
  intros Hsafe.
  destruct (frontend_detectCycle_safe ns es Hsafe) as (b & -> & Hb).
  split_and!; [by eexists| |].
  - rewrite <-Hb. split; [by intros [= ->]|by intros ->].
  - split.
    + intros [= ->] n c Hn Hreach Hcyc.
      assert (false = true); [|done]. apply Hb. eauto.
    + intros Hnone. destruct b; [|done]. exfalso.
      destruct Hb as [(n & c & Hn & Hreach & Hcyc) _]; [done|].
      by eapply Hnone.
Qed.

Lemma frontend_detectCycle_exact_witness :
  ∃ b, Frontend.detectCycle (nodes Examples.detachedCycle)
         (edges Examples.detachedCycle) = Some b.
Proof.
  apply (frontend_detectCycle_exact (nodes Examples.detachedCycle)
           (edges Examples.detachedCycle)).
  solve_safe.
Defined.

(** X2.  [detectCycle(graph)] of the designer, run on the adjacency list
    that [validateWorkflow] builds, returns whenever no end of an edge is a
    name inherited from [Object.prototype]; it then returns [true] exactly
    when the edges hold a directed cycle, wherever it lies. *)
Theorem designer_detectCycle_exact es :
  safeEdges es →
  (∃ b, buildAdjacency es ≫= Designer.detectCycle = Some b) ∧
  (buildAdjacency es ≫= Designer.detectCycle = Some true ↔ ∃ c, onCycle es c) ∧
  (buildAdjacency es ≫= Designer.detectCycle = Some false ↔ acyclic es).
Proof.
  intros Hsafe.
  destruct (designer_detectCycle_safe es Hsafe) as (b & -> & Hb).
  split_and!; [by eexists| |].
  - rewrite <-Hb. split; [by intros [= ->]|by intros ->].
  - split.
    + intros [= ->] c Hcyc. assert (false = true); [|done]. apply Hb. eauto.
    + intros Hnone. destruct b; [|done]. exfalso.
      destruct Hb as [(c & Hcyc) _]; [done|]. by eapply Hnone.
Qed.

Lemma designer_detectCycle_exact_witness :
  ∃ b, buildAdjacency (edges Examples.detachedCycle) ≫= Designer.detectCycle = Some b.
Proof.
  apply (designer_detectCycle_exact (edges Examples.detachedCycle)).
  solve_safe.
Defined.

Lemma forKeys_cover_spec graph ks :
  (∀ x, x ∈ mjoin (snd <$> graph) → ¬ inheritedIn graph x) →
  (∀ k, k ∈ ks ↔ is_Some (JsObject.getOwn graph k)) →
  ∃ b, Designer.forKeys graph (Designer.graphFuel graph) ks dfs_init = Some b ∧
    (b = true ↔ ∃ c, tc (succRel graph) c c).
Proof.
  intros Hsafe Hks.
  destruct (forKeys_graph_spec graph ks)
    as [(b & Heq & Hpost)|[_ (x & Hx & Hinh)]]; [by intros k ?%Hks| |].
  - exists b. split; [done|]. destruct b.
    + split; [|done]. intros _. destruct Hpost as (k & _ & c & _ & Hcc). eauto.
    + split; [done|]. intros (c & Hcc). exfalso.
      apply (Hpost c); [by apply Hks, cycle_through_key|by exists c].
  - by destruct (Hsafe x Hx).
Qed.

(** X3.  When no target stored in the graph is a name that the graph
    inherits, the result of the designer's [detectCycle] does not depend
    on the order in which [for (const node in graph)] hands out the keys:
    any enumeration of the keys, in any order and with repetitions, gives
    the result of the enumeration the engine uses. *)
Theorem designer_detectCycle_any_key_order graph ks :
  (∀ x, x ∈ mjoin (snd <$> graph) → ¬ inheritedIn graph x) →
  (∀ k, k ∈ ks ↔ is_Some (JsObject.getOwn graph k)) →
  Designer.forKeys graph (Designer.graphFuel graph) ks dfs_init
    = Designer.detectCycle graph.
Proof.
  intros Hsafe Hks.
  destruct (forKeys_cover_spec graph ks Hsafe Hks) as (b & -> & Hb).
  destruct (forKeys_cover_spec graph (JsObject.keys graph) Hsafe)
    as (b' & Heq & Hb').
  { intros k. apply elem_of_keys. }
  unfold Designer.detectCycle. rewrite Heq. f_equal.
  apply eq_true_iff_eq. by rewrite Hb, Hb'.
Qed.

Lemma designer_detectCycle_any_key_order_witness :
  Designer.forKeys [("S", ["A"]); ("A", ["B"]); ("B", ["A"])]%string
    (Designer.graphFuel [("S", ["A"]); ("A", ["B"]); ("B", ["A"])]%string)
    ["B"; "S"; "A"; "S"]%string dfs_init
  = Designer.detectCycle [("S", ["A"]); ("A", ["B"]); ("B", ["A"])]%string.
Proof.
  apply designer_detectCycle_any_key_order.
  - intros x Hx. simpl in Hx. set_unfold in Hx.
    destruct Hx as [->|[->|[->|[]]]]; by vm_compute.
  - intros k. rewrite get_is_Some. simpl. set_solver.
Defined.

(** X4.  For ids that are not names inherited from [Object.prototype],
    the result of the frontend [detectCycle] depends only on the set of
    node ids and on the set of (source, target) pairs: the order of the
    two arrays, repeated entries, edge ids, labels and types are without
    influence. *)
Theorem frontend_detectCycle_ids_only ns ns' es es' :
  safeIds (mkDefinition ns es) →
  (∀ x, x ∈ node_id <$> ns ↔ x ∈ node_id <$> ns') →
  (∀ p, p ∈ (λ e, (source e, target e)) <$> es ↔
        p ∈ (λ e, (source e, target e)) <$> es') →
  Frontend.detectCycle ns es = Frontend.detectCycle ns' es'.
Proof.
  intros Hsafe Hns Hes.
  pose proof (safeIds_ext ns ns' es es' Hns Hes Hsafe) as Hsafe'.
  destruct (frontend_detectCycle_safe ns es Hsafe) as (b & Heq & _).
  destruct (frontend_detectCycle_safe ns' es' Hsafe') as (b' & Heq' & _).
  rewrite Heq, Heq'. f_equal. destruct b, b'; try done.
  - symmetry. eapply (frontend_detectCycle_mono ns ns' es es'); [| |done..].
    + intros x. by apply Hns.
    + apply edgeRel_pairs. intros p. by apply Hes.
  - eapply (frontend_detectCycle_mono ns' ns es' es); [| |done..].
    + intros x. by apply Hns.
    + apply edgeRel_pairs. intros p. by apply Hes.
Qed.

Lemma frontend_detectCycle_ids_only_witness :
  Frontend.detectCycle (nodes Examples.twoCycle) (edges Examples.twoCycle) =
  Frontend.detectCycle
    [mkNode "B" "end" "renamed"; mkNode "A" "human" "other"; mkNode "B" "x" "y"]%string
    [mkEdge "k1" "B" "A"; mkEdge "k2" "A" "B"; mkEdge "k3" "B" "A"]%string.
Proof.
  apply frontend_detectCycle_ids_only.
  - solve_safe.
  - intros x. simpl. set_solver.
  - intros p. simpl. set_solver.
Defined.

(** ** The adjacency object *)

Lemma snd_index_keys ks :
  snd <$> JsObject.index_keys ks = filter (λ k, is_Some (JsObject.array_index k)) ks.
Proof.
  unfold JsObject.index_keys. induction ks as [|k ks IH]; [done|].
  rewrite filter_cons. cbn [omap list_omap].
  destruct (JsObject.array_index k) as [n|] eqn:Hidx; cbn [fmap option_fmap option_map].
  - destruct (decide (is_Some (Some n))) as [_|[]]; [|eauto].
    rewrite fmap_cons. cbn [snd]. by rewrite <-IH.
  - destruct (decide (is_Some (@None N))) as [[? ?]|_]; [done|]. exact IH.
Qed.

(** [for ... in] hands out every key once. *)
Lemma keys_NoDup {A} (o : JsObject.t A) :
  NoDup (fst <$> o) → NoDup (JsObject.keys o).
Proof.
  intros Hnd. unfold JsObject.keys. apply NoDup_app. split_and!.
  - rewrite merge_sort_Permutation, snd_index_keys.
    eapply sublist_NoDup; [done|apply sublist_filter].
  - intros k. rewrite merge_sort_Permutation, snd_index_keys.
    unfold JsObject.string_keys. rewrite !list_elem_of_filter.
    intros [[n Hn] _] [Hnone _]. congruence.
  - eapply sublist_NoDup; [done|apply sublist_filter].
Qed.

(** X5.  Building the adjacency object throws exactly when the source of
    some edge is a name inherited from [Object.prototype].  Otherwise the
    object stores, under each source id, the targets of the edges that
    leave it, in the order of the array and with repetitions; an id that
    no edge leaves has no entry; the enumeration of the keys yields every
    source id exactly once; and the loop over the neighbours of an id runs
    over the stored targets, or throws when the id is an inherited name. *)
Theorem buildAdjacency_lookup es :
  (buildAdjacency es = None ↔
   ∃ e, e ∈ es ∧ source e ∈ JsObject.prototypeNames) ∧
  ∀ graph, buildAdjacency es = Some graph →
    (∀ s, storedNeighbors graph s = target <$> filter (λ e, source e = s) es) ∧
    (∀ s, JsObject.getOwn graph s = None ↔ ∀ e, e ∈ es → source e ≠ s) ∧
    NoDup (JsObject.keys graph) ∧
    (∀ s, s ∈ JsObject.keys graph ↔ ∃ e, e ∈ es ∧ source e = s) ∧
    (∀ s, neighborsOf graph s =
            if decide (s ∈ JsObject.prototypeNames) then None
            else Some (target <$> filter (λ e, source e = s) es)).
Proof.
  split; [apply buildAdjacency_None|]. intros graph Hb. split_and!.
  - intros s. by apply storedNeighbors_build.
  - intros s. rewrite eq_None_not_Some, (buildAdjacency_is_key _ _ _ Hb).
    naive_solver.
  - by eapply keys_NoDup, buildAdjacency_keys_NoDup.
  - intros s. rewrite elem_of_keys. by apply buildAdjacency_is_key.
  - intros s. destruct (neighborsOf_cases graph s) as [[-> Hno]|[-> Hinh]].
    + rewrite (inheritedIn_build _ _ _ Hb) in Hno.
      rewrite decide_False by done. by rewrite (storedNeighbors_build _ _ _ Hb).
    + rewrite (inheritedIn_build _ _ _ Hb) in Hinh. by rewrite decide_True.
Qed.

Lemma buildAdjacency_lookup_witness :
  neighborsOf [("S", ["A"]); ("A", ["B"]); ("B", ["A"])]%string "A"%string
    = Some ["B"%string] ∧
  neighborsOf [("S", ["A"]); ("A", ["B"]); ("B", ["A"])]%string "toString"%string
    = None.
Proof.
  destruct (buildAdjacency_lookup (edges Examples.entryThenCycle)) as [_ Hgraph].
  destruct (Hgraph [("S", ["A"]); ("A", ["B"]); ("B", ["A"])]%string)
    as (_ & _ & _ & _ & Hn); [reflexivity|].
  split; [apply (Hn "A"%string)|apply (Hn "toString"%string)].
Defined.

(** ** What a valid workflow is *)

Lemma disconnectedNodes_nil def :
  disconnectedNodes def = [] ↔
  ∀ n, n ∈ nodes def → touched (edges def) (node_id n).
Proof.
  unfold disconnectedNodes, touched. split.
  - intros Hnil n Hn. apply elem_of_connectedNodes.
    destruct (decide (node_id n ∈ connectedNodes (edges def))) as [|Hnot]; [done|].
    assert (n ∈ filter (λ node, node_id node ∉ connectedNodes (edges def)) (nodes def))
      as Hin by by apply list_elem_of_filter.
    rewrite Hnil in Hin. by apply elem_of_nil in Hin.
  - intros Hall. apply elem_of_nil_inv. intros n [Hnot Hn]%list_elem_of_filter.
    apply Hnot, elem_of_connectedNodes. by apply Hall.
Qed.

Lemma setValidation_valid errs :
  isWorkflowValid (setValidation errs) = true ↔ ∀ m, m ∉ errs.
Proof.
  unfold setValidation. simpl. rewrite bool_decide_eq_true. split.
  - intros ->%nil_length_inv m. apply not_elem_of_nil.
  - by intros ->%elem_of_nil_inv.
Qed.

Lemma frontend_no_cycle_found ns es b :
  Frontend.detectCycle ns es = Some b →
  (b = false ↔
   ∀ n c, n ∈ ns → rtc (edgeRel es) (node_id n) c → ¬ onCycle es c).
Proof.
  intros Hb%frontend_detectCycle_sound. split.
  - intros -> n c Hn Hreach Hcyc.
    assert (false = true); [|done]. apply Hb. eauto.
  - intros Hnone. destruct b; [|done]. exfalso.
    destruct Hb as [(n & c & Hn & Hreach & Hcyc) _]; [done|].
    by eapply Hnone.
Qed.

(** The verdict of WorkflowBuilder.tsx, in terms of the graph. *)
Lemma builder_valid_cond def vs :
  Builder.validateWorkflow def = Some vs →
  (isWorkflowValid vs = true ↔
   (∀ n c, n ∈ nodes def → rtc (edgeRel (edges def)) (node_id n) c →
           ¬ onCycle (edges def) c) ∧
   (∀ n, n ∈ nodes def → touched (edges def) (node_id n)) ∧
   List.length (startNodes def) ≤ 1).
Proof.
  unfold Builder.validateWorkflow.
  destruct (Builder.validationErrorsOf def) as [errs|] eqn:Herrs; [|done].
  intros [= <-].
  destruct (builder_errors_sound def errs Herrs) as (b & Hb & Hmem).
  rewrite setValidation_valid, <-(frontend_no_cycle_found _ _ _ Hb),
    <-disconnectedNodes_nil.
  split.
  - intros Hnone. split_and!.
    + destruct b; [|done]. exfalso. apply (Hnone Msg.cycle), Hmem. by left.
    + destruct (disconnectedNodes def) as [|d ds] eqn:Hd; [done|]. exfalso.
      apply (Hnone (Msg.disconnected (d :: ds))), Hmem. right; left. done.
    + destruct (decide (1 < List.length (startNodes def))) as [Hlt|]; [|lia].
      exfalso. eapply Hnone, Hmem. right; right. done.
  - intros (-> & Hd & Hlen) m [[? _]|[[? _]|[? _]]]%Hmem; [done|done|lia].
Qed.

(** The verdict of page.tsx, in terms of the graph. *)
Lemma page_valid_cond def vs :
  Page.validateWorkflow def = Some vs →
  (isWorkflowValid vs = true ↔
   (∀ n c, n ∈ nodes def → rtc (edgeRel (edges def)) (node_id n) c →
           ¬ onCycle (edges def) c) ∧
   (∀ n, n ∈ nodes def → touched (edges def) (node_id n)) ∧
   List.length (startNodes def) ≤ 1 ∧
   List.length (endNodes def) ≤ 1).
Proof.
  unfold Page.validateWorkflow.
  destruct (Page.validationErrorsOf def) as [errs|] eqn:Herrs; [|done].
  intros [= <-].
  destruct (page_errors_sound def errs Herrs) as (b & Hb & Hmem).
  rewrite setValidation_valid, <-(frontend_no_cycle_found _ _ _ Hb),
    <-disconnectedNodes_nil.
  split.
  - intros Hnone. split_and!.
    + destruct b; [|done]. exfalso. apply (Hnone Msg.cycle), Hmem. by left.
    + destruct (disconnectedNodes def) as [|d ds] eqn:Hd; [done|]. exfalso.
      apply (Hnone (Msg.disconnected (d :: ds))), Hmem. right; left. done.
    + destruct (decide (1 < List.length (startNodes def))) as [Hlt|]; [|lia].
      exfalso. eapply Hnone, Hmem. right; right; left. done.
    + destruct (decide (1 < List.length (endNodes def))) as [Hlt|]; [|lia].
      exfalso. eapply Hnone, Hmem. right; right; right. done.
  - intros (-> & Hd & Hlen & Hlen') m
      [[? _]|[[? _]|[[? _]|[? _]]]]%Hmem; [done|done|lia|lia].
Qed.

Lemma setValidation_valid_nil errs :
  isWorkflowValid (setValidation errs) = true ↔ validationErrors (setValidation errs) = [].
Proof.
  unfold setValidation. simpl. rewrite bool_decide_eq_true.
  split; [apply nil_length_inv|by intros ->].
Qed.

(** With ids that are not inherited names the frontend validators come to
    a verdict. *)
Lemma builder_validate_safe def :
  safeIds def → ∃ vs, Builder.validateWorkflow def = Some vs.
Proof.
  intros Hsafe.
  destruct (builder_errors_spec def Hsafe) as (b & errs & _ & Herrs & _).
  unfold Builder.validateWorkflow. rewrite Herrs. by eexists.
Qed.

Lemma page_validate_safe def :
  safeIds def → ∃ vs, Page.validateWorkflow def = Some vs.
Proof.
  intros Hsafe.
  destruct (page_errors_spec def Hsafe) as (b & errs & _ & Herrs & _).
  unfold Page.validateWorkflow. rewrite Herrs. by eexists.
Qed.

(** X6.  For a workflow whose ids are not names inherited from
    [Object.prototype], [validateWorkflow] of WorkflowBuilder.tsx comes to
    a verdict; the workflow is declared valid exactly when the list of
    errors is empty, which is the case exactly when no node reaches a
    directed cycle, every node is an end of some edge, and at most one node
    has no incoming edge. *)
Theorem builder_valid_iff def :
  safeIds def →
  ∃ vs, Builder.validateWorkflow def = Some vs ∧
    (isWorkflowValid vs = true ↔ validationErrors vs = []) ∧
    (validationErrors vs = [] ↔
     (∀ n c, n ∈ nodes def → rtc (edgeRel (edges def)) (node_id n) c →
             ¬ onCycle (edges def) c) ∧
     (∀ n, n ∈ nodes def → touched (edges def) (node_id n)) ∧
     List.length (startNodes def) ≤ 1).
Proof.
  intros Hsafe. destruct (builder_validate_safe def Hsafe) as (vs & Hvs).
  pose proof (builder_valid_cond def vs Hvs) as Hiff.
  exists vs. split; [done|].
  assert (isWorkflowValid vs = true ↔ validationErrors vs = []) as Hnil.
  { unfold Builder.validateWorkflow in Hvs.
    destruct (Builder.validationErrorsOf def) as [errs|]; [|done].
    injection Hvs as <-. apply setValidation_valid_nil. }
  split; [done|]. by rewrite <-Hnil.
Qed.

Lemma builder_valid_iff_witness :
  ∃ vs, Builder.validateWorkflow Examples.detachedCycle = Some vs ∧
    (isWorkflowValid vs = true ↔ validationErrors vs = []) ∧
    (validationErrors vs = [] ↔
     (∀ n c, n ∈ nodes Examples.detachedCycle →
             rtc (edgeRel (edges Examples.detachedCycle)) (node_id n) c →
             ¬ onCycle (edges Examples.detachedCycle) c) ∧
     (∀ n, n ∈ nodes Examples.detachedCycle →
           touched (edges Examples.detachedCycle) (node_id n)) ∧
     List.length (startNodes Examples.detachedCycle) ≤ 1).
Proof. apply (builder_valid_iff Examples.detachedCycle). solve_safe. Defined.

(** X7.  For a workflow whose ids are not names inherited from
    [Object.prototype], [validateWorkflow] of page.tsx comes to a verdict;
    the workflow is declared valid exactly when the list of errors is
    empty, which is the case exactly when no node reaches a directed cycle,
    every node is an end of some edge, at most one node has no incoming
    edge and at most one node has no outgoing edge. *)
Theorem page_valid_iff def :
  safeIds def →
  ∃ vs, Page.validateWorkflow def = Some vs ∧
    (isWorkflowValid vs = true ↔ validationErrors vs = []) ∧
    (validationErrors vs = [] ↔
     (∀ n c, n ∈ nodes def → rtc (edgeRel (edges def)) (node_id n) c →
             ¬ onCycle (edges def) c) ∧
     (∀ n, n ∈ nodes def → touched (edges def) (node_id n)) ∧
     List.length (startNodes def) ≤ 1 ∧
     List.length (endNodes def) ≤ 1).
Proof.
  intros Hsafe. destruct (page_validate_safe def Hsafe) as (vs & Hvs).
  pose proof (page_valid_cond def vs Hvs) as Hiff.
  exists vs. split; [done|].
  assert (isWorkflowValid vs = true ↔ validationErrors vs = []) as Hnil.
  { unfold Page.validateWorkflow in Hvs.
    destruct (Page.validationErrorsOf def) as [errs|]; [|done].
    injection Hvs as <-. apply setValidation_valid_nil. }
  split; [done|]. by rewrite <-Hnil.
Qed.

Lemma page_valid_iff_witness :
  ∃ vs, Page.validateWorkflow Examples.fork = Some vs ∧
    (isWorkflowValid vs = true ↔ validationErrors vs = []) ∧
    (validationErrors vs = [] ↔
     (∀ n c, n ∈ nodes Examples.fork →
             rtc (edgeRel (edges Examples.fork)) (node_id n) c →
             ¬ onCycle (edges Examples.fork) c) ∧
     (∀ n, n ∈ nodes Examples.fork →
           touched (edges Examples.fork) (node_id n)) ∧
     List.length (startNodes Examples.fork) ≤ 1 ∧
     List.length (endNodes Examples.fork) ≤ 1).
Proof. apply (page_valid_iff Examples.fork). solve_safe. Defined.

(** The empty error list of the designer, in terms of the graph. *)
Lemma designer_valid_cond ns es errs :
  Designer.validateWorkflow ns es = Some errs →
  (errs = [] ↔
   (∃ n, n ∈ ns ∧ node_type n = "input"%string) ∧
   (∃ n, n ∈ ns ∧ node_type n = "output"%string) ∧
   (∀ n, n ∈ ns → touched es (node_id n)) ∧
   acyclic es).
Proof.
  intros Herrs.
  destruct (designer_errors_sound ns es errs Herrs) as (b & Hb & Hmem).
  pose proof (disconnectedNodes_nil (mkDefinition ns es)) as Hdisc. simpl in Hdisc.
  rewrite <-Hdisc. clear Hdisc.
  assert (∀ ty, Decision (∃ n, n ∈ ns ∧ node_type n = ty)) as Hdec.
  { intros ty. destruct (decide (Exists (λ n, node_type n = ty) ns)) as [H|H];
      rewrite Exists_exists in H; [by left|by right]. }
  assert (acyclic es ↔ b = false) as ->.
  { pose proof (designer_detectCycle_sound es b Hb) as Hcyc.
    unfold acyclic. split.
    - intros Hac. destruct b; [|done]. destruct Hcyc as [(c & Hc) _]; [done|].
      by destruct (Hac c).
    - intros -> c Hc. assert (false = true); [|done]. apply Hcyc. eauto. }
  split.
  - intros ->. split_and!.
    + destruct (Hdec "input"%string) as [|Hno]; [done|]. exfalso.
      eapply elem_of_nil, Hmem. left. done.
    + destruct (Hdec "output"%string) as [|Hno]; [done|]. exfalso.
      eapply elem_of_nil, Hmem. right; left. done.
    + destruct (disconnectedNodes _) as [|d ds] eqn:Hd; [done|]. exfalso.
      eapply elem_of_nil, Hmem. right; right; left. done.
    + destruct b; [|done]. exfalso.
      eapply elem_of_nil, Hmem. right; right; right. done.
  - intros (Hin & Hout & Hd & ->). apply elem_of_nil_inv.
    intros m [[? _]|[[? _]|[[? _]|[? _]]]]%Hmem; done.
Qed.

(** X8.  When no end of an edge is a name inherited from
    [Object.prototype], [validateWorkflow] of the designer returns a list
    of errors, and the list is empty exactly when some node has type
    [input], some node has type [output], every node is an end of some
    edge, and the edges hold no directed cycle. *)
Theorem designer_valid_iff ns es :
  safeEdges es →
  ∃ errs, Designer.validateWorkflow ns es = Some errs ∧
    (errs = [] ↔
     (∃ n, n ∈ ns ∧ node_type n = "input"%string) ∧
     (∃ n, n ∈ ns ∧ node_type n = "output"%string) ∧
     (∀ n, n ∈ ns → touched es (node_id n)) ∧
     acyclic es).
Proof.
  intros Hsafe.
  destruct (designer_errors_spec ns es Hsafe) as (b & errs & _ & Herrs & _).
  exists errs. split; [done|]. by apply designer_valid_cond.
Qed.

Lemma designer_valid_iff_witness :
  ∃ errs,
    Designer.validateWorkflow (nodes Examples.mockWorkflow)
      (edges Examples.mockWorkflow) = Some errs ∧
    (errs = [] ↔
     (∃ n, n ∈ nodes Examples.mockWorkflow ∧ node_type n = "input"%string) ∧
     (∃ n, n ∈ nodes Examples.mockWorkflow ∧ node_type n = "output"%string) ∧
     (∀ n, n ∈ nodes Examples.mockWorkflow →
           touched (edges Examples.mockWorkflow) (node_id n)) ∧
     acyclic (edges Examples.mockWorkflow)).
Proof.
  apply (designer_valid_iff (nodes Examples.mockWorkflow) (edges Examples.mockWorkflow)).
  solve_safe.
Defined.

(** ** The shape of a valid workflow *)

Lemma tc_flip {A} (R : relation A) x y : tc (flip R) x y → tc R y x.
Proof.
  induction 1 as [x y Hxy|x y z Hxy _ IH]; [by apply tc_once|].
  by eapply tc_r.
Qed.

(** In a graph without cycles the walk against the edges comes to an end. *)
Lemma acyclic_backward_acc es x : acyclic es → Acc (edgeRel es) x.
Proof.
  intros Hac.
  assert (sn (flip (edgeRel es)) x) as Hsn; [|exact Hsn].
  apply tc_finite_sn.
  - intros c Hc. apply tc_flip in Hc. by apply (Hac c).
  - exists (source <$> es). intros y Hy.
    induction Hy as [a b (e & He & Hs & _)|a b c _ _ IH]; [|done].
    subst. by apply list_elem_of_fmap_2.
Qed.

(** So does the walk along the edges. *)
Lemma acyclic_forward_acc es x : acyclic es → Acc (flip (edgeRel es)) x.
Proof.
  intros Hac.
  assert (sn (edgeRel es) x) as Hsn; [|exact Hsn].
  apply tc_finite_sn.
  - intros c Hc. by apply (Hac c).
  - exists (target <$> es). intros y Hy.
    induction Hy as [a b (e & He & _ & Ht)|a b c _ _ IH]; [|done].
    subst. by apply list_elem_of_fmap_2.
Qed.

(** When every edge leaves a node, a cycle is always within reach of a
    node. *)
Lemma no_reachable_cycle_acyclic def :
  (∀ e, e ∈ edges def → source e ∈ node_id <$> nodes def) →
  (∀ n c, n ∈ nodes def → rtc (edgeRel (edges def)) (node_id n) c →
          ¬ onCycle (edges def) c) →
  acyclic (edges def).
Proof.
  intros Hsrc Hnone c Hc.
  destruct (onCycle_source _ _ Hc) as (e & He & <-).
  pose proof (Hsrc e He) as (n & Hid & Hn)%list_elem_of_fmap.
  apply (Hnone n (source e)); [done| |done]. by rewrite Hid.
Qed.

Lemma entry_reaches def x :
  acyclic (edges def) →
  (∀ e, e ∈ edges def → source e ∈ node_id <$> nodes def) →
  x ∈ node_id <$> nodes def →
  ∃ entry, isEntry def entry ∧ rtc (edgeRel (edges def)) (node_id entry) x.
Proof.
  intros Hac Hsrc. induction (acyclic_backward_acc (edges def) x Hac) as [x _ IH].
  intros (n & -> & Hn)%list_elem_of_fmap.
  destruct (decide (Exists (λ e, target e = node_id n) (edges def))) as [Hex|Hno].
  - apply Exists_exists in Hex as (e & He & Ht).
    destruct (IH (source e)) as (entry & Hentry & Hreach).
    + by exists e.
    + by apply Hsrc.
    + exists entry. split; [done|]. eapply rtc_r; [done|]. by exists e.
  - exists n. split; [|done]. split; [done|].
    intros e He Ht. apply Hno, Exists_exists. eauto.
Qed.

Lemma reaches_terminal def x :
  acyclic (edges def) →
  (∀ e, e ∈ edges def → target e ∈ node_id <$> nodes def) →
  x ∈ node_id <$> nodes def →
  ∃ final, isTerminal def final ∧ rtc (edgeRel (edges def)) x (node_id final).
Proof.
  intros Hac Htgt. induction (acyclic_forward_acc (edges def) x Hac) as [x _ IH].
  intros (n & -> & Hn)%list_elem_of_fmap.
  destruct (decide (Exists (λ e, source e = node_id n) (edges def))) as [Hex|Hno].
  - apply Exists_exists in Hex as (e & He & Hs).
    destruct (IH (target e)) as (final & Hfinal & Hreach).
    + by exists e.
    + by apply Htgt.
    + exists final. split; [done|]. eapply rtc_l; [|done]. by exists e.
  - exists n. split; [|done]. split; [done|].
    intros e He Hs. apply Hno, Exists_exists. eauto.
Qed.

Lemma length_le_1_singleton {A} (l : list A) x :
  List.length l ≤ 1 → x ∈ l → l = [x].
Proof.
  destruct l as [|y [|z l]]; simpl; [by intros _ ?%elem_of_nil| |lia].
  by intros _ ->%list_elem_of_singleton.
Qed.

(** X9.  A workflow with at least one node that WorkflowBuilder.tsx
    declares valid, and whose edges all leave nodes of the workflow, has
    exactly one node without incoming edge, and every node is reached
    from it along the edges. *)
Theorem builder_valid_single_entry def vs :
  nodes def ≠ [] →
  (∀ e, e ∈ edges def → source e ∈ node_id <$> nodes def) →
  Builder.validateWorkflow def = Some vs →
  isWorkflowValid vs = true →
  ∃ entry, startNodes def = [entry] ∧
    ∀ n, n ∈ nodes def → rtc (edgeRel (edges def)) (node_id entry) (node_id n).
Proof.
  intros Hne Hsrc Hvs Hvalid.
  apply (builder_valid_cond def vs Hvs) in Hvalid as (Hnone & _ & Hlen).
  pose proof (no_reachable_cycle_acyclic def Hsrc Hnone) as Hac.
  assert (∀ n, n ∈ nodes def →
    ∃ entry, startNodes def = [entry] ∧
      rtc (edgeRel (edges def)) (node_id entry) (node_id n)) as Hone.
  { intros n Hn.
    destruct (entry_reaches def (node_id n) Hac Hsrc) as (entry & Hentry & Hreach).
    { by apply list_elem_of_fmap_2. }
    exists entry. split; [|done].
    apply length_le_1_singleton; [done|]. by apply elem_of_startNodes. }
  destruct (nodes def) as [|n0 ns] eqn:Hnodes; [done|].
  destruct (Hone n0) as (entry & Hstart & _); [by left|].
  exists entry. split; [done|]. intros n Hn.
  destruct (Hone n Hn) as (entry' & Hstart' & Hreach). congruence.
Qed.

Lemma builder_valid_single_entry_witness :
  ∃ entry, startNodes Examples.fork = [entry] ∧
    ∀ n, n ∈ nodes Examples.fork →
      rtc (edgeRel (edges Examples.fork)) (node_id entry) (node_id n).
Proof.
  apply (builder_valid_single_entry Examples.fork (mkValidation true [])).
  - done.
  - intros e He. simpl in He. simpl.
    repeat (apply elem_of_cons in He as [->|He]; [set_solver|]).
    by apply elem_of_nil in He.
  - reflexivity.
  - reflexivity.
Defined.

(** X10.  A workflow with at least one node that page.tsx declares valid,
    and whose edges all join nodes of the workflow, has exactly one node
    without incoming edge and exactly one node without outgoing edge;
    every node lies on a path from the first to the second. *)
Theorem page_valid_single_entry_and_end def vs :
  nodes def ≠ [] →
  endpointsExist def →
  Page.validateWorkflow def = Some vs →
  isWorkflowValid vs = true →
  ∃ entry final, startNodes def = [entry] ∧ endNodes def = [final] ∧
    ∀ n, n ∈ nodes def →
      rtc (edgeRel (edges def)) (node_id entry) (node_id n) ∧
      rtc (edgeRel (edges def)) (node_id n) (node_id final).
Proof.
  intros Hne Hends Hvs Hvalid.
  apply (page_valid_cond def vs Hvs) in Hvalid as (Hnone & _ & Hlen & Hlen').
  assert (∀ e, e ∈ edges def → source e ∈ node_id <$> nodes def) as Hsrc
    by (intros e He; by destruct (Hends e He)).
  assert (∀ e, e ∈ edges def → target e ∈ node_id <$> nodes def) as Htgt
    by (intros e He; by destruct (Hends e He)).
  pose proof (no_reachable_cycle_acyclic def Hsrc Hnone) as Hac.
  assert (∀ n, n ∈ nodes def →
    ∃ entry final, startNodes def = [entry] ∧ endNodes def = [final] ∧
      rtc (edgeRel (edges def)) (node_id entry) (node_id n) ∧
      rtc (edgeRel (edges def)) (node_id n) (node_id final)) as Hone.
  { intros n Hn.
    destruct (entry_reaches def (node_id n) Hac Hsrc) as (entry & Hentry & Hreach).
    { by apply list_elem_of_fmap_2. }
    destruct (reaches_terminal def (node_id n) Hac Htgt) as (final & Hfinal & Hreach').
    { by apply list_elem_of_fmap_2. }
    exists entry, final. split_and!; [| |done|done].
    - apply length_le_1_singleton; [done|]. by apply elem_of_startNodes.
    - apply length_le_1_singleton; [done|]. by apply elem_of_endNodes. }
  destruct (nodes def) as [|n0 ns] eqn:Hnodes; [done|].
  destruct (Hone n0) as (entry & final & Hstart & Hend & _); [by left|].
  exists entry, final. split_and!; [done|done|]. intros n Hn.
  destruct (Hone n Hn) as (entry' & final' & Hstart' & Hend' & Hreach & Hreach').
  assert (entry' = entry) as -> by congruence.
  assert (final' = final) as -> by congruence. done.
Qed.

Lemma page_valid_single_entry_and_end_witness :
  ∃ entry final,
    startNodes Examples.mockWorkflow = [entry] ∧
    endNodes Examples.mockWorkflow = [final] ∧
    ∀ n, n ∈ nodes Examples.mockWorkflow →
      rtc (edgeRel (edges Examples.mockWorkflow)) (node_id entry) (node_id n) ∧
      rtc (edgeRel (edges Examples.mockWorkflow)) (node_id n) (node_id final).
Proof.
  apply (page_valid_single_entry_and_end Examples.mockWorkflow (mkValidation true [])).
  - done.
  - intros e He. simpl in He. simpl.
    repeat (apply elem_of_cons in He as [->|He]; [set_solver|]).
    by apply elem_of_nil in He.
  - reflexivity.
  - reflexivity.
Defined.

(** ** Workflows without edges *)

Lemma filter_all {A} (P : A → Prop) `{!∀ x, Decision (P x)} (l : list A) :
  (∀ x, x ∈ l → P x) → filter P l = l.
Proof.
  induction l as [|a l IH]; [done|]. intros Hall.
  rewrite filter_cons_True by (apply Hall; by left).
  rewrite IH; [done|]. intros x Hx. apply Hall. by right.
Qed.

Lemma no_edges_no_cycle c : ¬ onCycle [] c.
Proof.
  intros Hc. apply onCycle_source in Hc as (e & He & _).
  by apply elem_of_nil in He.
Qed.

(** X11.  What the two frontend validators say of a workflow without
    edges whose node ids are not names inherited from [Object.prototype]:
    nothing when it has no node, so that the empty workflow is valid;
    otherwise that all of its nodes are disconnected, and, from two nodes
    on, that it has that many start nodes (page.tsx: and as many end
    nodes).  A cycle is never reported. *)
Theorem frontend_validators_without_edges ns :
  Forall (λ n, safeId (node_id n)) ns →
  Builder.validationErrorsOf (mkDefinition ns []) =
    Some match ns with
         | [] => []
         | [_] => [Msg.disconnected ns]
         | _ => [Msg.disconnected ns; Msg.start_nodes (List.length ns)]
         end ∧
  Page.validationErrorsOf (mkDefinition ns []) =
    Some match ns with
         | [] => []
         | [_] => [Msg.disconnected ns]
         | _ => [Msg.disconnected ns; Msg.start_nodes (List.length ns);
                 Msg.end_nodes (List.length ns)]
         end.
Proof.
  intros Hsafe.
  assert (Frontend.detectCycle ns [] = Some false) as Hcyc.
  { destruct (frontend_detectCycle_safe ns []) as (b & Hb & _);
      [by split; [|apply Forall_nil]|].
    rewrite Hb. f_equal. apply (frontend_no_cycle_found _ _ _ Hb).
    intros n c _ _. apply no_edges_no_cycle. }
  assert (disconnectedNodes (mkDefinition ns []) = ns) as Hd.
  { unfold disconnectedNodes. apply filter_all. intros n _. simpl.
    unfold connectedNodes. simpl. apply not_elem_of_empty. }
  assert (startNodes (mkDefinition ns []) = ns) as Hs.
  { unfold startNodes. by apply filter_all. }
  assert (endNodes (mkDefinition ns []) = ns) as He.
  { unfold endNodes. by apply filter_all. }
  unfold Builder.validationErrorsOf, Page.validationErrorsOf.
  cbn [nodes edges]. rewrite Hcyc, Hd, Hs, He.
  destruct ns as [|n1 [|n2 ns]]; done.
Qed.

Lemma frontend_validators_without_edges_witness :
  Builder.validationErrorsOf (mkDefinition [Examples.nodeA; Examples.nodeB] []) =
    Some [Msg.disconnected [Examples.nodeA; Examples.nodeB]; Msg.start_nodes 2].
Proof.
  apply (frontend_validators_without_edges [Examples.nodeA; Examples.nodeB]).
  solve_safe.
Defined.

(** ** Sources, sinks and isolated nodes *)

(** X12.  The nodes that the validators list as disconnected are listed,
    in the same order, among the start nodes and among the end nodes;
    hence, for a workflow with two disconnected nodes, an error list that
    WorkflowBuilder.tsx returns holds the start-node error. *)
Theorem disconnected_are_start_and_end def :
  sublist (disconnectedNodes def) (startNodes def) ∧
  sublist (disconnectedNodes def) (endNodes def) ∧
  (∀ errs, Builder.validationErrorsOf def = Some errs →
     2 ≤ List.length (disconnectedNodes def) →
     Msg.start_nodes (List.length (startNodes def)) ∈ errs).
Proof.
  assert (sublist (disconnectedNodes def) (startNodes def)) as Hsub.
  { unfold disconnectedNodes, startNodes.
    rewrite <-(list_filter_filter_l
      (λ node, node_id node ∉ connectedNodes (edges def))
      (λ node, List.find (λ edge, bool_decide (target edge = node_id node))
                 (edges def) = None)).
    - apply sublist_filter.
    - intros node Hnot. apply find_None_iff. intros e He.
      apply bool_decide_eq_false. intros Ht. apply Hnot, elem_of_connectedNodes.
      eauto. }
  split_and!; [done| |].
  - unfold disconnectedNodes, endNodes.
    rewrite <-(list_filter_filter_l
      (λ node, node_id node ∉ connectedNodes (edges def))
      (λ node, List.find (λ edge, bool_decide (source edge = node_id node))
                 (edges def) = None)).
    + apply sublist_filter.
    + intros node Hnot. apply find_None_iff. intros e He.
      apply bool_decide_eq_false. intros Ht. apply Hnot, elem_of_connectedNodes.
      eauto.
  - intros errs Herrs Htwo. apply sublist_length in Hsub.
    destruct (builder_errors_sound def errs Herrs) as (b & _ & Hmem).
    apply Hmem. right; right. split; [lia|done].
Qed.

Lemma disconnected_are_start_and_end_witness :
  Msg.start_nodes 2 ∈
    [Msg.disconnected [Examples.nodeA; Examples.nodeB]; Msg.start_nodes 2].
Proof.
  apply (proj2 (proj2 (disconnected_are_start_and_end
           (mkDefinition [Examples.nodeA; Examples.nodeB] [])))).
  - vm_compute. reflexivity.
  - vm_compute. lia.
Defined.

(** ** The verdict looks at the ids only *)

Lemma length_filter_by_id (P : Node → Prop) (Q : string → Prop)
    `{!∀ n, Decision (P n)} `{!∀ x, Decision (Q x)} (ns : list Node) :
  (∀ n, P n ↔ Q (node_id n)) →
  List.length (filter P ns) = List.length (filter Q (node_id <$> ns)).
Proof.
  intros HPQ. induction ns as [|n ns IH]; [done|].
  rewrite fmap_cons, !filter_cons.
  destruct (decide (P n)) as [HP|HP], (decide (Q (node_id n))) as [HQ|HQ];
    simpl; [lia| | |lia]; exfalso; apply HPQ in HP || apply HPQ in HQ; done.
Qed.

Lemma startNodes_length_ids def def' :
  node_id <$> nodes def = node_id <$> nodes def' → edges def = edges def' →
  List.length (startNodes def) = List.length (startNodes def').
Proof.
  intros Hids Hes. unfold startNodes. rewrite Hes.
  set (Q := λ x, List.find (λ edge, bool_decide (target edge = x)) (edges def') = None).
  trans (List.length (filter Q (node_id <$> nodes def))).
  - by apply length_filter_by_id.
  - rewrite Hids. symmetry. by apply length_filter_by_id.
Qed.

Lemma endNodes_length_ids def def' :
  node_id <$> nodes def = node_id <$> nodes def' → edges def = edges def' →
  List.length (endNodes def) = List.length (endNodes def').
Proof.
  intros Hids Hes. unfold endNodes. rewrite Hes.
  set (Q := λ x, List.find (λ edge, bool_decide (source edge = x)) (edges def') = None).
  trans (List.length (filter Q (node_id <$> nodes def))).
  - by apply length_filter_by_id.
  - rewrite Hids. symmetry. by apply length_filter_by_id.
Qed.

Lemma forall_ids (P : string → Prop) (ns ns' : list Node) :
  node_id <$> ns = node_id <$> ns' →
  (∀ n, n ∈ ns → P (node_id n)) → ∀ n, n ∈ ns' → P (node_id n).
Proof.
  intros Hids Hall n Hn.
  assert (node_id n ∈ node_id <$> ns) as (m & -> & Hm)%list_elem_of_fmap.
  { rewrite Hids. by apply list_elem_of_fmap_2. }
  by apply Hall.
Qed.

Lemma bool_eq_iff (b1 b2 : bool) : (b1 = true ↔ b2 = true) → b1 = b2.
Proof. destruct b1, b2; intuition congruence. Qed.

(** The loop over the nodes reads their ids only, in the order of the
    list; so an exception, too, is raised for both lists or for none. *)
Lemma forNodes_ids graph fuel ns ns' st :
  node_id <$> ns = node_id <$> ns' →
  Frontend.forNodes graph fuel ns st = Frontend.forNodes graph fuel ns' st.
Proof.
  revert ns' st. induction ns as [|n ns IH]; intros [|n' ns'] st Hids; try done.
  rewrite !fmap_cons in Hids. injection Hids as Hid Hids. simpl. rewrite Hid.
  destruct (Frontend.hasCycle graph fuel (node_id n') st) as [[[] st']|]; eauto.
Qed.

Lemma frontend_detectCycle_ids ns ns' es :
  node_id <$> ns = node_id <$> ns' →
  Frontend.detectCycle ns es = Frontend.detectCycle ns' es.
Proof.
  intros Hids. unfold Frontend.detectCycle. rewrite Hids.
  destruct (buildAdjacency es) as [graph|]; simpl; [by apply forNodes_ids|done].
Qed.

Lemma builder_validate_None def :
  Builder.validateWorkflow def = None ↔
  Frontend.detectCycle (nodes def) (edges def) = None.
Proof.
  unfold Builder.validateWorkflow, Builder.validationErrorsOf.
  by destruct (Frontend.detectCycle (nodes def) (edges def)).
Qed.

Lemma page_validate_None def :
  Page.validateWorkflow def = None ↔
  Frontend.detectCycle (nodes def) (edges def) = None.
Proof.
  unfold Page.validateWorkflow, Page.validationErrorsOf.
  by destruct (Frontend.detectCycle (nodes def) (edges def)).
Qed.

Lemma builder_verdict_ids_only def def' :
  node_id <$> nodes def = node_id <$> nodes def' → edges def = edges def' →
  isWorkflowValid <$> Builder.validateWorkflow def
    = isWorkflowValid <$> Builder.validateWorkflow def'.
Proof.
  intros Hids Hes.
  pose proof (frontend_detectCycle_ids _ _ (edges def) Hids) as Hsame.
  rewrite Hes in Hsame at 2.
  destruct (Builder.validateWorkflow def) as [vs|] eqn:Hvs; last first.
  { apply builder_validate_None in Hvs. rewrite Hsame in Hvs.
    apply builder_validate_None in Hvs. by rewrite Hvs. }
  destruct (Builder.validateWorkflow def') as [vs'|] eqn:Hvs'; last first.
  { apply builder_validate_None in Hvs'. rewrite <-Hsame in Hvs'.
    apply builder_validate_None in Hvs'. by rewrite Hvs' in Hvs. }
  pose proof (builder_valid_cond def vs Hvs) as Hiff.
  pose proof (builder_valid_cond def' vs' Hvs') as Hiff'.
  simpl. f_equal. apply bool_eq_iff. rewrite Hiff, Hiff'.
  rewrite (startNodes_length_ids def def' Hids Hes), Hes.
  split; intros (Hcyc & Htouch & Hlen); (split_and!; [| |done]).
  - intros n c Hn. revert c. revert n Hn.
    apply (forall_ids (λ x, ∀ c, rtc (edgeRel (edges def')) x c →
                                 ¬ onCycle (edges def') c) (nodes def) (nodes def') Hids).
    intros n Hn c. by apply Hcyc.
  - by apply (forall_ids (touched (edges def')) (nodes def) (nodes def') Hids).
  - intros n c Hn. revert c. revert n Hn.
    apply (forall_ids (λ x, ∀ c, rtc (edgeRel (edges def')) x c →
                                 ¬ onCycle (edges def') c) (nodes def') (nodes def)
             (eq_sym Hids)).
    intros n Hn c. by apply Hcyc.
  - by apply (forall_ids (touched (edges def')) (nodes def') (nodes def) (eq_sym Hids)).
Qed.

Lemma page_verdict_ids_only def def' :
  node_id <$> nodes def = node_id <$> nodes def' → edges def = edges def' →
  isWorkflowValid <$> Page.validateWorkflow def
    = isWorkflowValid <$> Page.validateWorkflow def'.
Proof.
  intros Hids Hes.
  pose proof (frontend_detectCycle_ids _ _ (edges def) Hids) as Hsame.
  rewrite Hes in Hsame at 2.
  destruct (Page.validateWorkflow def) as [vs|] eqn:Hvs; last first.
  { apply page_validate_None in Hvs. rewrite Hsame in Hvs.
    apply page_validate_None in Hvs. by rewrite Hvs. }
  destruct (Page.validateWorkflow def') as [vs'|] eqn:Hvs'; last first.
  { apply page_validate_None in Hvs'. rewrite <-Hsame in Hvs'.
    apply page_validate_None in Hvs'. by rewrite Hvs' in Hvs. }
  pose proof (page_valid_cond def vs Hvs) as Hiff.
  pose proof (page_valid_cond def' vs' Hvs') as Hiff'.
  simpl. f_equal. apply bool_eq_iff. rewrite Hiff, Hiff'.
  rewrite (startNodes_length_ids def def' Hids Hes).
  rewrite (endNodes_length_ids def def' Hids Hes), Hes.
  split; intros (Hcyc & Htouch & Hlen & Hlen'); (split_and!; [| |done|done]).
  - intros n c Hn. revert c. revert n Hn.
    apply (forall_ids (λ x, ∀ c, rtc (edgeRel (edges def')) x c →
                                 ¬ onCycle (edges def') c) (nodes def) (nodes def') Hids).
    intros n Hn c. by apply Hcyc.
  - by apply (forall_ids (touched (edges def')) (nodes def) (nodes def') Hids).
  - intros n c Hn. revert c. revert n Hn.
    apply (forall_ids (λ x, ∀ c, rtc (edgeRel (edges def')) x c →
                                 ¬ onCycle (edges def') c) (nodes def') (nodes def)
             (eq_sym Hids)).
    intros n Hn c. by apply Hcyc.
  - by apply (forall_ids (touched (edges def')) (nodes def') (nodes def) (eq_sym Hids)).
Qed.

(** X13.  [handleNodeUpdated] never changes the verdict of the validator
    that runs after it: whatever the inspector writes into a node (type,
    label, even for several nodes that share the id), the workflow is valid
    afterwards exactly when it was valid before. *)
Theorem handleNodeUpdated_keeps_verdict updatedNode def :
  isWorkflowValid <$> Builder.validateWorkflow (Editor.handleNodeUpdated updatedNode def)
    = isWorkflowValid <$> Builder.validateWorkflow def ∧
  isWorkflowValid <$> Page.validateWorkflow (Editor.handleNodeUpdated updatedNode def)
    = isWorkflowValid <$> Page.validateWorkflow def.
Proof.
  split.
  - apply builder_verdict_ids_only; [apply handleNodeUpdated_ids|done].
  - apply page_verdict_ids_only; [apply handleNodeUpdated_ids|done].
Qed.

(** ** Dropping a node on the canvas *)

Lemma new_node_disconnected ns es newNode :
  (∀ e, e ∈ es → source e ≠ node_id newNode ∧ target e ≠ node_id newNode) →
  newNode ∈ disconnectedNodes (mkDefinition (ns ++ [newNode]) es).
Proof.
  intros Hfree. apply elem_of_disconnectedNodes. split; [|done].
  simpl. apply elem_of_app. right. by apply list_elem_of_singleton.
Qed.

(** The ids that the editors make up are not inherited names. *)
Lemma safeId_node_underscore s : safeId ("node_" +:+ s)%string.
Proof.
  unfold safeId, JsObject.prototypeNames. intros H. simpl in H.
  repeat (apply elem_of_cons in H as [H|H]; [discriminate H|]).
  by apply elem_of_nil in H.
Qed.

Lemma safeId_node_dash s : safeId ("node-" +:+ s)%string.
Proof.
  unfold safeId, JsObject.prototypeNames. intros H. simpl in H.
  repeat (apply elem_of_cons in H as [H|H]; [discriminate H|]).
  by apply elem_of_nil in H.
Qed.

Lemma safeIds_snoc ns es newNode :
  safeIds (mkDefinition ns es) → safeId (node_id newNode) →
  safeIds (mkDefinition (ns ++ [newNode]) es).
Proof.
  intros [Hns Hes] Hnew. split; [|done]. simpl in *.
  apply Forall_app. split; [done|]. by apply Forall_singleton.
Qed.

(** X14.  A node that [handleNewNode] puts on the canvas makes the
    workflow invalid for both frontend validators, whatever it was before:
    as long as no edge names the fresh id, the node is reported, with its
    label, as disconnected.  The ids of the workflow are not names
    inherited from [Object.prototype], and the type of the node starts with
    an ASCII character, [capitalize] being [toUpperCase] on those. *)
Theorem handleNewNode_is_reported nodeType now1 now2 def :
  safeIds def →
  asciiHead nodeType →
  (∀ e, e ∈ edges def →
        source e ≠ ("node_" +:+ pretty now1)%string ∧
        target e ≠ ("node_" +:+ pretty now1)%string) →
  (∃ errs m,
     Builder.validateWorkflow (Editor.handleNewNode nodeType now1 now2 def)
       = Some (mkValidation false errs) ∧
     m ∈ errs ∧
     occursIn (capitalize nodeType +:+ " " +:+ pretty now2)%string m) ∧
  (∃ errs m,
     Page.validateWorkflow (Editor.handleNewNode nodeType now1 now2 def)
       = Some (mkValidation false errs) ∧
     m ∈ errs ∧
     occursIn (capitalize nodeType +:+ " " +:+ pretty now2)%string m).
Proof.
  intros Hsafe _ Hfree.
  set (newNode := mkNode ("node_" +:+ pretty now1)%string nodeType
                    (capitalize nodeType +:+ " " +:+ pretty now2)%string).
  set (def' := Editor.handleNewNode nodeType now1 now2 def).
  assert (safeIds def') as Hsafe'.
  { destruct def as [ns es].
    apply (safeIds_snoc ns es newNode Hsafe), safeId_node_underscore. }
  assert (newNode ∈ disconnectedNodes def') as Hnew
    by by apply (new_node_disconnected (nodes def) (edges def) newNode).
  assert (disconnectedNodes def' ≠ []) as Hne.
  { intros Hnil. rewrite Hnil in Hnew. by apply elem_of_nil in Hnew. }
  pose proof (disconnected_names _ _ Hnew) as Hocc.
  split.
  - destruct (builder_errors_spec def' Hsafe') as (b & errs & _ & Herrs & Hmem).
    exists errs, (Msg.disconnected (disconnectedNodes def')).
    assert (Msg.disconnected (disconnectedNodes def') ∈ errs) as Hin.
    { apply Hmem. right; left. done. }
    split_and!; [|done|done].
    unfold Builder.validateWorkflow. rewrite Herrs. simpl.
    by rewrite (setValidation_invalid _ _ Hin).
  - destruct (page_errors_spec def' Hsafe') as (b & errs & _ & Herrs & Hmem).
    exists errs, (Msg.disconnected (disconnectedNodes def')).
    assert (Msg.disconnected (disconnectedNodes def') ∈ errs) as Hin.
    { apply Hmem. right; left. done. }
    split_and!; [|done|done].
    unfold Page.validateWorkflow. rewrite Herrs. simpl.
    by rewrite (setValidation_invalid _ _ Hin).
Qed.

Lemma handleNewNode_is_reported_witness :
  ∃ errs m,
    Builder.validateWorkflow (Editor.handleNewNode "agent" 5 6 Examples.chain)
      = Some (mkValidation false errs) ∧
    m ∈ errs ∧ occursIn "Agent 6" m.
Proof.
  apply (handleNewNode_is_reported "agent" 5 6 Examples.chain).
  { solve_safe. }
  { vm_compute. lia. }
  intros e He. simpl in He.
  repeat (apply elem_of_cons in He as [->|He]; [split; by vm_compute|]).
  by apply elem_of_nil in He.
Defined.

(** X15.  The same holds for [handleAddNode] of the designer: once the
    node is added, [validateWorkflow] reports it as disconnected under the
    capitalised name of its type, unless an edge already names its id.  No
    edge starts or ends at a name inherited from [Object.prototype], and
    the type starts with an ASCII character. *)
Theorem handleAddNode_is_reported type now st :
  safeEdges (Designer.st_edges st) →
  asciiHead type →
  (∀ e, e ∈ Designer.st_edges st →
        source e ≠ ("node-" +:+ pretty now)%string ∧
        target e ≠ ("node-" +:+ pretty now)%string) →
  ∃ errs m,
    DesignerEdit.validate (DesignerEdit.handleAddNode type now st) = Some errs ∧
    m ∈ errs ∧ occursIn (capitalize type) m.
Proof.
  intros Hsafe _ Hfree.
  set (newNode := mkNode ("node-" +:+ pretty now)%string type (capitalize type)).
  pose proof (new_node_disconnected (Designer.st_nodes st) (Designer.st_edges st)
                newNode Hfree) as Hnew.
  destruct (designer_errors_spec (Designer.st_nodes st ++ [newNode])
              (Designer.st_edges st) Hsafe) as (b & errs & _ & Herrs & Hmem).
  exists errs, (Msg.disconnected
    (disconnectedNodes (mkDefinition (Designer.st_nodes st ++ [newNode])
                          (Designer.st_edges st)))).
  split_and!; [done| |].
  - apply Hmem. right; right; left. split; [|done].
    intros Hnil. rewrite Hnil in Hnew. by apply elem_of_nil in Hnew.
  - by apply (disconnected_names _ newNode).
Qed.

Lemma handleAddNode_is_reported_witness :
  ∃ errs m,
    DesignerEdit.validate
      (DesignerEdit.handleAddNode "agent" 7
         (Designer.mkState (nodes Examples.mockWorkflow)
            (edges Examples.mockWorkflow) None false)) = Some errs ∧
    m ∈ errs ∧ occursIn "Agent" m.
Proof.
  apply (handleAddNode_is_reported "agent" 7).
  { solve_safe. }
  { vm_compute. lia. }
  intros e He. simpl in He.
  repeat (apply elem_of_cons in He as [->|He]; [split; by vm_compute|]).
  by apply elem_of_nil in He.
Defined.

(** ** Edits and the cycle error *)

Lemma builder_cycle_error def errs :
  Builder.validationErrorsOf def = Some errs →
  (Msg.cycle ∈ errs ↔ Frontend.detectCycle (nodes def) (edges def) = Some true).
Proof.
  intros Herrs.
  destruct (builder_errors_sound def errs Herrs) as (b & Hb & Hmem).
  rewrite Hb, Hmem. split.
  - intros [[-> _]|[[_ Heq]|[_ Heq]]]; [done| |].
    + by apply cycle_ne_disconnected in Heq.
    + by apply cycle_ne_start in Heq.
  - intros [= ->]. by left.
Qed.

Lemma page_cycle_error def errs :
  Page.validationErrorsOf def = Some errs →
  (Msg.cycle ∈ errs ↔ Frontend.detectCycle (nodes def) (edges def) = Some true).
Proof.
  intros Herrs.
  destruct (page_errors_sound def errs Herrs) as (b & Hb & Hmem).
  rewrite Hb, Hmem. split.
  - intros [[-> _]|[[_ Heq]|[[_ Heq]|[_ Heq]]]]; [done| | |].
    + by apply cycle_ne_disconnected in Heq.
    + by apply cycle_ne_start in Heq.
    + by apply cycle_ne_end in Heq.
  - intros [= ->]. by left.
Qed.

Lemma edgeRel_filter (P : Edge → Prop) `{!∀ e, Decision (P e)} es a b :
  edgeRel (filter P es) a b → edgeRel es a b.
Proof.
  intros (e & [_ He]%list_elem_of_filter & Hs & Ht). by exists e.
Qed.

Lemma detectCycle_after_removal ns ns' es (P : Edge → Prop) `{!∀ e, Decision (P e)} b :
  (∀ x, x ∈ node_id <$> ns' → x ∈ node_id <$> ns) →
  Frontend.detectCycle ns es = Some b →
  Frontend.detectCycle ns' (filter P es) = Some true →
  Frontend.detectCycle ns es = Some true.
Proof.
  intros Hns Hb Htrue. rewrite Hb. f_equal.
  apply (frontend_detectCycle_mono ns' ns (filter P es) es b); [done| |done|done].
  intros x y. apply edgeRel_filter.
Qed.

Lemma builder_errors_detectCycle def errs :
  Builder.validationErrorsOf def = Some errs →
  ∃ b, Frontend.detectCycle (nodes def) (edges def) = Some b.
Proof.
  intros Herrs. destruct (builder_errors_sound def errs Herrs) as (b & Hb & _).
  by exists b.
Qed.

Lemma page_errors_detectCycle def errs :
  Page.validationErrorsOf def = Some errs →
  ∃ b, Frontend.detectCycle (nodes def) (edges def) = Some b.
Proof.
  intros Herrs. destruct (page_errors_sound def errs Herrs) as (b & Hb & _).
  by exists b.
Qed.

(** X16.  Taking a node or an edge away never brings up the cycle error:
    when the validator of WorkflowBuilder.tsx or of page.tsx reports a
    cycle after [handleNodeDeleted] or [handleEdgeRemoved], it reported
    one before. *)
Theorem removal_adds_no_cycle_error def :
  (∀ nodeId errs errs',
     Builder.validationErrorsOf def = Some errs →
     Builder.validationErrorsOf (Editor.handleNodeDeleted nodeId def) = Some errs' →
     Msg.cycle ∈ errs' → Msg.cycle ∈ errs) ∧
  (∀ edge errs errs',
     Builder.validationErrorsOf def = Some errs →
     Builder.validationErrorsOf (Editor.handleEdgeRemoved edge def) = Some errs' →
     Msg.cycle ∈ errs' → Msg.cycle ∈ errs) ∧
  (∀ nodeId errs errs',
     Page.validationErrorsOf def = Some errs →
     Page.validationErrorsOf (Editor.handleNodeDeleted nodeId def) = Some errs' →
     Msg.cycle ∈ errs' → Msg.cycle ∈ errs) ∧
  (∀ edge errs errs',
     Page.validationErrorsOf def = Some errs →
     Page.validationErrorsOf (Editor.handleEdgeRemoved edge def) = Some errs' →
     Msg.cycle ∈ errs' → Msg.cycle ∈ errs).
Proof.
  assert (∀ nodeId b,
    Frontend.detectCycle (nodes def) (edges def) = Some b →
    Frontend.detectCycle (nodes (Editor.handleNodeDeleted nodeId def))
      (edges (Editor.handleNodeDeleted nodeId def)) = Some true →
    Frontend.detectCycle (nodes def) (edges def) = Some true) as Hnode.
  { intros nodeId b. simpl. apply detectCycle_after_removal.
    intros x (n & -> & [_ Hn]%list_elem_of_filter)%list_elem_of_fmap.
    by apply list_elem_of_fmap_2. }
  assert (∀ edge b,
    Frontend.detectCycle (nodes def) (edges def) = Some b →
    Frontend.detectCycle (nodes (Editor.handleEdgeRemoved edge def))
      (edges (Editor.handleEdgeRemoved edge def)) = Some true →
    Frontend.detectCycle (nodes def) (edges def) = Some true) as Hedge.
  { intros edge b. simpl. by apply detectCycle_after_removal. }
  split_and!.
  - intros nodeId errs errs' Herrs Herrs' Hin.
    destruct (builder_errors_detectCycle _ _ Herrs) as [b Hb].
    apply (builder_cycle_error _ _ Herrs), (Hnode nodeId b Hb).
    by apply (builder_cycle_error _ _ Herrs').
  - intros edge errs errs' Herrs Herrs' Hin.
    destruct (builder_errors_detectCycle _ _ Herrs) as [b Hb].
    apply (builder_cycle_error _ _ Herrs), (Hedge edge b Hb).
    by apply (builder_cycle_error _ _ Herrs').
  - intros nodeId errs errs' Herrs Herrs' Hin.
    destruct (page_errors_detectCycle _ _ Herrs) as [b Hb].
    apply (page_cycle_error _ _ Herrs), (Hnode nodeId b Hb).
    by apply (page_cycle_error _ _ Herrs').
  - intros edge errs errs' Herrs Herrs' Hin.
    destruct (page_errors_detectCycle _ _ Herrs) as [b Hb].
    apply (page_cycle_error _ _ Herrs), (Hedge edge b Hb).
    by apply (page_cycle_error _ _ Herrs').
Qed.

Lemma edgeRel_snoc es e a b :
  edgeRel (es ++ [e]) a b ↔ edgeRel es a b ∨ (a = source e ∧ b = target e).
Proof.
  unfold edgeRel. setoid_rewrite elem_of_app.
  setoid_rewrite list_elem_of_singleton. naive_solver.
Qed.

(** A path through the graph with one more edge either avoids that edge,
    or splits at it; the graph closes a cycle through the new edge when its
    target already reaches its source. *)
Lemma tc_snoc_edge es e x y :
  tc (edgeRel (es ++ [e])) x y →
  tc (edgeRel es) x y ∨
  rtc (edgeRel es) (target e) (source e) ∨
  (rtc (edgeRel es) x (source e) ∧ rtc (edgeRel es) (target e) y).
Proof.
  induction 1 as [x y Hxy|x z y Hxz _ IH].
  - apply edgeRel_snoc in Hxy as [Hxy|[-> ->]].
    + left. by apply tc_once.
    + right; right. done.
  - apply edgeRel_snoc in Hxz as [Hxz|[-> ->]].
    + destruct IH as [IH|[IH|[IH1 IH2]]].
      * left. by eapply tc_l.
      * right; left. done.
      * right; right. split; [|done]. by eapply rtc_l.
    + destruct IH as [IH|[IH|[IH1 IH2]]].
      * right; right. split; [done|]. by apply tc_rtc.
      * right; left. done.
      * right; left. done.
Qed.

Lemma removal_adds_no_cycle_error_witness :
  Msg.cycle ∈ [Msg.cycle].
Proof.
  apply (proj1 (removal_adds_no_cycle_error Examples.entryThenCycle)
           "S"%string [Msg.cycle] [Msg.cycle]).
  - vm_compute. reflexivity.
  - vm_compute. reflexivity.
  - by left.
Defined.

(** X17.  When the workflow shows no cycle error and each of its edges
    leaves one of its nodes, the gesture that connects [sourceId] to
    [targetId] brings up the cycle error of WorkflowBuilder.tsx exactly
    when the two ids differ and [targetId] already reaches [sourceId]
    along the edges. *)
Theorem connection_closes_cycle sourceId targetId def errs errs' :
  (∀ e, e ∈ edges def → source e ∈ node_id <$> nodes def) →
  Builder.validationErrorsOf def = Some errs →
  Msg.cycle ∉ errs →
  Builder.validationErrorsOf (Editor.connectNodes sourceId targetId def) = Some errs' →
  (Msg.cycle ∈ errs' ↔
   sourceId ≠ targetId ∧ rtc (edgeRel (edges def)) targetId sourceId).
Proof.
  intros Hsrc Herrs Hno Herrs'.
  rewrite (builder_cycle_error _ _ Herrs').
  rewrite (builder_cycle_error _ _ Herrs) in Hno.
  assert (Frontend.detectCycle (nodes def) (edges def) = Some false) as Hfalse.
  { destruct (builder_errors_detectCycle _ _ Herrs) as [[] Hb]; [done|done]. }
  clear Hno.
  pose proof (proj1 (frontend_no_cycle_found _ _ _ Hfalse) eq_refl) as Hnone.
  pose proof (no_reachable_cycle_acyclic def Hsrc Hnone) as Hac.
  destruct (builder_errors_detectCycle _ _ Herrs') as [b' Hb'].
  rewrite connectNodes_nodes in Hb'.
  rewrite connectNodes_nodes.
  destruct (connectNodes_edges sourceId targetId def)
    as [Hsame|(e & Hadd & Hedges)]; rewrite ?Hsame, ?Hedges.
  - rewrite Hfalse. split; [done|]. intros [Hne Hreach]. exfalso.
    unfold Editor.connectNodes in Hsame.
    destruct (Canvas.handleConnectNodes (edges def) sourceId targetId)
      as [toast|e] eqn:Hc.
    + unfold Canvas.handleConnectNodes in Hc.
      rewrite decide_False in Hc by done.
      destruct (List.find _ (edges def)) as [e|] eqn:Hfind; [|done].
      apply find_some in Hfind as [He Hst].
      apply andb_true_iff in Hst as [Hs%bool_decide_eq_true Ht%bool_decide_eq_true].
      apply (Hac sourceId). eapply tc_rtc_r; [|done].
      apply list_elem_of_In in He. apply tc_once. by exists e.
    + simpl in Hsame. apply (f_equal List.length) in Hsame.
      rewrite length_app in Hsame. simpl in Hsame. lia.
  - apply handleConnectNodes_added in Hadd as (Hs & Ht & Hne & _).
    split.
    + intros Htrue. split; [done|].
      destruct (proj1 (frontend_detectCycle_sound _ _ _ Htrue))
        as (n & c & _ & _ & Hc); [done|].
      apply tc_snoc_edge in Hc as [Hc|[Hc|[Hc1 Hc2]]]; rewrite ?Hs, ?Ht in *.
      * by destruct (Hac c).
      * done.
      * by etrans.
    + intros [_ Hreach]. pose proof Hreach as Hfirst.
      apply rtc_inv in Hfirst as [->|(z & (e0 & He0 & Hs0 & _) & _)]; [done|].
      pose proof (Hsrc e0 He0) as (n & Hid & Hn)%list_elem_of_fmap.
      rewrite Hedges in Hb'. rewrite Hb'.
      f_equal. apply (frontend_detectCycle_sound _ _ _ Hb').
      exists n, targetId. split_and!; [done| |].
      * rewrite <-Hid, Hs0. done.
      * eapply tc_rtc_l; [|apply tc_once].
        -- eapply edgeRel_rtc_mono; [|done].
           intros u v Huv. apply edgeRel_snoc. by left.
        -- apply edgeRel_snoc. right. done.
Qed.

Lemma connection_closes_cycle_witness :
  Msg.cycle ∈ [Msg.cycle] ↔
  "B"%string ≠ "A"%string ∧ rtc (edgeRel (edges Examples.chain)) "A"%string "B"%string.
Proof.
  apply (connection_closes_cycle "B" "A" Examples.chain [] [Msg.cycle]).
  - intros e He. simpl in He. simpl.
    repeat (apply elem_of_cons in He as [->|He]; [set_solver|]).
    by apply elem_of_nil in He.
  - vm_compute. reflexivity.
  - apply not_elem_of_nil.
  - vm_compute. reflexivity.
Defined.

(** ** The ids of the edges *)

Lemma pretty_N_char_no_underscore x : pretty_N_char x ≠ "_"%char.
Proof. unfold pretty_N_char. by repeat case_match. Qed.

Lemma pretty_N_go_noUnderscore x s : noUnderscore s → noUnderscore (pretty_N_go x s).
Proof.
  revert s. induction (N.lt_wf_0 x) as [x _ IH]; intros s Hs.
  assert (x = 0 ∨ 0 < x)%N as [->|Hx] by lia.
  - by rewrite pretty_N_go_0.
  - rewrite pretty_N_go_step by done. apply IH.
    + by apply N.div_lt.
    + split; [apply pretty_N_char_no_underscore|done].
Qed.

Lemma pretty_N_noUnderscore (n : N) : noUnderscore (pretty n).
Proof.
  unfold pretty, pretty_N.
  case_decide; [by split|]. by apply pretty_N_go_noUnderscore.
Qed.

(** A number followed by an underscore determines the number and the
    rest. *)
Lemma number_underscore_split d1 d2 r1 r2 :
  noUnderscore d1 → noUnderscore d2 →
  (d1 +:+ String "_" r1 = d2 +:+ String "_" r2)%string → d1 = d2 ∧ r1 = r2.
Proof.
  revert d2. induction d1 as [|c1 d1 IH]; intros [|c2 d2] H1 H2;
    rewrite ?string_app_cons, ?string_app_nil_l; intros Heq.
  - by simplify_eq.
  - simplify_eq. by destruct H2.
  - simplify_eq. by destruct H1.
  - injection Heq as -> Heq. destruct H1 as [_ H1], H2 as [_ H2].
    destruct (IH d2 H1 H2 Heq) as [-> ->]. done.
Qed.

(** The id of an edge made by [handleConnectNodes] between generated node
    ids tells its two ends. *)
Lemma canonical_edge_id_inj e1 e2 :
  canonicalEdge e1 → canonicalEdge e2 → edge_id e1 = edge_id e2 →
  source e1 = source e2 ∧ target e1 = target e2.
Proof.
  intros (Hid1 & [a1 Hs1] & _) (Hid2 & [a2 Hs2] & _) Heq.
  rewrite Hid1, Hid2, Hs1, Hs2 in Heq. rewrite Hs1, Hs2.
  apply (inj (String.app _)) in Heq.
  rewrite !string_app_assoc in Heq.
  apply (inj (String.app _)) in Heq.
  change ("_" +:+ target e1)%string with (String "_" (target e1)) in Heq.
  change ("_" +:+ target e2)%string with (String "_" (target e2)) in Heq.
  apply number_underscore_split in Heq as [-> ->];
    [done|apply pretty_N_noUnderscore..].
Qed.

Lemma step_canonical def op :
  match op with
  | Editor.Connect s t => s ∈ node_id <$> nodes def ∧ t ∈ node_id <$> nodes def
  | _ => True
  end →
  (∀ x, x ∈ node_id <$> nodes def → generatedId x) ∧
  (∀ e, e ∈ edges def → canonicalEdge e) →
  (∀ x, x ∈ node_id <$> nodes (Editor.step def op) → generatedId x) ∧
  (∀ e, e ∈ edges (Editor.step def op) → canonicalEdge e).
Proof.
  intros Hop [Hns Hes]. destruct op as [ty n1 n2|u|nodeId|s t|edge].
  - split; [|done]. intros x. simpl. rewrite fmap_app, elem_of_app.
    intros [Hx| ->%list_elem_of_singleton]; [by apply Hns|]. by exists n1.
  - split; [|done]. simpl Editor.step. by rewrite handleNodeUpdated_ids.
  - split.
    + intros x (n & -> & [_ Hn]%list_elem_of_filter)%list_elem_of_fmap.
      by apply Hns, list_elem_of_fmap_2.
    + intros e [_ He]%list_elem_of_filter. by apply Hes.
  - simpl. rewrite connectNodes_nodes. split; [done|]. intros e He.
    destruct (connectNodes_edges s t def) as [Heq|(e' & Hc & Heq)];
      rewrite Heq in He; [by apply Hes|].
    apply elem_of_app in He as [He| ->%list_elem_of_singleton]; [by apply Hes|].
    destruct Hop as [Hs Ht].
    unfold Canvas.handleConnectNodes in Hc.
    destruct (decide (s = t)); [done|].
    destruct (List.find _ (edges def)); [done|]. injection Hc as <-.
    split_and!; simpl; [done|by apply Hns|by apply Hns].
  - split; [done|]. intros e [_ He]%list_elem_of_filter. by apply Hes.
Qed.

Lemma foldl_canonical ops : ∀ def,
  Editor.connectsExisting def ops →
  (∀ x, x ∈ node_id <$> nodes def → generatedId x) ∧
  (∀ e, e ∈ edges def → canonicalEdge e) →
  (∀ x, x ∈ node_id <$> nodes (foldl Editor.step def ops) → generatedId x) ∧
  (∀ e, e ∈ edges (foldl Editor.step def ops) → canonicalEdge e).
Proof.
  induction ops as [|op ops IH]; intros def Hops Hinv; [done|].
  simpl in *. destruct Hops as [Hop Hops]. apply IH; [done|].
  apply step_canonical; [|done]. by destruct op.
Qed.

Lemma run_canonical ops e :
  Editor.connectsExisting Editor.emptyDefinition ops →
  e ∈ edges (Editor.run ops) → canonicalEdge e.
Proof.
  intros Hops. apply (foldl_canonical ops Editor.emptyDefinition Hops).
  split; [by intros x ?%elem_of_nil|by intros e' ?%elem_of_nil].
Qed.

Lemma NoDup_fmap_inj_on {A B} (g : A → B) (l : list A) x y :
  NoDup (g <$> l) → x ∈ l → y ∈ l → g x = g y → x = y.
Proof.
  induction l as [|a l IH]; [by intros _ ?%elem_of_nil|].
  rewrite fmap_cons, NoDup_cons. intros [Hnot Hnd].
  intros [->|Hx]%elem_of_cons [->|Hy]%elem_of_cons Heq; [done| | |by apply IH].
  - destruct Hnot. rewrite Heq. by apply list_elem_of_fmap_2.
  - destruct Hnot. rewrite <-Heq. by apply list_elem_of_fmap_2.
Qed.

(** X18.  In a workflow built on the canvas from the empty one, where
    every connection joins two nodes that are there, no two edges carry
    the same id; [handleEdgeRemoved], which filters by id, therefore takes
    away the edge it is given and no other. *)
Theorem editor_edge_ids_unique ops :
  Editor.connectsExisting Editor.emptyDefinition ops →
  NoDup (edge_id <$> edges (Editor.run ops)) ∧
  ∀ edge e, edge ∈ edges (Editor.run ops) →
    (e ∈ edges (Editor.handleEdgeRemoved edge (Editor.run ops)) ↔
     e ∈ edges (Editor.run ops) ∧ e ≠ edge).
Proof.
  intros Hops.
  pose proof (run_noParallelEdges ops) as Hpar. unfold noParallelEdges in Hpar.
  assert (∀ e1 e2, e1 ∈ edges (Editor.run ops) → e2 ∈ edges (Editor.run ops) →
                   edge_id e1 = edge_id e2 → e1 = e2) as Hinj.
  { intros e1 e2 He1 He2 Hid.
    apply (NoDup_fmap_inj_on (λ e, (source e, target e)) (edges (Editor.run ops)));
      [done..|].
    destruct (canonical_edge_id_inj e1 e2) as [-> ->];
      [by eapply run_canonical..|done|done]. }
  split.
  - apply NoDup_fmap_2_strong; [done|]. by eapply NoDup_fmap_1.
  - intros edge e Hedge. simpl. rewrite list_elem_of_filter. split.
    + intros [Hid He]. split; [done|]. by intros ->.
    + intros [He Hne]. split; [|done]. intros Hid. by apply Hne, Hinj.
Qed.

Lemma editor_edge_ids_unique_witness :
  NoDup (edge_id <$> edges (Editor.run Examples.twoNodesConnected)).
Proof.
  apply (editor_edge_ids_unique Examples.twoNodesConnected).
  apply EditFacts.twoNodesConnected_existing.
Defined.

(** X19.  Removing the edge that a connection has just added gives back
    the workflow as it was, provided no older edge carries the id that
    [handleConnectNodes] composed for the new one. *)
Theorem connect_then_remove sourceId targetId def newEdge :
  Canvas.handleConnectNodes (edges def) sourceId targetId = Canvas.EdgeAdded newEdge →
  (∀ e, e ∈ edges def → edge_id e ≠ edge_id newEdge) →
  Editor.handleEdgeRemoved newEdge (Editor.connectNodes sourceId targetId def) = def.
Proof.
  intros Hc Hfresh. unfold Editor.connectNodes. rewrite Hc.
  unfold Editor.handleEdgeRemoved, Editor.handleEdgeAdded. simpl.
  rewrite filter_app, filter_cons_False, filter_nil, app_nil_r by (by intros ?).
  rewrite filter_all by done. by destruct def.
Qed.

Lemma connect_then_remove_witness :
  Editor.handleEdgeRemoved (mkEdge "edge_B_A" "B" "A")
    (Editor.connectNodes "B" "A" Examples.chain) = Examples.chain.
Proof.
  apply (connect_then_remove "B" "A" Examples.chain).
  - reflexivity.
  - intros e He. simpl in He.
    repeat (apply elem_of_cons in He as [->|He]; [done|]).
    by apply elem_of_nil in He.
Defined.

(** X20.  Deleting a node twice is deleting it once, and two deletions
    can be made in either order: [handleNodeDeleted] is idempotent and
    commutes with itself. *)
Theorem handleNodeDeleted_idempotent_commutes a b def :
  Editor.handleNodeDeleted a (Editor.handleNodeDeleted a def)
    = Editor.handleNodeDeleted a def ∧
  Editor.handleNodeDeleted a (Editor.handleNodeDeleted b def)
    = Editor.handleNodeDeleted b (Editor.handleNodeDeleted a def).
Proof.
  unfold Editor.handleNodeDeleted. simpl. split; f_equal.
  - rewrite list_filter_filter. apply list_filter_iff. naive_solver.
  - rewrite list_filter_filter. apply list_filter_iff. naive_solver.
  - rewrite !list_filter_filter. apply list_filter_iff. naive_solver.
  - rewrite !list_filter_filter. apply list_filter_iff. naive_solver.
Qed.

(** ** Changing the type of a node in the designer *)

Lemma designer_messages ns es errs :
  Designer.validateWorkflow ns es = Some errs →
  (Msg.no_input ∈ errs ↔ ¬ ∃ n, n ∈ ns ∧ node_type n = "input"%string) ∧
  (Msg.no_output ∈ errs ↔ ¬ ∃ n, n ∈ ns ∧ node_type n = "output"%string) ∧
  (Msg.designer_cycle ∈ errs ↔
   buildAdjacency es ≫= Designer.detectCycle = Some true).
Proof.
  intros Herrs.
  destruct (designer_errors_sound ns es errs Herrs) as (b & Hb & Hmem).
  rewrite Hb, !Hmem.
  pose proof (fixed_ne_disconnected _ (disconnectedNodes (mkDefinition ns es))
                no_input_fixed) as Hin.
  pose proof (fixed_ne_disconnected _ (disconnectedNodes (mkDefinition ns es))
                no_output_fixed) as Hout.
  pose proof (fixed_ne_disconnected _ (disconnectedNodes (mkDefinition ns es))
                designer_cycle_fixed) as Hcyc.
  split_and!.
  - split; [|by left].
    intros [[? _]|[[_ ?]|[[_ ?]|[_ ?]]]]; done.
  - split; [|by right; left].
    intros [[_ ?]|[[? _]|[[_ ?]|[_ ?]]]]; done.
  - split; [|by intros [= ->]; right; right; right].
    intros [[_ ?]|[[_ ?]|[[_ ?]|[-> _]]]]; done.
Qed.

Lemma retyped_nodes_lack ty newType (selected : Node) (ns : list Node) :
  node_id selected ∈ node_id <$> ns →
  (¬ ∃ n', n' ∈ ((λ node, if decide (node_id node = node_id selected)
                         then mkNode (node_id selected) newType (label selected)
                         else node) <$> ns) ∧ node_type n' = ty) ↔
  newType ≠ ty ∧
  ∀ n, n ∈ ns → node_id n ≠ node_id selected → node_type n ≠ ty.
Proof.
  intros (n0 & Hid0 & Hn0)%list_elem_of_fmap. split.
  - intros Hnone. split.
    + intros ->. apply Hnone.
      exists (mkNode (node_id selected) ty (label selected)). split; [|done].
      apply list_elem_of_fmap. exists n0. split; [|done].
      by rewrite decide_True.
    + intros n Hn Hne Hty. apply Hnone. exists n. split; [|done].
      apply list_elem_of_fmap. exists n. split; [|done].
      by rewrite decide_False.
  - intros [Hnew Hothers] (n' & (n & -> & Hn)%list_elem_of_fmap & Hty).
    destruct (decide (node_id n = node_id selected)) as [Heq|Hne].
    + by apply Hnew.
    + by apply (Hothers n).
Qed.

(** X21.  After [handleNodeTypeChange] has given the selected node, which
    is on the canvas, a new type, the designer's validator misses an input
    node exactly when the new type is not [input] and no node with another
    id has that type, and likewise for the output node; the change leaves
    the cycle error as it was. *)
Theorem handleNodeTypeChange_errors newType st selected errs errs' :
  Designer.selectedNode st = Some selected →
  node_id selected ∈ node_id <$> Designer.st_nodes st →
  DesignerEdit.validate st = Some errs →
  DesignerEdit.validate (DesignerEdit.handleNodeTypeChange newType st) = Some errs' →
  (Msg.no_input ∈ errs' ↔
   newType ≠ "input"%string ∧
   ∀ n, n ∈ Designer.st_nodes st → node_id n ≠ node_id selected →
        node_type n ≠ "input"%string) ∧
  (Msg.no_output ∈ errs' ↔
   newType ≠ "output"%string ∧
   ∀ n, n ∈ Designer.st_nodes st → node_id n ≠ node_id selected →
        node_type n ≠ "output"%string) ∧
  (Msg.designer_cycle ∈ errs' ↔ Msg.designer_cycle ∈ errs).
Proof.
  intros Hsel Hin Herrs Herrs'.
  unfold DesignerEdit.validate, DesignerEdit.handleNodeTypeChange in *.
  rewrite Hsel in Herrs'. simpl in Herrs'.
  destruct (designer_messages _ _ _ Herrs) as (_ & _ & Hcyc).
  destruct (designer_messages _ _ _ Herrs') as (Hi' & Ho' & Hcyc').
  rewrite Hi', Ho', Hcyc', Hcyc.
  split_and!; [by apply retyped_nodes_lack..|done].
Qed.

Lemma handleNodeTypeChange_errors_witness :
  Msg.designer_cycle ∈ [Msg.no_output; Msg.designer_cycle] ↔
  Msg.designer_cycle ∈ [Msg.no_input; Msg.no_output; Msg.designer_cycle].
Proof.
  apply (handleNodeTypeChange_errors "input"
           (Designer.mkState (nodes Examples.twoCycle) (edges Examples.twoCycle)
              (Some Examples.nodeA) true)
           Examples.nodeA
           [Msg.no_input; Msg.no_output; Msg.designer_cycle]
           [Msg.no_output; Msg.designer_cycle]).
  - reflexivity.
  - simpl. set_solver.
  - vm_compute. reflexivity.
  - vm_compute. reflexivity.
Defined.

(** ** Deleting in the designer *)

Lemma designer_detectCycle_after_removal es (P : Edge → Prop) `{!∀ e, Decision (P e)} b :
  buildAdjacency es ≫= Designer.detectCycle = Some b →
  buildAdjacency (filter P es) ≫= Designer.detectCycle = Some true →
  buildAdjacency es ≫= Designer.detectCycle = Some true.
Proof.
  intros Hb Htrue. rewrite Hb. f_equal.
  apply (designer_detectCycle_sound _ _ Hb).
  destruct (proj1 (designer_detectCycle_sound _ _ Htrue)) as (c & Hc); [done|].
  exists c. eapply edgeRel_tc_mono; [|exact Hc]. intros u v. apply edgeRel_filter.
Qed.

Lemma designer_errors_detectCycle ns es errs :
  Designer.validateWorkflow ns es = Some errs →
  ∃ b, buildAdjacency es ≫= Designer.detectCycle = Some b.
Proof.
  intros Herrs. destruct (designer_errors_sound ns es errs Herrs) as (b & Hb & _).
  by exists b.
Qed.

(** X22.  In the designer, too, deleting never brings up the cycle error:
    when [validateWorkflow] reports a cycle after [handleDeleteNode] or
    [handleDeleteEdge], it reported one before. *)
Theorem designer_removal_adds_no_cycle_error st :
  (∀ errs errs',
     DesignerEdit.validate st = Some errs →
     DesignerEdit.validate (Designer.handleDeleteNode st) = Some errs' →
     Msg.designer_cycle ∈ errs' → Msg.designer_cycle ∈ errs) ∧
  (∀ edgeId errs errs',
     DesignerEdit.validate st = Some errs →
     DesignerEdit.validate (Designer.handleDeleteEdge edgeId st) = Some errs' →
     Msg.designer_cycle ∈ errs' → Msg.designer_cycle ∈ errs).
Proof.
  unfold DesignerEdit.validate. split.
  - intros errs errs' Herrs Herrs' Hin.
    unfold Designer.handleDeleteNode in Herrs'.
    destruct (Designer.selectedNode st) as [selected|]; [|congruence].
    simpl in Herrs'.
    destruct (designer_errors_detectCycle _ _ _ Herrs) as [b Hb].
    apply (designer_messages _ _ _ Herrs).
    apply (designer_messages _ _ _ Herrs') in Hin.
    by eapply designer_detectCycle_after_removal.
  - intros edgeId errs errs' Herrs Herrs' Hin. simpl in Herrs'.
    destruct (designer_errors_detectCycle _ _ _ Herrs) as [b Hb].
    apply (designer_messages _ _ _ Herrs).
    apply (designer_messages _ _ _ Herrs') in Hin.
    by eapply designer_detectCycle_after_removal.
Qed.

Lemma designer_removal_adds_no_cycle_error_witness :
  Msg.designer_cycle ∈ [Msg.no_output; Msg.designer_cycle].
Proof.
  apply (proj1 (designer_removal_adds_no_cycle_error
           (Designer.mkState (nodes Examples.entryThenCycle)
              (edges Examples.entryThenCycle) (Some Examples.nodeS) true))
           [Msg.no_output; Msg.designer_cycle]
           [Msg.no_input; Msg.no_output; Msg.designer_cycle]).
  - vm_compute. reflexivity.
  - vm_compute. reflexivity.
  - set_solver.
Defined.
